(** * The Tauri HTML rewrite of [vite.config.ts]

    [tauriHtmlTransform().transformIndexHtml] rewrites the entry document
    with a fixed sequence of [String.prototype.replace] calls, each with a
    regular expression carrying the [g] flag.  The development models

    - JavaScript strings as lists of UTF-16 code units ([N]);
    - the regular expressions of the file, parsed from their source text
      into a small syntax tree;
    - the backtracking matcher of ECMAScript (continuation passing, greedy
      and lazy quantifiers, capture groups, the [i] flag);
    - the global replace loop with its [$n] substitution templates;
    - the plugin function itself.  *)

From Stdlib Require Import List NArith Bool String Ascii Lia Arith.
Import ListNotations.


(** ** Strings *)

(** A JavaScript string is a sequence of 16-bit code units.  Regular
    expressions without the [u] flag work on code units. *)
Definition jsstring := list N.

Definition codes (s : string) : jsstring :=
  map N_of_ascii (list_ascii_of_string s).

(** The double quote, the line feed and the tab, which the documents and
    the patterns below need as separate constants. *)
Definition Q : jsstring := [34%N].
Definition NL : jsstring := [10%N].
Definition TAB : jsstring := [9%N].

(** ** Characters under a regular expression *)

(** [\s]: WhiteSpace and LineTerminator code points of ECMAScript. *)
Definition isWhiteSpace (c : N) : bool :=
  ((9 <=? c) && (c <=? 13) || (c =? 32) || (c =? 160) || (c =? 5760)
   || (8192 <=? c) && (c <=? 8202) || (c =? 8232) || (c =? 8233)
   || (c =? 8239) || (c =? 8287) || (c =? 12288) || (c =? 65279))%N.

(** Canonicalize of the RegExp semantics without the [u] flag: with
    [ignoreCase] a code unit is replaced by its upper case.  A code unit
    above 127 is never mapped to one below 128, and every pattern character
    of this file is ASCII, so the mapping is written out on ASCII and is
    the identity elsewhere. *)
Definition canonicalize (ignoreCase : bool) (c : N) : N :=
  if ignoreCase && (97 <=? c)%N && (c <=? 122)%N then (c - 32)%N else c.

Inductive class_item : Type :=
| CChar (c : N)        (* a class member written as a character *)
| CSpace               (* \s *)
| CNotSpace.           (* \S *)

(** A pattern character, or a character class [[...]] / [[^...]]. *)
Inductive atom : Type :=
| Chr (c : N)
| Cls (neg : bool) (items : list class_item).

Definition item_match (ic : bool) (it : class_item) (c : N) : bool :=
  match it with
  | CChar a => (canonicalize ic a =? canonicalize ic c)%N
  | CSpace => isWhiteSpace c
  | CNotSpace => negb (isWhiteSpace c)
  end.

Definition atom_match (ic : bool) (a : atom) (c : N) : bool :=
  match a with
  | Chr p => (canonicalize ic p =? canonicalize ic c)%N
  | Cls neg items => xorb neg (existsb (fun it => item_match ic it c) items)
  end.

(** ** Regular expressions *)

(** The syntax the patterns of the file use: every quantifier applies to a
    single character or class. *)
Inductive regex : Type :=
| Eps
| Atom (a : atom)
| Star (a : atom)             (* a*  *)
| StarLazy (a : atom)         (* a*? *)
| Plus (a : atom)             (* a+  *)
| Opt (a : atom)              (* a?  *)
| Seq (r1 r2 : regex)
| Group (n : nat) (r : regex).  (* the n-th capturing parenthesis *)

(** *** Parsing a pattern *)

Definition is_alnum (c : N) : bool :=
  ((48 <=? c) && (c <=? 57) || (65 <=? c) && (c <=? 90)
   || (97 <=? c) && (c <=? 122))%N.

(** A class escape or character inside [[...]]. *)
Definition class_escape (e : N) : option class_item :=
  if (e =? 115)%N then Some CSpace                 (* \s *)
  else if (e =? 83)%N then Some CNotSpace          (* \S *)
  else if (e =? 116)%N then Some (CChar 9)         (* \t *)
  else if (e =? 110)%N then Some (CChar 10)        (* \n *)
  else if (e =? 114)%N then Some (CChar 13)        (* \r *)
  else if is_alnum e then None
  else Some (CChar e).                             (* identity escape *)

(** Members of a class up to the closing bracket.  Ranges are not used by
    the file and are refused. *)
Fixpoint parse_class (s : jsstring) : option (list class_item * jsstring) :=
  match s with
  | [] => None
  | c :: rest =>
      if (c =? 93)%N then Some ([], rest)                         (* ] *)
      else if (c =? 45)%N then None                               (* - *)
      else if (c =? 92)%N then                                    (* \ *)
        match rest with
        | [] => None
        | e :: rest' =>
            match class_escape e, parse_class rest' with
            | Some it, Some (its, tl) => Some (it :: its, tl)
            | _, _ => None
            end
        end
      else
        match parse_class rest with
        | Some (its, tl) => Some (CChar c :: its, tl)
        | None => None
        end
  end.

(** [.] outside a class: any code unit but a line terminator. *)
Definition dot : atom := Cls true [CChar 10; CChar 13; CChar 8232; CChar 8233].

Definition atom_escape (e : N) : option atom :=
  if (e =? 115)%N then Some (Cls false [CSpace])
  else if (e =? 83)%N then Some (Cls false [CNotSpace])
  else if (e =? 116)%N then Some (Chr 9)
  else if (e =? 110)%N then Some (Chr 10)
  else if (e =? 114)%N then Some (Chr 13)
  else if is_alnum e then None
  else Some (Chr e).

(** Characters that are syntax outside a class and that the subset does not
    give a meaning to as a pattern character. *)
Definition is_syntax (c : N) : bool :=
  ((c =? 42) || (c =? 43) || (c =? 63) || (c =? 124) || (c =? 94)
   || (c =? 36) || (c =? 123) || (c =? 125) || (c =? 41))%N.

(** One atom from the front of the pattern. *)
Definition parse_atom (s : jsstring) : option (atom * jsstring) :=
  match s with
  | [] => None
  | c :: rest =>
      if (c =? 91)%N then                                         (* [ *)
        match rest with
        | n :: rest' =>
            if (n =? 94)%N then                                   (* ^ *)
              match parse_class rest' with
              | Some (its, tl) => Some (Cls true its, tl)
              | None => None
              end
            else
              match parse_class rest with
              | Some (its, tl) => Some (Cls false its, tl)
              | None => None
              end
        | [] => None
        end
      else if (c =? 92)%N then
        match rest with
        | e :: rest' =>
            match atom_escape e with
            | Some a => Some (a, rest')
            | None => None
            end
        | [] => None
        end
      else if (c =? 46)%N then Some (dot, rest)                   (* . *)
      else if is_syntax c then None
      else Some (Chr c, rest)
  end.

(** The quantifier that follows an atom, if any. *)
Definition parse_quant (a : atom) (s : jsstring) : regex * jsstring :=
  match s with
  | c :: rest =>
      if (c =? 42)%N then                                         (* * *)
        match rest with
        | q :: rest' => if (q =? 63)%N then (StarLazy a, rest') else (Star a, rest)
        | [] => (Star a, rest)
        end
      else if (c =? 43)%N then (Plus a, rest)                     (* + *)
      else if (c =? 63)%N then (Opt a, rest)                      (* ? *)
      else (Atom a, s)
  | [] => (Atom a, s)
  end.

(** A sequence of terms up to the end of the pattern or to the closing
    parenthesis of the enclosing group.  [ng] counts the left parentheses
    seen so far; the result carries the rest of the input and the new
    count. *)
Fixpoint parse_seq (fuel : nat) (ng : nat) (s : jsstring)
  : option (regex * jsstring * nat) :=
  match fuel with
  | O => None
  | S fuel' =>
      match s with
      | [] => Some (Eps, [], ng)
      | c :: rest =>
          if (c =? 41)%N then Some (Eps, s, ng)                   (* ) *)
          else if (c =? 40)%N then                                (* ( *)
            match parse_seq fuel' (S ng) rest with
            | Some (body, tl, ng') =>
                match tl with
                | d :: tl' =>
                    if (d =? 41)%N then
                      match parse_seq fuel' ng' tl' with
                      | Some (r, tl'', ng'') => Some (Seq (Group (S ng) body) r, tl'', ng'')
                      | None => None
                      end
                    else None
                | [] => None
                end
            | None => None
            end
          else
            match parse_atom s with
            | Some (a, tl) =>
                let '(t, tl') := parse_quant a tl in
                match parse_seq fuel' ng tl' with
                | Some (r, tl'', ng') => Some (Seq t r, tl'', ng')
                | None => None
                end
            | None => None
            end
      end
  end.

(** The whole pattern.  A pattern outside the subset has no tree. *)
Definition parse_pattern (src : jsstring) : option regex :=
  match parse_seq (S (List.length src)) 0 src with
  | Some (r, [], _) => Some r
  | _ => None
  end.

(** A compiled regular expression: its tree and the [i] flag.  Every
    expression of the file carries the [g] flag, which belongs to the
    replace loop below. *)
Record RegExp : Type := mkRegExp { re_tree : regex; re_ignoreCase : bool }.

(** [new RegExp(src, flags)] and the literal [/src/flags]; in a literal the
    slash is written escaped, which the identity escape reads back. *)
Definition compile (src : jsstring) (ignoreCase : bool) : option RegExp :=
  match parse_pattern src with
  | Some r => Some (mkRegExp r ignoreCase)
  | None => None
  end.

(** ** The backtracking matcher *)

Definition captures := list (nat * jsstring).

(** What is left of the input, and the groups captured so far. *)
Definition mstate := (jsstring * captures)%type.

Definition cont := mstate -> option mstate.

Fixpoint star_greedy (p : N -> bool) (k : jsstring -> option mstate)
  (s : jsstring) : option mstate :=
  match s with
  | c :: s' =>
      if p c then
        match star_greedy p k s' with
        | Some r => Some r
        | None => k s
        end
      else k s
  | [] => k s
  end.

Fixpoint star_lazy (p : N -> bool) (k : jsstring -> option mstate)
  (s : jsstring) : option mstate :=
  match k s with
  | Some r => Some r
  | None =>
      match s with
      | c :: s' => if p c then star_lazy p k s' else None
      | [] => None
      end
  end.

(** [matcher ic r k st]: match [r] at the front of the input of [st], then
    continue with [k]; on failure of [k] the next alternative of [r] is
    tried, in the priority order of ECMAScript. *)
Fixpoint matcher (ic : bool) (r : regex) (k : cont) (st : mstate)
  {struct r} : option mstate :=
  let s := fst st in
  let c := snd st in
  match r with
  | Eps => k st
  | Atom a =>
      match s with
      | x :: s' => if atom_match ic a x then k (s', c) else None
      | [] => None
      end
  | Star a => star_greedy (atom_match ic a) (fun s' => k (s', c)) s
  | StarLazy a => star_lazy (atom_match ic a) (fun s' => k (s', c)) s
  | Plus a =>
      match s with
      | x :: s' =>
          if atom_match ic a x
          then star_greedy (atom_match ic a) (fun s'' => k (s'', c)) s'
          else None
      | [] => None
      end
  | Opt a =>
      match s with
      | x :: s' =>
          if atom_match ic a x then
            match k (s', c) with
            | Some res => Some res
            | None => k st
            end
          else k st
      | [] => k st
      end
  | Seq r1 r2 => matcher ic r1 (matcher ic r2 k) st
  | Group n r' =>
      matcher ic r'
        (fun st' =>
           k (fst st', (n, firstn (List.length s - List.length (fst st')) s) :: snd st'))
        st
  end.

(** One match attempt at the front of [s]: the rest of the input after the
    match, and the captures. *)
Definition exec_at (R : RegExp) (s : jsstring) : option mstate :=
  matcher (re_ignoreCase R) (re_tree R) (fun st => Some st) (s, []).

(** ** Substitution templates *)

Fixpoint lookup_group (n : nat) (c : captures) : option jsstring :=
  match c with
  | [] => None
  | (m, g) :: c' => if Nat.eqb n m then Some g else lookup_group n c'
  end.

(** GetSubstitution for the forms [$$], [$&] and [$1] to [$9]; a [$n] whose
    group does not exist stays as written.  The templates of the file use
    [$1] and [$2] only, with fewer than ten groups. *)
Fixpoint substitute (tmpl matched : jsstring) (c : captures) : jsstring :=
  match tmpl with
  | [] => []
  | d :: t =>
      if (d =? 36)%N then                                         (* $ *)
        match t with
        | e :: t' =>
            if (e =? 36)%N then 36%N :: substitute t' matched c
            else if (e =? 38)%N then matched ++ substitute t' matched c
            else if (49 <=? e)%N && (e <=? 57)%N then
              match lookup_group (N.to_nat (e - 48)) c with
              | Some g => g ++ substitute t' matched c
              | None => d :: substitute t matched c
              end
            else d :: substitute t matched c
        | [] => [d]
        end
      else d :: substitute t matched c
  end.

(** ** [String.prototype.replace] with a global regular expression *)

(** The loop of RegExp.prototype[Symbol.replace] for a [g] expression: the
    leftmost match from the current index is replaced and the search goes
    on after it; after an empty match the index advances by one code unit.
    [skip] counts the code units of the current match still to drop. *)
Fixpoint replace_from (R : RegExp) (tmpl : jsstring) (skip : nat)
  (s : jsstring) {struct s} : jsstring :=
  match skip with
  | S n =>
      match s with
      | [] => []
      | _ :: s' => replace_from R tmpl n s'
      end
  | O =>
      match exec_at R s with
      | Some (rest, caps) =>
          let n := List.length s - List.length rest in
          let out := substitute tmpl (firstn n s) caps in
          match s with
          | [] => out
          | x :: s' =>
              match n with
              | O => out ++ x :: replace_from R tmpl 0 s'
              | S n' => out ++ replace_from R tmpl n' s'
              end
          end
      | None =>
          match s with
          | [] => []
          | x :: s' => x :: replace_from R tmpl 0 s'
          end
      end
  end.

(** [s.replace(R, tmpl)].  Constructing an expression from a pattern that
    does not parse throws; the value is then absent. *)
Definition replace (R : option RegExp) (tmpl : jsstring) (s : jsstring)
  : option jsstring :=
  match R with
  | Some R' => Some (replace_from R' tmpl 0 s)
  | None => None
  end.

(** ** Exceptions *)

(** A step that can throw is a partial function; steps are chained with
    the bind of the option monad. *)
Definition bind {A B : Type} (x : option A) (f : A -> option B) : option B :=
  match x with
  | Some a => f a
  | None => None
  end.

Notation "x <- e ;; k" := (bind e (fun x => k))
  (at level 61, e at next level, right associativity).

(** ** The rules of [transformIndexHtml] *)

(** 1. The Tailwind CDN script. *)
Definition re_tailwind : option RegExp :=
  compile (codes "[ \t]*<script\s[^>]*src\s*=\s*" ++ Q
           ++ codes "https?:\/\/cdn\.tailwindcss\.com[^" ++ Q ++ codes "]*" ++ Q
           ++ codes "[^>]*><\/script>\s*\n?") true.

(** 2. The theme style sheets: file name on the CDN, local path. *)
Definition themeCssMap : list (jsstring * jsstring) :=
  [ (codes "github-markdown-dark.min.css", codes "./vendor/css/github-markdown-dark.min.css");
    (codes "github-markdown.min.css", codes "./vendor/css/github-markdown.min.css");
    (codes "a11y-dark.min.css", codes "./vendor/css/a11y-dark.min.css");
    (codes "a11y-light.min.css", codes "./vendor/css/a11y-light.min.css") ].

(** [cdnFile.replace(/[.*+?^${}()|[\]\\]/g, '\\$&')] *)
Definition escapeFile (cdnFile : jsstring) : option jsstring :=
  replace (compile (codes "[.*+?^${}()|[\]\\]") false) (codes "\$&") cdnFile.

(** The expression built for one entry of the map. *)
Definition re_theme (cdnFile : jsstring) : option RegExp :=
  escapedFile <- escapeFile cdnFile ;;
  compile (codes "href\s*=\s*" ++ Q ++ codes "https?://[^" ++ Q ++ codes "]*"
           ++ escapedFile ++ Q) true.

(** The body of the loop over the entries of the map. *)
Definition themeStep (result : jsstring) (entry : jsstring * jsstring)
  : option jsstring :=
  replace (re_theme (fst entry)) (codes "href=" ++ Q ++ snd entry ++ Q) result.

Fixpoint themeLoop (entries : list (jsstring * jsstring)) (result : jsstring)
  : option jsstring :=
  match entries with
  | [] => Some result
  | e :: es => result' <- themeStep result e ;; themeLoop es result'
  end.

(** 3. Style sheets that the bundle already carries. *)
Definition re_fontawesome : option RegExp :=
  compile (codes "[ \t]*<link\s[^>]*href\s*=\s*" ++ Q
           ++ codes "https?:\/\/[^" ++ Q ++ codes "]*font-awesome[^" ++ Q
           ++ codes "]*" ++ Q ++ codes "[^>]*\/?>\s*\n?") true.

Definition re_katex : option RegExp :=
  compile (codes "[ \t]*<link\s[^>]*href\s*=\s*" ++ Q
           ++ codes "https?:\/\/[^" ++ Q ++ codes "]*katex[^" ++ Q
           ++ codes "]*" ++ Q ++ codes "[^>]*\/?>\s*\n?") true.

Definition re_reactpdf : option RegExp :=
  compile (codes "[ \t]*<link\s[^>]*href\s*=\s*" ++ Q
           ++ codes "https?:\/\/esm\.sh\/react-pdf[^" ++ Q ++ codes "]*\.css" ++ Q
           ++ codes "[^>]*\/?>\s*\n?") true.

(** 4. Scripts redirected to the vendor directory. *)
Definition re_viz : option RegExp :=
  compile (codes "(<script\s[^>]*src\s*=\s*" ++ Q ++ codes ")https?:\/\/[^" ++ Q
           ++ codes "]*\/viz\.js(" ++ Q ++ codes "[^>]*><\/script>)") true.

Definition re_fullrender : option RegExp :=
  compile (codes "(<script\s[^>]*src\s*=\s*" ++ Q ++ codes ")https?:\/\/[^" ++ Q
           ++ codes "]*\/full\.render\.js(" ++ Q ++ codes "[^>]*><\/script>)") true.

Definition re_html2pdf : option RegExp :=
  compile (codes "[ \t]*<script\s[^>]*src\s*=\s*" ++ Q
           ++ codes "https?:\/\/[^" ++ Q ++ codes "]*html2pdf[^" ++ Q
           ++ codes "]*" ++ Q ++ codes "[^>]*><\/script>\s*\n?") true.

Definition html2pdf_local : jsstring :=
  codes "  <script src=" ++ Q ++ codes "./vendor/js/html2pdf.bundle.min.js" ++ Q
  ++ codes "></script>" ++ NL.

(** 5. The import map. *)
Definition re_importmap : option RegExp :=
  compile (codes "[ \t]*<script\s+type\s*=\s*" ++ Q ++ codes "importmap" ++ Q
           ++ codes "[\s\S]*?<\/script>\s*\n?") true.

(** 6. The marker comments; these expressions have no [i] flag. *)
Definition re_comment (text : string) : option RegExp :=
  compile (codes "[ \t]*<!-- " ++ codes text ++ codes " -->\s*\n?") false.

(** ** The plugin *)

(** [process.env.TAURI_PLATFORM] is a string or undefined. *)
Definition transformIndexHtml (TAURI_PLATFORM : option jsstring)
  (html : jsstring) : option jsstring :=
  match TAURI_PLATFORM with
  | None => Some html
  | Some _ =>
      let result := html in
      result <- replace re_tailwind [] result ;;
      result <- themeLoop themeCssMap result ;;
      result <- replace re_fontawesome [] result ;;
      result <- replace re_katex [] result ;;
      result <- replace re_reactpdf [] result ;;
      result <- replace re_viz (codes "$1./vendor/js/viz.js$2") result ;;
      result <- replace re_fullrender (codes "$1./vendor/js/full.render.js$2") result ;;
      result <- replace re_html2pdf html2pdf_local result ;;
      result <- replace re_importmap [] result ;;
      result <- replace (re_comment "React PDF Styles") [] result ;;
      result <- replace (re_comment "Graphviz scripts") [] result ;;
      result <- replace (re_comment "HTML2PDF") [] result ;;
      Some result
  end.

(** The steps of the pipeline after the theme loop, for statements about
    the first two steps. *)
Definition afterTheme (result : jsstring) : option jsstring :=
  result <- replace re_fontawesome [] result ;;
  result <- replace re_katex [] result ;;
  result <- replace re_reactpdf [] result ;;
  result <- replace re_viz (codes "$1./vendor/js/viz.js$2") result ;;
  result <- replace re_fullrender (codes "$1./vendor/js/full.render.js$2") result ;;
  result <- replace re_html2pdf html2pdf_local result ;;
  result <- replace re_importmap [] result ;;
  result <- replace (re_comment "React PDF Styles") [] result ;;
  result <- replace (re_comment "Graphviz scripts") [] result ;;
  result <- replace (re_comment "HTML2PDF") [] result ;;
  Some result.

(** ** Vocabulary of the statements *)

(** A sequence of terms, nested to the right as the parser builds it, and
    the terms of a run of pattern characters. *)
Definition seqs (l : list regex) : regex := fold_right Seq Eps l.

Definition lits (s : jsstring) : list regex := map (fun c => Atom (Chr c)) s.

(** Two code units that the matcher does not tell apart. *)
Definition cieq (ic : bool) (p x : N) : bool :=
  (canonicalize ic p =? canonicalize ic x)%N.

(** [same ic p w]: [w] is [p] up to the case folding of [ic]. *)
Fixpoint same (ic : bool) (p w : jsstring) : bool :=
  match p, w with
  | [], [] => true
  | a :: p', x :: w' => cieq ic a x && same ic p' w'
  | _, _ => false
  end.

Fixpoint starts_with (ic : bool) (p s : jsstring) : bool :=
  match p with
  | [] => true
  | a :: p' =>
      match s with
      | x :: s' => cieq ic a x && starts_with ic p' s'
      | [] => false
      end
  end.

(** [occurs ic p s]: the text [p] occurs in [s], up to case when [ic]. *)
Fixpoint occurs (ic : bool) (p s : jsstring) : bool :=
  starts_with ic p s
  || match s with
     | [] => false
     | _ :: s' => occurs ic p s'
     end.

(** All code units of [s] satisfy / none satisfies a test. *)
Definition all (p : N -> bool) (s : jsstring) : bool := forallb p s.
Definition none (p : N -> bool) (s : jsstring) : bool :=
  forallb (fun x => negb (p x)) s.

Definition is_char (c : N) (x : N) : bool := (x =? c)%N.
Definition is_blank (x : N) : bool := (x =? 32)%N || (x =? 9)%N.

Definition ends_with_p (p : N -> bool) (s : jsstring) : bool :=
  match rev s with
  | x :: _ => p x
  | [] => false
  end.

Definition starts_with_p (p : N -> bool) (s : jsstring) : bool :=
  match s with
  | x :: _ => p x
  | [] => false
  end.

(** *** The texts a regular expression matches *)

(** [sem ic r w c c']: [r] can match exactly the text [w], turning the
    captures [c] into [c'].  This is the declarative reading of the
    syntax; the order in which the matcher tries alternatives is not part
    of it. *)
Fixpoint sem (ic : bool) (r : regex) (w : jsstring) (c c' : captures) : Prop :=
  match r with
  | Eps => w = [] /\ c' = c
  | Atom a => (exists x, w = [x] /\ atom_match ic a x = true) /\ c' = c
  | Star a => forallb (atom_match ic a) w = true /\ c' = c
  | StarLazy a => forallb (atom_match ic a) w = true /\ c' = c
  | Plus a => (w <> [] /\ forallb (atom_match ic a) w = true) /\ c' = c
  | Opt a => (w = [] \/ exists x, w = [x] /\ atom_match ic a x = true) /\ c' = c
  | Seq r1 r2 =>
      exists w1 w2 c1, w = w1 ++ w2 /\ sem ic r1 w1 c c1 /\ sem ic r2 w2 c1 c'
  | Group n r' => exists c1, sem ic r' w c c1 /\ c' = (n, w) :: c1
  end.

(** [requires ic m r]: the run of pattern characters [m] is written
    somewhere in [r], so that every text [r] matches contains it. *)
Fixpoint lit_prefix (m : jsstring) (r : regex) : bool :=
  match m with
  | [] => true
  | a :: m' =>
      match r with
      | Seq (Atom (Chr b)) r2 => (a =? b)%N && lit_prefix m' r2
      | _ => false
      end
  end.

Fixpoint requires (m : jsstring) (r : regex) : bool :=
  lit_prefix m r
  || match r with
     | Seq r1 r2 => requires m r1 || requires m r2
     | Group _ r' => requires m r'
     | _ => false
     end.

(** The compiled expression [Ro] exists, has the flag [ic] and requires
    [m]. *)
Definition requires_in (ic : bool) (m : jsstring) (Ro : option RegExp) : bool :=
  match Ro with
  | Some R => requires m (re_tree R) && Bool.eqb (re_ignoreCase R) ic
  | None => false
  end.

(** *** The parts the patterns are made of *)

Definition ws : atom := Cls false [CSpace].                   (* \s *)
Definition notgt : atom := Cls true [CChar 62].               (* [^>] *)
Definition notq : atom := Cls true [CChar 34].                (* all but the quote *)
Definition blank : atom := Cls false [CChar 32; CChar 9].     (* [ \t] *)

(** [attr\s*=\s*] *)
Definition attr_eq_re (attr : jsstring) : list regex :=
  lits attr ++ [Star ws; Atom (Chr 61); Star ws].

(** [<tag\s[^>]*attr\s*=\s*] and the opening quote *)
Definition attr_open (tag attr : jsstring) : list regex :=
  lits tag ++ [Atom ws; Star notgt] ++ attr_eq_re attr ++ [Atom (Chr 34)].

(** [https?://] *)
Definition scheme : list regex :=
  lits (codes "http") ++ [Opt (Chr 115)] ++ lits (codes "://").

(** The closing quote and [[^>]*></script>] *)
Definition script_close : list regex :=
  [Atom (Chr 34); Star notgt] ++ lits (codes "></script>").

(** The closing quote and [[^>]*/?>] *)
Definition link_close : list regex :=
  [Atom (Chr 34); Star notgt; Opt (Chr 47); Atom (Chr 62)].

(** [\s*\n?] *)
Definition trail : list regex := [Star ws; Opt (Chr 10)].

(** The string without its leading white space, and without its trailing
    spaces and tabs. *)
Fixpoint lstrip (s : jsstring) : jsstring :=
  match s with
  | x :: s' => if isWhiteSpace x then lstrip s' else s
  | [] => []
  end.

(** An expression without capturing parentheses. *)
Fixpoint groupless (r : regex) : bool :=
  match r with
  | Seq r1 r2 => groupless r1 && groupless r2
  | Group _ _ => false
  | _ => true
  end.

(** *** Texts of the common parts *)

(** [http://] or [https://], in any case. *)
Definition is_scheme (sch : jsstring) : bool :=
  same true (codes "http://") sch || same true (codes "https://") sch.

(** [attr], white space, the equals sign, white space. *)
Definition attr_eq (attr w : jsstring) : Prop :=
  exists h w1 w2, w = h ++ w1 ++ [61%N] ++ w2
    /\ same true attr h = true
    /\ all isWhiteSpace w1 = true /\ all isWhiteSpace w2 = true.

(** *** The expressions on tags *)

(** A script tag with a quoted [src] matching [url], closed at once. *)
Definition script_core (url : list regex) : list regex :=
  attr_open (codes "<script") (codes "src") ++ url ++ script_close.

(** A link tag with a quoted [href] matching [url]. *)
Definition link_core (url : list regex) : list regex :=
  attr_open (codes "<link") (codes "href") ++ url ++ link_close.


(** An absolute URL that contains [m], and one that ends in [m]. *)
Definition url_contains (m : jsstring) : list regex :=
  scheme ++ [Star notq] ++ lits m ++ [Star notq].

Definition url_ends (m : jsstring) : list regex :=
  scheme ++ [Star notq] ++ lits m.


(** Leading spaces and tabs, a tag, trailing white space. *)
Definition delete_tree (core : list regex) : regex :=
  seqs ([Star blank] ++ core ++ trail).

(** The two groups around the URL of a script. *)
Definition redirect_tree (url : list regex) : regex :=
  seqs (Group 1 (seqs (attr_open (codes "<script") (codes "src")))
        :: url ++ [Group 2 (seqs script_close)]).



(** The texts of the parts of a tag expression. *)
Definition open_text (tag attr w : jsstring) : Prop :=
  exists o x X Pq, w = o ++ [x] ++ X ++ Pq ++ [34%N]
    /\ same true tag o = true /\ isWhiteSpace x = true
    /\ none (is_char 62) X = true /\ attr_eq attr Pq.

Definition close_text (w : jsstring) : Prop :=
  exists Y cl, w = [34%N] ++ Y ++ cl
    /\ none (is_char 62) Y = true /\ same true (codes "></script>") cl = true.

Definition url_start (u : jsstring) : Prop :=
  exists sch u', u = sch ++ u' /\ is_scheme sch = true.

(** What the lemmas on tags need of the expression of a URL: no group,
    no quote in its texts, and a scheme at their start. *)
Definition url_ok (url : list regex) : Prop :=
  forallb groupless url = true
  /\ forall u c c', sem true (seqs url) u c c' ->
       none (is_char 34) u = true /\ url_start u.

(** A text that starts like a match of a rule on tags: spaces and tabs,
    the opening part up to the quote, a URL with the marker in it, and the
    closing quote. *)
Definition tagged_text (tag attr marker w : jsstring) : Prop :=
  exists bl wo u w3, w = bl ++ wo ++ u ++ 34%N :: w3
    /\ all is_blank bl = true /\ open_text tag attr wo
    /\ none (is_char 34) u = true /\ url_start u
    /\ occurs true marker u = true.

(** *** Tags in a document *)

(** A script tag as the rules expect it: attribute text [A1] after the
    tag name, [src] with the quoted value [U], attribute text [A2], and
    the closing tag right after. *)
Definition script_tag (A1 U A2 : jsstring) : jsstring :=
  codes "<script" ++ A1 ++ codes "src=" ++ Q ++ U ++ Q ++ A2
  ++ codes "></script>".

Definition is_gt (x : N) : bool := is_char 62 x.
Definition is_lt (x : N) : bool := is_char 60 x.
Definition is_quote (x : N) : bool := is_char 34 x.

(** Whether the string ends after a [<] that no [>] follows. *)
Definition in_tag (s : jsstring) : bool :=
  fold_left (fun acc x => if is_lt x then true else if is_gt x then false else acc)
    s false.

(** What follows the last quote of the string. *)
Fixpoint after_last_quote (s : jsstring) : jsstring :=
  match s with
  | [] => []
  | x :: s' =>
      if existsb is_quote s' then after_last_quote s'
      else if is_quote x then s' else s
  end.

Definition has_scheme_sep (s : jsstring) : bool := occurs false (codes "://") s.

(** The text before a tag: it does not end in a space or tab, nor inside
    a tag, nor after a quote that opens a URL, and it does not contain the
    marker of the rule. *)
Definition before_ok (marker pre : jsstring) : bool :=
  negb (ends_with_p is_blank pre)
  && negb (in_tag pre)
  && negb (has_scheme_sep (after_last_quote pre))
  && negb (occurs true marker pre).

(** Attribute text of a tag: no [>] in it and no URL. *)
Definition attrs_ok (A : jsstring) : bool :=
  none is_gt A && negb (has_scheme_sep A).

(** Attribute text that follows the tag name starts with white space. *)
Definition attrs_after_name (A : jsstring) : bool :=
  starts_with_p isWhiteSpace A && attrs_ok A.

(** *** The theme expressions *)

(** The tree of the expression built for a file name whose characters
    are all read as pattern characters. *)
Definition theme_tree (file : jsstring) : regex :=
  seqs (attr_eq_re (codes "href") ++ [Atom (Chr 34)] ++ scheme
        ++ [Star notq] ++ lits file ++ [Atom (Chr 34)]).

(** An absolute URL without a quote that ends in [file]. *)
Definition theme_value (file V : jsstring) : Prop :=
  exists sch V' f, V = sch ++ V' ++ f
    /\ is_scheme sch = true /\ none (is_char 34) V' = true
    /\ same true file f = true.

(** The texts the expression of [file] matches. *)
Definition theme_text (file w : jsstring) : Prop :=
  exists Pq V, w = Pq ++ [34%N] ++ V ++ [34%N]
    /\ attr_eq (codes "href") Pq /\ theme_value file V.

(** The replacement text of an entry. *)
Definition theme_tmpl (localPath : jsstring) : jsstring :=
  codes "href=" ++ Q ++ localPath ++ Q.

(** What a file name has to satisfy for the lemmas on theme expressions:
    no quote in it, and a last character that is neither white space nor
    the equals sign. *)
Definition file_ok (file : jsstring) : bool :=
  none (is_char 34) file
  && match rev file with
     | z :: _ => negb (isWhiteSpace z) && negb (cieq true z 61)
     | [] => false
     end.

(** The value of an attribute does not end in white space or in the equals
    sign. *)
Definition value_end_ok (V : jsstring) : bool :=
  negb (ends_with_p (fun x => isWhiteSpace x || is_char 61 x) V).

(** The attribute [href] with the value [V] in double quotes. *)
Definition href_span (V : jsstring) : jsstring :=
  codes "href=" ++ Q ++ V ++ Q.

(** The loop over the entries with the expressions as trees. *)
Definition themeRule (html : jsstring) : jsstring :=
  fold_left
    (fun result entry =>
       replace_from (mkRegExp (theme_tree (fst entry)) true)
         (theme_tmpl (snd entry)) 0 result)
    themeCssMap html.

(** None of the four file names occurs in the string. *)
Definition no_theme_file (s : jsstring) : bool :=
  forallb (fun e => negb (occurs true (fst e) s)) themeCssMap.

(** Two file names that differ, up to case, in the part they could share
    at the end of a URL. *)
Definition clash (f g : jsstring) : bool :=
  let k := Nat.min (List.length f) (List.length g) in
  negb (same true (firstn k (rev f)) (firstn k (rev g))).

(** The result of a match inside a prefix, seen from the whole string. *)
Definition lift_rest (rest : jsstring) (o : option mstate) : option mstate :=
  match o with
  | Some (s', c) => Some (s' ++ rest, c)
  | None => None
  end.

(** *** The markers of the rules *)

(** The texts the rules with the [i] flag key on: the Tailwind host, the
    four theme files, the three style-sheet markers, the two Graphviz
    scripts, the PDF library and the quoted type of an import map. *)
Definition markers : list jsstring :=
  [ codes "cdn.tailwindcss.com";
    codes "github-markdown-dark.min.css";
    codes "github-markdown.min.css";
    codes "a11y-dark.min.css";
    codes "a11y-light.min.css";
    codes "font-awesome";
    codes "katex";
    codes "esm.sh/react-pdf";
    codes "viz.js";
    codes "full.render.js";
    codes "html2pdf";
    Q ++ codes "importmap" ++ Q ].

(** The three marker comments, which are matched with their case. *)
Definition comment_markers : list jsstring :=
  [ codes "<!-- React PDF Styles -->";
    codes "<!-- Graphviz scripts -->";
    codes "<!-- HTML2PDF -->" ].

(** The markers of the rules other than the theme rule, the import map
    by its name alone. *)
Definition other_markers : list jsstring :=
  [ codes "cdn.tailwindcss.com";
    codes "font-awesome";
    codes "katex";
    codes "esm.sh/react-pdf";
    codes "viz.js";
    codes "full.render.js";
    codes "html2pdf";
    codes "importmap" ].

(** No marker of another rule is present. *)
Definition no_other_marker (html : jsstring) : bool :=
  forallb (fun m => negb (occurs true m html)) other_markers
  && forallb (fun m => negb (occurs false m html)) comment_markers.

(** No marker is present in the document: the markers of the [i] rules
    are looked for in any case, the comments literally. *)
Definition no_marker (html : jsstring) : bool :=
  forallb (fun m => negb (occurs true m html)) markers
  && forallb (fun m => negb (occurs false m html)) comment_markers.

(** Every text of the expression of a URL contains [m]. *)
Definition url_has (m : jsstring) (url : list regex) : Prop :=
  forall u c c', sem true (seqs url) u c c' -> occurs true m u = true.

(** *** The calls of [replace] as a list *)

(** The fifteen calls in the order of the function, each with its
    expression and its replacement. *)
Definition steps : list (option RegExp * jsstring) :=
  (re_tailwind, [])
  :: map (fun e => (re_theme (fst e), codes "href=" ++ Q ++ snd e ++ Q)) themeCssMap
  ++ [ (re_fontawesome, []);
       (re_katex, []);
       (re_reactpdf, []);
       (re_viz, codes "$1./vendor/js/viz.js$2");
       (re_fullrender, codes "$1./vendor/js/full.render.js$2");
       (re_html2pdf, html2pdf_local);
       (re_importmap, []);
       (re_comment "React PDF Styles", []);
       (re_comment "Graphviz scripts", []);
       (re_comment "HTML2PDF", []) ].

Fixpoint run (l : list (option RegExp * jsstring)) (s : jsstring)
  : option jsstring :=
  match l with
  | [] => Some s
  | (R, tmpl) :: l' => s' <- replace R tmpl s ;; run l' s'
  end.

(** The marker of each call, with the case flag of its expression. *)
Definition step_markers : list (bool * jsstring) :=
  map (pair true) markers ++ map (pair false) comment_markers.

(** The positions of the calls on scripts and on the import map. *)
Definition at_tailwind : nat := 0.
Definition at_viz : nat := 8.
Definition at_fullrender : nat := 9.
Definition at_html2pdf : nat := 10.

Definition markers_before (k : nat) : list (bool * jsstring) :=
  firstn k step_markers.

Definition markers_after (k : nat) : list (bool * jsstring) :=
  skipn (S k) step_markers.

(** None of the markers [ms] occurs in [s]. *)
Definition quiet (ms : list (bool * jsstring)) (s : jsstring) : bool :=
  forallb (fun mk => negb (occurs (fst mk) (snd mk) s)) ms.

(** A script tag that loads Tailwind from its CDN. *)
Definition tailwind_tag (A1 sch U' A2 : jsstring) : jsstring :=
  script_tag A1 (sch ++ codes "cdn.tailwindcss.com" ++ U') A2.

(** The same tag written with single quotes around the URL. *)
Definition tailwind_single_quoted : jsstring :=
  codes "<script src='https://cdn.tailwindcss.com'></script>".

Definition tailwind_plain : jsstring :=
  tailwind_tag (codes " ") (codes "https://") [] [].

(** A document in which the tag shows only after a first deletion. *)
Definition tailwind_nested : jsstring :=
  codes "<script src=" ++ Q ++ codes "https://cdn.tailwindcss.com" ++ Q
  ++ codes "></scr" ++ tailwind_plain ++ codes "ipt>".


(** Such a tag with a [>] inside the value of another attribute. *)
Definition html2pdf_gt_in_attr : jsstring :=
  codes "<script src=" ++ Q ++ codes "https://cdn/html2pdf.js" ++ Q
  ++ codes " data-c=" ++ Q ++ codes "a>b" ++ Q ++ codes "></script>".

(** The two scripts that are redirected: position of the call, end of the
    URL, local path. *)
Definition script_redirects : list (nat * jsstring * jsstring) :=
  [ (at_viz, codes "/viz.js", codes "./vendor/js/viz.js");
    (at_fullrender, codes "/full.render.js", codes "./vendor/js/full.render.js") ].

(** A script with a second URL in a later attribute. *)
Definition viz_two_urls : jsstring :=
  codes "<script src=" ++ Q ++ codes "https://a/viz.js" ++ Q
  ++ codes " data-src=" ++ Q ++ codes "https://b/viz.js" ++ Q
  ++ codes "></script>".

Definition viz_two_urls_out : jsstring :=
  codes "<script src=" ++ Q ++ codes "https://a/viz.js" ++ Q
  ++ codes " data-src=" ++ Q ++ codes "./vendor/js/viz.js" ++ Q
  ++ codes "></script>".

(** *** The import map *)

(** The start of the opening tag of an import map, as the rule expects
    it. *)
Definition importmap_open : jsstring :=
  codes "<script type=" ++ Q ++ codes "importmap" ++ Q.


(** An import map followed by a comment that names it. *)
Definition importmap_named_later : jsstring :=
  importmap_open ++ codes ">{}</script>" ++ codes "<!-- importmap removed -->".



(** *** The marker comments *)

(** A marker comment as it stands in the document. *)
Definition comment_of (text : string) : jsstring :=
  codes "<!-- " ++ codes text ++ codes " -->".

(** The three comments, each with the position of its call. *)
Definition comment_steps : list (nat * string) :=
  [ (12, "React PDF Styles"%string);
    (13, "Graphviz scripts"%string);
    (14, "HTML2PDF"%string) ].

(** Spaces and tabs, the comment, trailing white space. *)
Definition comment_tree (text : string) : regex :=
  delete_tree (lits (comment_of text)).

(** *** Link tags *)


(** The texts of the closing part of a link expression: the quote,
    attribute text, an optional slash and [>]. *)
Definition link_close_text (w : jsstring) : Prop :=
  exists Y sl, w = [34%N] ++ Y ++ sl ++ [62%N]
    /\ none (is_char 62) Y = true /\ (sl = [] \/ sl = [47%N]).

(** The three style sheets that are deleted: position of the call, marker,
    whether text may stand between the scheme and the marker, and the end
    of the URL. *)
Definition link_rules : list (nat * jsstring * bool * jsstring) :=
  [ (5, codes "font-awesome", true, []);
    (6, codes "katex", true, []);
    (7, codes "esm.sh/react-pdf", false, codes ".css") ].

(** The expression of the URL of a row. *)
Definition link_url_re (m : jsstring) (free : bool) (e : jsstring) : list regex :=
  scheme ++ (if free then [Star notq] else []) ++ lits m ++ [Star notq] ++ lits e.

(** *** Documents and their rewrites *)

(** [rewritten shape s out]: [out] is [s] with some spans, one after the
    other and none of them empty, replaced; [shape m r] relates a span [m]
    to the text [r] that stands for it in [out].  The code units outside
    the spans are kept in their order. *)
Inductive rewritten (shape : jsstring -> jsstring -> Prop)
  : jsstring -> jsstring -> Prop :=
| rewritten_nil : rewritten shape [] []
| rewritten_keep (x : N) (s out : jsstring) :
    rewritten shape s out -> rewritten shape (x :: s) (x :: out)
| rewritten_span (m r s out : jsstring) :
    m <> [] -> shape m r -> rewritten shape s out ->
    rewritten shape (m ++ s) (r ++ out).

(** The spans a link rule deletes: spaces and tabs, the tag name, white
    space, attribute text without [>], [href] with a quoted absolute URL
    that holds the marker [m], attribute text without [>], an optional
    slash, the closing [>], and white space. *)
Definition link_span (m w : jsstring) : Prop :=
  exists bl o x X Pq u Y sl tr,
    w = bl ++ o ++ [x] ++ X ++ Pq ++ [34%N] ++ u ++ [34%N] ++ Y ++ sl
        ++ [62%N] ++ tr
    /\ all is_blank bl = true /\ same true (codes "<link") o = true
    /\ isWhiteSpace x = true /\ none (is_char 62) X = true
    /\ attr_eq (codes "href") Pq
    /\ none (is_char 34) u = true /\ url_start u /\ occurs true m u = true
    /\ none (is_char 62) Y = true /\ (sl = [] \/ sl = [47%N])
    /\ all isWhiteSpace tr = true.

(** *** Escaping a file name *)

(** The fourteen characters of the class in [escapeFile]:
    [. * + ? ^ $ { } ( ) | [ ] \]. *)
Definition special_chars : jsstring :=
  [46; 42; 43; 63; 94; 36; 123; 125; 40; 41; 124; 91; 93; 92]%N.

Definition is_special (c : N) : bool :=
  existsb (fun a => (a =? c)%N) special_chars.

(** The string with a backslash before each of these characters. *)
Definition escaped (f : jsstring) : jsstring :=
  flat_map (fun c => if is_special c then [92%N; c] else [c]) f.

(** The tree of the class. *)
Definition escape_tree : regex :=
  Seq (Atom (Cls false (map CChar special_chars))) Eps.

(** A code unit after which a term of the pattern is complete: none of
    the quantifiers [*], [+], [?]. *)
Definition is_quant (c : N) : bool := ((c =? 42) || (c =? 43) || (c =? 63))%N.

(** The terms of a theme expression before the file name. *)
Definition theme_prefix : list regex :=
  attr_eq_re (codes "href") ++ [Atom (Chr 34)] ++ scheme ++ [Star notq].

(** No text of the theme expression of [file] stands in [x]. *)
Definition no_theme_text (file x : jsstring) : Prop :=
  forall a w z, x = a ++ w ++ z -> ~ theme_text file w.

(** One turn of the theme loop, with the expression as a tree. *)
Definition theme_step (x : jsstring) (entry : jsstring * jsstring) : jsstring :=
  replace_from (mkRegExp (theme_tree (fst entry)) true)
    (theme_tmpl (snd entry)) 0 x.

(** *** Documents that differ in case only *)

(** Captures that differ in case only. *)
Definition same_caps (c c' : captures) : Prop :=
  Forall2 (fun p q => fst p = fst q /\ same true (snd p) (snd q) = true) c c'.

Definition same_state (st st' : mstate) : Prop :=
  same true (fst st) (fst st') = true /\ same_caps (snd st) (snd st').

(** Two results of the matcher that agree up to case. *)
Definition same_result (o o' : option mstate) : Prop :=
  match o, o' with
  | None, None => True
  | Some a, Some b => same_state a b
  | _, _ => False
  end.

(** Two results of the function that agree up to case. *)
Definition same_output (o o' : option jsstring) : Prop :=
  match o, o' with
  | None, None => True
  | Some a, Some b => same true a b = true
  | _, _ => False
  end.

(** The calls whose expressions carry the [i] flag: all but the three on
    comments. *)
Definition steps_i : list (option RegExp * jsstring) := firstn 12 steps.

(** [replaced keep shape s out]: the reading of [rewritten] that knows
    the text after each place.  A code unit is kept where [keep] holds
    of the text that starts with it; [shape m rest r] relates a span [m]
    that is followed by [rest] to the text [r] that stands for it. *)
Inductive replaced (keep : jsstring -> Prop)
  (shape : jsstring -> jsstring -> jsstring -> Prop)
  : jsstring -> jsstring -> Prop :=
| replaced_nil : replaced keep shape [] []
| replaced_keep (x : N) (s out : jsstring) :
    keep (x :: s) -> replaced keep shape s out ->
    replaced keep shape (x :: s) (x :: out)
| replaced_span (m r s out : jsstring) :
    m <> [] -> shape m s r -> replaced keep shape s out ->
    replaced keep shape (m ++ s) (r ++ out).

(** The calls before the [k]-th leave the document as it is. *)
Definition idle_before (k : nat) (s : jsstring) : Prop :=
  run (firstn k steps) s = Some s.


(** *** Documents with a theme link *)








(** * Properties of the matcher *)

Section Matcher.

Variable ic : bool.

Lemma star_greedy_ext (p : N -> bool) (k1 k2 : jsstring -> option mstate) :
  (forall x, k1 x = k2 x) ->
  forall s, star_greedy p k1 s = star_greedy p k2 s.
Proof.
  intros Hk s; induction s as [|x s IH]; simpl; [apply Hk|].
  rewrite IH, Hk; reflexivity.
Qed.

Lemma star_lazy_ext (p : N -> bool) (k1 k2 : jsstring -> option mstate) :
  (forall x, k1 x = k2 x) ->
  forall s, star_lazy p k1 s = star_lazy p k2 s.
Proof.
  intros Hk s; induction s as [|x s IH]; simpl; rewrite Hk; [reflexivity|].
  rewrite IH; reflexivity.
Qed.

(** The matcher depends on its continuation only through its values. *)
Lemma matcher_ext (r : regex) :
  forall (k1 k2 : cont) (st : mstate),
    (forall x, k1 x = k2 x) -> matcher ic r k1 st = matcher ic r k2 st.
Proof.
  induction r as [|a|a|a|a|a|r1 IH1 r2 IH2|n r IH]; intros k1 k2 [s c] Hk; simpl.
  - apply Hk.
  - destruct s as [|x s]; [reflexivity|]; rewrite Hk; reflexivity.
  - apply star_greedy_ext; intros; apply Hk.
  - apply star_lazy_ext; intros; apply Hk.
  - destruct s as [|x s]; [reflexivity|].
    destruct (atom_match ic a x); [|reflexivity].
    apply star_greedy_ext; intros; apply Hk.
  - destruct s as [|x s]; [apply Hk|]; rewrite !Hk; reflexivity.
  - apply IH1; intros st'; apply IH2; exact Hk.
  - apply IH; intros st'; apply Hk.
Qed.

Lemma matcher_seqs_app (l1 l2 : list regex) (k : cont) (st : mstate) :
  matcher ic (seqs (l1 ++ l2)) k st
  = matcher ic (seqs l1) (matcher ic (seqs l2) k) st.
Proof.
  revert k st; induction l1 as [|t l1 IH]; intros k st; simpl; [reflexivity|].
  apply matcher_ext; intros x; apply IH.
Qed.

(** ** Soundness: a successful match read off the input is a text of the
    expression *)

Lemma star_greedy_sound (p : N -> bool) (k : jsstring -> option mstate) :
  forall s res, star_greedy p k s = Some res ->
    exists w s', s = w ++ s' /\ forallb p w = true /\ k s' = Some res.
Proof.
  induction s as [|x s IH]; intros res H; simpl in H.
  - exists [], []; auto.
  - destruct (p x) eqn:Hp.
    + destruct (star_greedy p k s) as [r|] eqn:Hs.
      * inversion H; subst r.
        destruct (IH _ eq_refl) as (w & s' & -> & Hw & Hk).
        exists (x :: w), s'; simpl; rewrite Hp, Hw; auto.
      * exists [], (x :: s); auto.
    + exists [], (x :: s); auto.
Qed.

Lemma star_lazy_sound (p : N -> bool) (k : jsstring -> option mstate) :
  forall s res, star_lazy p k s = Some res ->
    exists w s', s = w ++ s' /\ forallb p w = true /\ k s' = Some res.
Proof.
  induction s as [|x s IH]; intros res H; simpl in H.
  - destruct (k []) eqn:Hk; [|discriminate].
    inversion H; subst. exists [], []; auto.
  - destruct (k (x :: s)) eqn:Hk.
    + inversion H; subst. exists [], (x :: s); auto.
    + destruct (p x) eqn:Hp; [|discriminate].
      destruct (IH _ H) as (w & s' & -> & Hw & Hk').
      exists (x :: w), s'; simpl; rewrite Hp, Hw; auto.
Qed.

Lemma firstn_app_length_diff (w s' : jsstring) :
  firstn (List.length (w ++ s') - List.length s') (w ++ s') = w.
Proof.
  rewrite length_app, Nat.add_sub.
  rewrite firstn_app, Nat.sub_diag, firstn_all; simpl; apply app_nil_r.
Qed.

Lemma matcher_sound (r : regex) :
  forall (k : cont) s c res, matcher ic r k (s, c) = Some res ->
    exists w s' c', s = w ++ s' /\ sem ic r w c c' /\ k (s', c') = Some res.
Proof.
  induction r as [|a|a|a|a|a|r1 IH1 r2 IH2|n r IH]; intros k s c res H; simpl in H.
  - exists [], s, c; simpl; auto.
  - destruct s as [|x s]; [discriminate|].
    destruct (atom_match ic a x) eqn:Ha; [|discriminate].
    exists [x], s, c; simpl; repeat split; eauto.
  - apply star_greedy_sound in H; destruct H as (w & s' & -> & Hw & Hk).
    exists w, s', c; simpl; auto.
  - apply star_lazy_sound in H; destruct H as (w & s' & -> & Hw & Hk).
    exists w, s', c; simpl; auto.
  - destruct s as [|x s]; [discriminate|].
    destruct (atom_match ic a x) eqn:Ha; [|discriminate].
    apply star_greedy_sound in H; destruct H as (w & s' & -> & Hw & Hk).
    exists (x :: w), s', c; simpl; rewrite Ha, Hw; repeat split; auto; discriminate.
  - destruct s as [|x s].
    + exists [], [], c; simpl; auto.
    + destruct (atom_match ic a x) eqn:Ha.
      * destruct (k (s, c)) eqn:Hk.
        -- inversion H; subst. exists [x], s, c; simpl; repeat split; eauto.
        -- exists [], (x :: s), c; simpl; auto.
      * exists [], (x :: s), c; simpl; auto.
  - apply IH1 in H; destruct H as (w1 & s1 & c1 & -> & H1 & H).
    apply IH2 in H; destruct H as (w2 & s2 & c2 & -> & H2 & H).
    exists (w1 ++ w2), s2, c2; rewrite app_assoc; repeat split; auto.
    simpl; exists w1, w2, c1; auto.
  - apply IH in H; destruct H as (w & s' & c1 & -> & H1 & H); simpl in H.
    rewrite firstn_app_length_diff in H.
    exists w, s', ((n, w) :: c1); repeat split; auto.
    simpl; exists c1; auto.
Qed.

(** ** Completeness: when the expression has a text at the front of the
    input after which the continuation succeeds, the matcher succeeds *)

Lemma star_greedy_complete (p : N -> bool) (k : jsstring -> option mstate) :
  forall w s', forallb p w = true -> k s' <> None ->
    star_greedy p k (w ++ s') <> None.
Proof.
  induction w as [|x w IH]; intros s' Hw Hk; simpl.
  - destruct s' as [|y s']; simpl; [exact Hk|].
    destruct (p y); [|exact Hk].
    destruct (star_greedy p k s'); [discriminate|exact Hk].
  - simpl in Hw; apply andb_prop in Hw; destruct Hw as [Hx Hw]; rewrite Hx.
    specialize (IH s' Hw Hk).
    destruct (star_greedy p k (w ++ s')); [discriminate|contradiction].
Qed.

Lemma star_lazy_complete (p : N -> bool) (k : jsstring -> option mstate) :
  forall w s', forallb p w = true -> k s' <> None ->
    star_lazy p k (w ++ s') <> None.
Proof.
  induction w as [|x w IH]; intros s' Hw Hk; simpl.
  - destruct s' as [|y s']; simpl; destruct (k _); try discriminate; contradiction.
  - simpl in Hw; apply andb_prop in Hw; destruct Hw as [Hx Hw]; rewrite Hx.
    destruct (k (x :: w ++ s')); [discriminate|]. apply IH; auto.
Qed.

Lemma matcher_complete (r : regex) :
  forall w c c' (k : cont) s', sem ic r w c c' -> k (s', c') <> None ->
    matcher ic r k (w ++ s', c) <> None.
Proof.
  induction r as [|a|a|a|a|a|r1 IH1 r2 IH2|n r IH]; intros w c c' k s' H Hk; simpl in H.
  - destruct H as [-> ->]; exact Hk.
  - destruct H as [(x & -> & Ha) ->]; simpl; rewrite Ha; exact Hk.
  - destruct H as [Hw ->]; simpl. apply star_greedy_complete; auto.
  - destruct H as [Hw ->]; simpl. apply star_lazy_complete; auto.
  - destruct H as [[Hne Hw] ->]. destruct w as [|x w]; [contradiction|]; simpl in *.
    apply andb_prop in Hw; destruct Hw as [Hx Hw]; rewrite Hx.
    apply star_greedy_complete; auto.
  - destruct H as [[-> | (x & -> & Ha)] ->]; simpl.
    + destruct s' as [|y s']; [exact Hk|].
      destruct (atom_match ic a y); [|exact Hk].
      destruct (k (s', c)); [discriminate|exact Hk].
    + rewrite Ha.
      match goal with
      | |- match ?t with _ => _ end <> None => destruct t eqn:E
      end; [discriminate|exfalso; apply Hk; exact E].
  - destruct H as (w1 & w2 & c1 & -> & H1 & H2); simpl.
    rewrite <- app_assoc. eapply IH1; eauto.
  - destruct H as (c1 & H1 & ->); simpl.
    eapply IH; eauto. simpl. rewrite firstn_app_length_diff. exact Hk.
Qed.

End Matcher.

Lemma exec_at_sound (R : RegExp) (s s' : jsstring) (c : captures) :
  exec_at R s = Some (s', c) ->
  exists w, s = w ++ s' /\ sem (re_ignoreCase R) (re_tree R) w [] c.
Proof.
  unfold exec_at; intros H; apply matcher_sound in H.
  destruct H as (w & s1 & c1 & -> & Hs & Hk); inversion Hk; subst; eauto.
Qed.

Lemma exec_at_complete (R : RegExp) (w s' : jsstring) (c : captures) :
  sem (re_ignoreCase R) (re_tree R) w [] c -> exec_at R (w ++ s') <> None.
Proof.
  unfold exec_at; intros H; eapply matcher_complete; eauto; discriminate.
Qed.

(** * Properties of the replace loop *)

Section ReplaceLoop.

Variable R : RegExp.
Variable tmpl : jsstring.

Lemma replace_from_skip :
  forall n s, n <= List.length s ->
    replace_from R tmpl n s = replace_from R tmpl 0 (skipn n s).
Proof.
  induction n as [|n IH]; intros s Hn; [reflexivity|].
  destruct s as [|x s]; simpl in Hn; [lia|].
  simpl skipn. rewrite <- IH by lia. reflexivity.
Qed.

(** A position where the expression does not match is copied. *)
Lemma replace_step_none (x : N) (s : jsstring) :
  exec_at R (x :: s) = None ->
  replace_from R tmpl 0 (x :: s) = x :: replace_from R tmpl 0 s.
Proof. intros H; simpl; rewrite H; reflexivity. Qed.

(** A position where the expression matches a text that is not empty:
    the substitution is emitted and the loop goes on after the match. *)
Lemma replace_step_match (m rest : jsstring) (caps : captures) :
  m <> [] -> exec_at R (m ++ rest) = Some (rest, caps) ->
  replace_from R tmpl 0 (m ++ rest)
  = substitute tmpl m caps ++ replace_from R tmpl 0 rest.
Proof.
  intros Hm H. destruct m as [|x m]; [contradiction|].
  change ((x :: m) ++ rest) with (x :: (m ++ rest)) in *.
  cbn [replace_from]. rewrite H.
  change (x :: m ++ rest) with ((x :: m) ++ rest).
  rewrite firstn_app_length_diff.
  rewrite length_app, Nat.add_sub. cbn [List.length].
  rewrite replace_from_skip by (rewrite length_app; lia).
  rewrite skipn_app, Nat.sub_diag, skipn_all; reflexivity.
Qed.

(** No match starts inside [pre]: [pre] is copied. *)
Lemma replace_prefix_none (rest : jsstring) :
  forall pre,
    (forall a b, pre = a ++ b -> b <> [] -> exec_at R (b ++ rest) = None) ->
    replace_from R tmpl 0 (pre ++ rest) = pre ++ replace_from R tmpl 0 rest.
Proof.
  induction pre as [|x pre IH]; intros H; [reflexivity|].
  change ((x :: pre) ++ rest) with (x :: (pre ++ rest)).
  rewrite replace_step_none.
  - rewrite IH; [reflexivity|].
    intros a b -> Hb. apply (H (x :: a) b); [reflexivity|exact Hb].
  - apply (H [] (x :: pre)); [reflexivity|discriminate].
Qed.

(** No match anywhere: the string is returned unchanged. *)
Lemma replace_none (s : jsstring) :
  (forall a b, s = a ++ b -> exec_at R b = None) ->
  replace_from R tmpl 0 s = s.
Proof.
  intros H.
  rewrite <- (app_nil_r s) at 1.
  rewrite replace_prefix_none.
  - simpl. rewrite (H s []) by (symmetry; apply app_nil_r).
    apply app_nil_r.
  - intros a b -> _. rewrite app_nil_r. apply (H a b); reflexivity.
Qed.

End ReplaceLoop.

(** * Texts that every match contains *)

Section Occurs.

Variable ic : bool.

Lemma starts_with_app (p w s : jsstring) :
  starts_with ic p w = true -> starts_with ic p (w ++ s) = true.
Proof.
  revert w; induction p as [|a p IH]; intros w H; [reflexivity|].
  destruct w as [|x w]; simpl in *; [discriminate|].
  apply andb_prop in H; destruct H as [H1 H2]; rewrite H1, IH; auto.
Qed.

Lemma occurs_app_r (p w s : jsstring) :
  occurs ic p w = true -> occurs ic p (w ++ s) = true.
Proof.
  induction w as [|x w IH]; intros H.
  - simpl in H. rewrite orb_false_r in H.
    destruct p; [destruct s; reflexivity | discriminate].
  - simpl in *. apply orb_prop in H; destruct H as [H|H].
    + change (x :: w ++ s) with ((x :: w) ++ s).
      rewrite starts_with_app; auto.
    + rewrite IH; auto; apply orb_true_r.
Qed.

Lemma occurs_app_l (p a s : jsstring) :
  occurs ic p s = true -> occurs ic p (a ++ s) = true.
Proof.
  induction a as [|x a IH]; intros H; [exact H|].
  simpl. rewrite IH; auto; apply orb_true_r.
Qed.

Lemma occurs_of_starts_with (p s : jsstring) :
  starts_with ic p s = true -> occurs ic p s = true.
Proof. intros H; destruct s; simpl in *; rewrite H; reflexivity. Qed.

Lemma lit_prefix_sem (m : jsstring) :
  forall r w c c', lit_prefix m r = true -> sem ic r w c c' ->
    starts_with ic m w = true.
Proof.
  induction m as [|a m IH]; intros r w c c' Hl Hs; [reflexivity|].
  simpl in Hl.
  destruct r as [| | | | | |r1 r2|]; try discriminate.
  destruct r1 as [|[b|]| | | | | |]; try discriminate.
  apply andb_prop in Hl; destruct Hl as [Hab Hl].
  apply N.eqb_eq in Hab; subst b.
  simpl in Hs. destruct Hs as (w1 & w2 & c1 & -> & [(x & -> & Hx) _] & H2).
  simpl in *. unfold cieq. rewrite Hx. eapply IH; eauto.
Qed.

Lemma requires_sem (m : jsstring) (r : regex) :
  forall w c c', requires m r = true -> sem ic r w c c' ->
    occurs ic m w = true.
Proof.
  induction r as [|a|a|a|a|a|r1 IH1 r2 IH2|n r IH]; intros w c c' Hr Hs;
    simpl in Hr; apply orb_prop in Hr; destruct Hr as [Hr|Hr];
    try discriminate;
    try (apply occurs_of_starts_with; eapply lit_prefix_sem; eauto; fail).
  - simpl in Hs; destruct Hs as (w1 & w2 & c1 & -> & H1 & H2).
    apply orb_prop in Hr; destruct Hr as [Hr|Hr].
    + apply occurs_app_r; eauto.
    + apply occurs_app_l; eauto.
  - simpl in Hs; destruct Hs as (c1 & H1 & _); eauto.
Qed.

End Occurs.

(** An expression that requires a text which the string does not contain
    matches nowhere in it. *)
Lemma exec_at_absent (R : RegExp) (m s : jsstring) :
  requires m (re_tree R) = true ->
  occurs (re_ignoreCase R) m s = false ->
  forall a b, s = a ++ b -> exec_at R b = None.
Proof.
  intros Hr Ho a b ->.
  destruct (exec_at R b) as [[s' c]|] eqn:E; [|reflexivity].
  apply exec_at_sound in E; destruct E as (w & -> & Hs).
  rewrite occurs_app_l in Ho; [discriminate|].
  apply occurs_app_r. eapply requires_sem; eauto.
Qed.

Lemma replace_absent (ic : bool) (m : jsstring) (Ro : option RegExp)
  (tmpl s : jsstring) :
  requires_in ic m Ro = true -> occurs ic m s = false ->
  replace Ro tmpl s = Some s.
Proof.
  destruct Ro as [R|]; simpl; [|discriminate].
  intros H Ho; apply andb_prop in H; destruct H as [Hr Hi].
  apply Bool.eqb_prop in Hi; subst ic.
  rewrite replace_none; [reflexivity|].
  eapply exec_at_absent; eauto.
Qed.

(** * The mode gate *)

(** C1. When [TAURI_PLATFORM] is undefined the plugin returns the document
    it was given, for every document. *)
Theorem transformIndexHtml_unset (html : jsstring) :
  transformIndexHtml None html = Some html.
Proof. reflexivity. Qed.

(** * Documents without markers *)

(** Every pattern of the file parses, so no step of the pipeline throws. *)
Lemma transformIndexHtml_total (p html : jsstring) :
  exists out, transformIndexHtml (Some p) html = Some out.
Proof.
  unfold transformIndexHtml, themeLoop, themeCssMap, themeStep, bind, fst, snd.
  repeat match goal with
  | |- context [replace ?Ro ?t ?s] =>
      let R := fresh "R" in
      let E := fresh "E" in
      destruct Ro as [R|] eqn:E; [|vm_compute in E; discriminate E];
      cbn [replace]
  end.
  eexists; reflexivity.
Qed.

Lemma forallb_cons_true (A : Type) (f : A -> bool) (x : A) (l : list A) :
  forallb f (x :: l) = true -> f x = true /\ forallb f l = true.
Proof. simpl; intros H; apply andb_prop in H; exact H. Qed.

(** Every expression requires its marker, so none matches in a document
    without markers, and a replace without a match returns its input. *)
Lemma no_marker_unchanged (p html : jsstring) :
  no_marker html = true -> transformIndexHtml (Some p) html = Some html.
Proof.
  unfold no_marker, markers, comment_markers; intros H.
  apply andb_prop in H; destruct H as [Hm Hc].
  repeat match goal with
  | H : forallb _ (_ :: _) = true |- _ =>
      apply forallb_cons_true in H;
      let H1 := fresh "M" in destruct H as [H1 H];
      apply negb_true_iff in H1
  end.
  unfold transformIndexHtml, themeLoop, themeCssMap, themeStep, fst, snd.
  rewrite (@replace_absent true (codes "cdn.tailwindcss.com")); auto. cbn [bind].
  rewrite (@replace_absent true (codes "github-markdown-dark.min.css")); auto. cbn [bind].
  rewrite (@replace_absent true (codes "github-markdown.min.css")); auto. cbn [bind].
  rewrite (@replace_absent true (codes "a11y-dark.min.css")); auto. cbn [bind].
  rewrite (@replace_absent true (codes "a11y-light.min.css")); auto. cbn [bind].
  rewrite (@replace_absent true (codes "font-awesome")); auto. cbn [bind].
  rewrite (@replace_absent true (codes "katex")); auto. cbn [bind].
  rewrite (@replace_absent true (codes "esm.sh/react-pdf")); auto. cbn [bind].
  rewrite (@replace_absent true (codes "viz.js")); auto. cbn [bind].
  rewrite (@replace_absent true (codes "full.render.js")); auto. cbn [bind].
  rewrite (@replace_absent true (codes "html2pdf")); auto. cbn [bind].
  rewrite (@replace_absent true (Q ++ codes "importmap" ++ Q)); auto. cbn [bind].
  rewrite (@replace_absent false (codes "<!-- React PDF Styles -->")); auto. cbn [bind].
  rewrite (@replace_absent false (codes "<!-- Graphviz scripts -->")); auto. cbn [bind].
  rewrite (@replace_absent false (codes "<!-- HTML2PDF -->")); auto.
Qed.

(** X4. With the flag set, no step throws, and a document in which no
    marker is present is returned as it is: every rule whose expression
    does not match returns its input. *)
Theorem transformIndexHtml_no_marker (p html : jsstring) :
  (exists out, transformIndexHtml (Some p) html = Some out)
  /\ (no_marker html = true -> transformIndexHtml (Some p) html = Some html).
Proof.
  split; [apply transformIndexHtml_total | apply no_marker_unchanged].
Qed.

(** * Strings cut at a delimiter *)

Section Cuts.

Variable P : N -> bool.

(** Two cuts of one string at a code unit: the cuts coincide, or one of
    the two code units lies in the other prefix. *)
Lemma cut_trichotomy (a b r r' : jsstring) (x y : N) :
  a ++ x :: r = b ++ y :: r' ->
  (a = b /\ x = y /\ r = r')
  \/ (exists t, b = a ++ x :: t /\ r = t ++ y :: r')
  \/ (exists t, a = b ++ y :: t /\ r' = t ++ x :: r).
Proof.
  revert b; induction a as [|z a IH]; intros b H.
  - destruct b as [|z b]; simpl in H; inversion H; subst; [auto|].
    right; left; exists b; auto.
  - destruct b as [|z' b]; simpl in H; inversion H; subst.
    + right; right; exists a; auto.
    + destruct (IH _ H2) as [(-> & -> & ->) | [(t & -> & ->) | (t & -> & ->)]];
        [left; auto | right; left; exists t; auto | right; right; exists t; auto].
Qed.

Lemma none_app (a b : jsstring) :
  none P (a ++ b) = none P a && none P b.
Proof. unfold none; apply forallb_app. Qed.

Lemma none_cons (x : N) (a : jsstring) :
  none P (x :: a) = negb (P x) && none P a.
Proof. reflexivity. Qed.

Lemma none_hit (a t : jsstring) (x : N) :
  none P (a ++ x :: t) = true -> P x = true -> False.
Proof.
  rewrite none_app, none_cons; intros H Hx; rewrite Hx in H.
  simpl in H; rewrite andb_false_r in H; discriminate.
Qed.

(** Both cuts are at the first code unit with [P]. *)
Lemma first_hit (a b r r' : jsstring) (x y : N) :
  a ++ x :: r = b ++ y :: r' ->
  none P a = true -> P x = true -> none P b = true -> P y = true ->
  a = b /\ x = y /\ r = r'.
Proof.
  intros H Ha Hx Hb Hy.
  destruct (cut_trichotomy _ _ _ _ _ _ H) as [? | [(t & -> & _) | (t & -> & _)]];
    [assumption | exfalso; eapply none_hit; eauto ..].
Qed.

(** A prefix without [P] ends before a code unit with [P]. *)
Lemma prefix_before_hit (a r b r' : jsstring) (x : N) :
  a ++ x :: r = b ++ r' -> none P b = true -> P x = true ->
  exists t, a = b ++ t /\ r' = t ++ x :: r.
Proof.
  intros H Hb Hx. symmetry in H. apply app_eq_app in H.
  destruct H as (l & [[E1 E2] | [E1 E2]]).
  - destruct l as [|y l]; simpl in E2.
    + exists []; subst; rewrite !app_nil_r; auto.
    + exfalso. inversion E2; subst. eapply none_hit; eauto.
  - exists l; auto.
Qed.

End Cuts.

(** * Case folding *)

Definition is_alpha (c : N) : bool :=
  ((65 <=? c) && (c <=? 90) || (97 <=? c) && (c <=? 122))%N.

Lemma canonicalize_nonalpha (ic : bool) (c : N) :
  is_alpha c = false -> canonicalize ic c = c.
Proof.
  unfold is_alpha, canonicalize; intros H.
  apply orb_false_iff in H; destruct H as [_ H].
  destruct ic; simpl; [|reflexivity].
  rewrite H; reflexivity.
Qed.

Lemma canonicalize_alpha (ic : bool) (c : N) :
  is_alpha (canonicalize ic c) = is_alpha c.
Proof.
  unfold canonicalize.
  destruct (ic && (97 <=? c)%N && (c <=? 122)%N) eqn:E; [|reflexivity].
  apply andb_prop in E; destruct E as [E E2].
  apply andb_prop in E; destruct E as [_ E1].
  unfold is_alpha. rewrite E1, E2.
  apply N.leb_le in E1, E2.
  replace ((65 <=? c - 32)%N) with true by (symmetry; apply N.leb_le; lia).
  replace ((c - 32 <=? 90)%N) with true by (symmetry; apply N.leb_le; lia).
  simpl. symmetry; apply orb_true_r.
Qed.

(** A code unit that is not a letter is matched by itself only. *)
Lemma cieq_nonalpha (ic : bool) (p x : N) :
  is_alpha p = false -> cieq ic p x = true -> x = p.
Proof.
  unfold cieq; intros Hp H. apply N.eqb_eq in H.
  rewrite (canonicalize_nonalpha ic p Hp) in H.
  assert (Hx : is_alpha x = false).
  { rewrite <- (canonicalize_alpha ic x), <- H; exact Hp. }
  rewrite (canonicalize_nonalpha ic x Hx) in H; auto.
Qed.

Lemma cieq_alpha (ic : bool) (p x : N) :
  cieq ic p x = true -> is_alpha x = is_alpha p.
Proof.
  unfold cieq; intros H; apply N.eqb_eq in H.
  rewrite <- (canonicalize_alpha ic x), <- H. apply canonicalize_alpha.
Qed.

(** Letters are not white space. *)
Lemma alpha_not_ws (z : N) : is_alpha z = true -> isWhiteSpace z = false.
Proof.
  intros H.
  assert (Hz : (65 <= z <= 122)%N).
  { unfold is_alpha in H. apply orb_prop in H.
    destruct H as [H|H]; apply andb_prop in H; destruct H as [H1 H2];
      apply N.leb_le in H1, H2; lia. }
  unfold isWhiteSpace.
  replace ((z <=? 13)%N) with false by (symmetry; apply N.leb_gt; lia).
  replace ((8192 <=? z)%N) with false by (symmetry; apply N.leb_gt; lia).
  repeat match goal with
  | |- context [(z =? ?b)%N] =>
      replace ((z =? b)%N) with false by (symmetry; apply N.eqb_neq; lia)
  end.
  rewrite andb_false_r. reflexivity.
Qed.

Lemma cieq_refl (ic : bool) (x : N) : cieq ic x x = true.
Proof. apply N.eqb_refl. Qed.

Lemma same_refl (ic : bool) (p : jsstring) : same ic p p = true.
Proof. induction p; simpl; [|rewrite cieq_refl]; auto. Qed.

Lemma same_length (ic : bool) (p w : jsstring) :
  same ic p w = true -> List.length w = List.length p.
Proof.
  revert w; induction p as [|a p IH]; intros [|x w] H; simpl in *;
    try discriminate; auto.
  apply andb_prop in H; destruct H; f_equal; auto.
Qed.

Lemma same_starts_with (ic : bool) (p w s : jsstring) :
  same ic p w = true -> starts_with ic p (w ++ s) = true.
Proof.
  revert w; induction p as [|a p IH]; intros [|x w] H; simpl in *;
    try discriminate; auto.
  apply andb_prop in H; destruct H as [H1 H2]; rewrite H1; simpl; auto.
Qed.


(** An occurrence, exhibited. *)
Lemma occurs_intro (ic : bool) (p a m b : jsstring) :
  same ic p m = true -> occurs ic p (a ++ m ++ b) = true.
Proof.
  intros H. apply occurs_app_l, occurs_of_starts_with, same_starts_with, H.
Qed.


(** A text whose characters are not letters and differ from [c] is matched
    by texts without [c] only; likewise for letters and a [c] that is not a
    letter. *)
Lemma same_none_char (ic : bool) (c : N) (p w : jsstring) :
  is_alpha c = false -> none (is_char c) p = true -> same ic p w = true ->
  none (is_char c) w = true.
Proof.
  intros Hc; revert w; induction p as [|a p IH]; intros [|x w] Hp H;
    simpl in *; try discriminate; auto.
  apply andb_prop in H; destruct H as [H1 H2].
  apply andb_prop in Hp; destruct Hp as [Hp1 Hp2].
  rewrite (IH _ Hp2 H2), andb_true_r.
  unfold is_char in *. apply negb_true_iff in Hp1. apply negb_true_iff.
  apply N.eqb_neq in Hp1. apply N.eqb_neq. intros ->.
  destruct (is_alpha a) eqn:Ea.
  - apply cieq_alpha in H1. congruence.
  - apply cieq_nonalpha in H1; auto.
Qed.

(** * From the texts of an expression to the result of the matcher *)

Section Determined.

Variable ic : bool.

(** When every text of [r] at the front of [s] leaves the same rest and
    captures, the matcher continues with exactly these. *)
Lemma matcher_unique (r : regex) (k : cont) (s s0 : jsstring) (c c0 : captures) :
  (forall w s' c', s = w ++ s' -> sem ic r w c c' -> s' = s0 /\ c' = c0) ->
  (exists w, s = w ++ s0 /\ sem ic r w c c0) ->
  matcher ic r k (s, c) = k (s0, c0).
Proof.
  intros Hu (w & -> & Hw).
  match goal with |- ?lhs = _ => remember lhs as o eqn:E end. symmetry in E.
  destruct o as [res|].
  - apply matcher_sound in E; destruct E as (w1 & s1 & c1 & E1 & Hs & Hk).
    destruct (Hu _ _ _ E1 Hs) as [-> ->]. symmetry; exact Hk.
  - match goal with |- _ = ?rhs => remember rhs as o eqn:Ek end. symmetry in Ek.
    destruct o as [res|]; [|reflexivity].
    exfalso. eapply (matcher_complete ic r); [exact Hw | | exact E].
    rewrite Ek; discriminate.
Qed.

Lemma matcher_none (r : regex) (k : cont) (s : jsstring) (c : captures) :
  (forall w s' c', s = w ++ s' -> sem ic r w c c' -> False) ->
  matcher ic r k (s, c) = None.
Proof.
  intros Hn.
  match goal with |- ?lhs = _ => remember lhs as o eqn:E end. symmetry in E.
  destruct o as [res|]; [|reflexivity].
  apply matcher_sound in E; destruct E as (w1 & s1 & c1 & E1 & Hs & _).
  exfalso; eauto.
Qed.

(** ** Sequences *)

Lemma sem_seqs_app (l1 l2 : list regex) (w : jsstring) (c c' : captures) :
  sem ic (seqs (l1 ++ l2)) w c c'
  <-> exists w1 w2 c1, w = w1 ++ w2
        /\ sem ic (seqs l1) w1 c c1 /\ sem ic (seqs l2) w2 c1 c'.
Proof.
  revert w c; induction l1 as [|t l1 IH]; intros w c; simpl.
  - split.
    + intros H; exists [], w, c; auto.
    + intros (w1 & w2 & c1 & -> & [-> ->] & H); exact H.
  - split.
    + intros (w1 & w2 & c1 & -> & H1 & H2).
      apply IH in H2; destruct H2 as (w3 & w4 & c2 & -> & H3 & H4).
      exists (w1 ++ w3), w4, c2; rewrite app_assoc; repeat split; auto.
      exists w1, w3, c1; auto.
    + intros (w1 & w2 & c1 & -> & (w3 & w4 & c2 & -> & H3 & H4) & H2).
      exists w3, (w4 ++ w2), c2; rewrite app_assoc; repeat split; auto.
      apply IH; exists w4, w2, c1; auto.
Qed.

Lemma sem_seqs_one (t : regex) (w : jsstring) (c c' : captures) :
  sem ic (seqs [t]) w c c' <-> sem ic t w c c'.
Proof.
  simpl; split.
  - intros (w1 & w2 & c1 & -> & H & [-> ->]); rewrite app_nil_r; exact H.
  - intros H; exists w, [], c'; rewrite app_nil_r; auto.
Qed.

Lemma sem_seqs_cons (t : regex) (l : list regex) (w : jsstring) (c c' : captures) :
  sem ic (seqs (t :: l)) w c c'
  <-> exists w1 w2 c1, w = w1 ++ w2
        /\ sem ic t w1 c c1 /\ sem ic (seqs l) w2 c1 c'.
Proof. reflexivity. Qed.

Lemma sem_lits (m w : jsstring) (c c' : captures) :
  sem ic (seqs (lits m)) w c c' <-> same ic m w = true /\ c' = c.
Proof.
  revert w; induction m as [|a m IH]; intros w; simpl.
  - split; [intros [-> ->]; auto | intros [H ->]; destruct w; [auto|discriminate]].
  - split.
    + intros (w1 & w2 & c1 & -> & [(x & -> & Hx) ->] & H).
      apply IH in H; destruct H as [H ->]; simpl.
      unfold cieq; simpl in Hx; rewrite Hx, H; auto.
    + intros [H ->]. destruct w as [|x w]; [discriminate|].
      apply andb_prop in H; destruct H as [H1 H2].
      exists [x], w, c; repeat split; eauto.
      apply IH; auto.
Qed.

Lemma sem_groupless (r : regex) :
  groupless r = true ->
  forall w c c', sem ic r w c c' -> c' = c /\ forall d, sem ic r w d d.
Proof.
  induction r as [|a|a|a|a|a|r1 IH1 r2 IH2|n r IH]; simpl; intros G w c c' H;
    try discriminate;
    try (destruct H as [H ->]; split; [reflexivity | intros d; auto]; fail).
  apply andb_prop in G; destruct G as [G1 G2].
  destruct H as (w1 & w2 & c1 & -> & H1 & H2).
  destruct (IH1 G1 _ _ _ H1) as [-> K1].
  destruct (IH2 G2 _ _ _ H2) as [-> K2].
  split; [reflexivity|]. intros d; exists w1, w2, d; auto.
Qed.

Lemma groupless_seqs (l : list regex) :
  forallb groupless l = true -> groupless (seqs l) = true.
Proof.
  induction l as [|t l IH]; simpl; intros H; [reflexivity|].
  apply andb_prop in H; destruct H as [H1 H2]; rewrite H1; auto.
Qed.

(** ** Classes *)

Lemma forallb_ext (f g : N -> bool) (l : jsstring) :
  (forall x, f x = g x) -> forallb f l = forallb g l.
Proof. intros H; induction l as [|x l IH]; simpl; [|rewrite H, IH]; auto. Qed.

Lemma atom_match_ws (x : N) : atom_match ic ws x = isWhiteSpace x.
Proof. simpl. apply orb_false_r. Qed.

Lemma atom_match_chr (p x : N) : atom_match ic (Chr p) x = cieq ic p x.
Proof. reflexivity. Qed.

Lemma atom_match_not (c x : N) :
  is_alpha c = false ->
  atom_match ic (Cls true [CChar c]) x = negb (is_char c x).
Proof.
  intros Hc; simpl. rewrite orb_false_r. unfold is_char.
  destruct (canonicalize ic c =? canonicalize ic x)%N eqn:E; simpl.
  - apply (cieq_nonalpha ic c x Hc) in E. subst. rewrite N.eqb_refl; reflexivity.
  - destruct (x =? c)%N eqn:E'; [|reflexivity].
    apply N.eqb_eq in E'; subst. rewrite N.eqb_refl in E; discriminate.
Qed.

Lemma all_notgt (w : jsstring) :
  forallb (atom_match ic notgt) w = none (is_char 62) w.
Proof.
  unfold none. apply forallb_ext. intros x. apply (atom_match_not 62 x); reflexivity.
Qed.

Lemma all_notq (w : jsstring) :
  forallb (atom_match ic notq) w = none (is_char 34) w.
Proof.
  unfold none. apply forallb_ext. intros x. apply (atom_match_not 34 x); reflexivity.
Qed.

Lemma all_ws (w : jsstring) :
  forallb (atom_match ic ws) w = all isWhiteSpace w.
Proof. unfold all. apply forallb_ext. intros x. apply atom_match_ws. Qed.

Lemma atom_match_blank (x : N) : atom_match ic blank x = is_blank x.
Proof.
  simpl. rewrite orb_false_r. unfold is_blank.
  rewrite !(canonicalize_nonalpha ic 32), !(canonicalize_nonalpha ic 9) by reflexivity.
  destruct (is_alpha x) eqn:Ex.
  - assert (H : forall p, is_alpha p = false -> (p =? canonicalize ic x)%N = false /\ (x =? p)%N = false).
    { intros p Hp; split; apply N.eqb_neq; intros E; subst p.
      - rewrite canonicalize_alpha in Hp; congruence.
      - congruence. }
    destruct (H 32%N eq_refl) as [-> ->]. destruct (H 9%N eq_refl) as [-> ->].
    reflexivity.
  - rewrite (canonicalize_nonalpha ic x Ex).
    rewrite (N.eqb_sym 32 x), (N.eqb_sym 9 x); reflexivity.
Qed.

Lemma all_blank (w : jsstring) :
  forallb (atom_match ic blank) w = all is_blank w.
Proof. unfold all. apply forallb_ext. intros x. apply atom_match_blank. Qed.

End Determined.

(** * The theme expressions *)

Lemma re_theme_tree (entry : jsstring * jsstring) :
  In entry themeCssMap ->
  re_theme (fst entry) = Some (mkRegExp (theme_tree (fst entry)) true)
  /\ file_ok (fst entry) = true.
Proof.
  unfold themeCssMap; simpl.
  intros [<- | [<- | [<- | [<- | []]]]]; split; vm_compute; reflexivity.
Qed.

Lemma same_cons_inv (ic : bool) (a : N) (p w : jsstring) :
  same ic (a :: p) w = true ->
  exists x w', w = x :: w' /\ cieq ic a x = true /\ same ic p w' = true.
Proof.
  destruct w as [|x w]; simpl; [discriminate|].
  intros H; apply andb_prop in H; destruct H; eauto.
Qed.

Lemma same_nil_inv (ic : bool) (w : jsstring) : same ic [] w = true -> w = [].
Proof. destruct w; [reflexivity|discriminate]. Qed.

Lemma same_app (ic : bool) (p1 p2 w1 w2 : jsstring) :
  same ic p1 w1 = true -> same ic p2 w2 = true ->
  same ic (p1 ++ p2) (w1 ++ w2) = true.
Proof.
  revert w1; induction p1 as [|a p1 IH]; intros [|x w1] H1 H2; simpl in *;
    try discriminate; auto.
  apply andb_prop in H1; destruct H1 as [-> H1]; simpl; auto.
Qed.

Lemma same_app_inv (ic : bool) (p1 p2 w : jsstring) :
  same ic (p1 ++ p2) w = true ->
  exists w1 w2, w = w1 ++ w2 /\ same ic p1 w1 = true /\ same ic p2 w2 = true.
Proof.
  revert w; induction p1 as [|a p1 IH]; intros w H; simpl in H.
  - exists [], w; auto.
  - apply same_cons_inv in H; destruct H as (x & w' & -> & Hx & H).
    destruct (IH _ H) as (w1 & w2 & -> & H1 & H2).
    exists (x :: w1), w2; simpl; rewrite Hx, H1; auto.
Qed.

Lemma all_app (p : N -> bool) (a b : jsstring) :
  all p (a ++ b) = all p a && all p b.
Proof. apply forallb_app. Qed.

Lemma all_ws_none_char (c : N) (w : jsstring) :
  isWhiteSpace c = false -> all isWhiteSpace w = true ->
  none (is_char c) w = true.
Proof.
  intros Hc; induction w as [|x w IH]; simpl; intros H; [reflexivity|].
  apply andb_prop in H; destruct H as [H1 H2]; rewrite IH by exact H2.
  rewrite andb_true_r. apply negb_true_iff. unfold is_char.
  apply N.eqb_neq; intros ->; congruence.
Qed.

Lemma sem_atom_char (ic : bool) (p : N) (w : jsstring) (c c' : captures) :
  is_alpha p = false ->
  (sem ic (Atom (Chr p)) w c c' <-> w = [p] /\ c' = c).
Proof.
  intros Hp; simpl; split.
  - intros [(x & -> & Hx) ->]. apply cieq_nonalpha in Hx; subst; auto.
  - intros [-> ->]; split; auto. exists p; split; auto. apply cieq_refl.
Qed.

Lemma sem_scheme (w : jsstring) (c c' : captures) :
  sem true (seqs scheme) w c c' <-> is_scheme w = true /\ c' = c.
Proof.
  unfold scheme, is_scheme. rewrite sem_seqs_app. split.
  - intros (w1 & w2 & c1 & -> & H1 & H2).
    apply sem_lits in H1; destruct H1 as [H1 ->].
    apply sem_seqs_cons in H2; destruct H2 as (o & w3 & c2 & -> & Ho & H3).
    apply (sem_lits true (codes "://")) in H3; destruct H3 as [H3 ->].
    destruct Ho as [[-> | (x & -> & Hx)] ->]; split; auto.
    + change (codes "http://") with (codes "http" ++ codes "://").
      change ([] ++ w3) with w3.
      rewrite (same_app true _ _ _ _ H1 H3); reflexivity.
    + change (codes "https://") with (codes "http" ++ [115%N] ++ codes "://").
      assert (Hs : same true [115%N] [x] = true).
      { cbn [same]. change (cieq true 115 x) with (atom_match true (Chr 115) x).
        rewrite Hx; reflexivity. }
      rewrite (same_app true (codes "http") _ _ _ H1
                 (same_app true [115%N] _ [x] _ Hs H3)), orb_true_r; auto.
  - intros [H ->]. apply orb_prop in H; destruct H as [H|H].
    + change (codes "http://") with (codes "http" ++ codes "://") in H.
      apply same_app_inv in H; destruct H as (w1 & w2 & -> & H1 & H2).
      exists w1, w2, c; repeat split; [apply sem_lits; auto|].
      apply sem_seqs_cons. exists [], w2, c; repeat split; simpl; auto.
      apply (sem_lits true (codes "://")); auto.
    + change (codes "https://") with (codes "http" ++ [115%N] ++ codes "://") in H.
      apply same_app_inv in H; destruct H as (w1 & w2 & -> & H1 & H2).
      apply same_app_inv in H2; destruct H2 as (o & w3 & -> & Ho & H3).
      apply same_cons_inv in Ho; destruct Ho as (x & o' & -> & Hx & Ho).
      apply same_nil_inv in Ho; subst o'.
      exists w1, ([x] ++ w3), c; repeat split; [apply sem_lits; auto|].
      apply sem_seqs_cons. exists [x], w3, c; repeat split; simpl; eauto.
      apply (sem_lits true (codes "://")); auto.
Qed.

Lemma sem_attr_eq (attr w : jsstring) (c c' : captures) :
  sem true (seqs (attr_eq_re attr)) w c c' <-> attr_eq attr w /\ c' = c.
Proof.
  unfold attr_eq_re, attr_eq. rewrite sem_seqs_app. split.
  - intros (h & w' & c1 & -> & H1 & H2).
    apply sem_lits in H1; destruct H1 as [H1 ->].
    destruct H2 as (w1 & r1 & c2 & -> & [Hw1 ->] & H2).
    destruct H2 as (e & r2 & c3 & -> & He & H2).
    apply sem_atom_char in He; [|reflexivity]. destruct He as [-> ->].
    destruct H2 as (w2 & r3 & c4 & -> & [Hw2 ->] & [-> ->]).
    rewrite all_ws in Hw1, Hw2. rewrite app_nil_r.
    split; auto. exists h, w1, w2; auto.
  - intros [(h & w1 & w2 & -> & Hh & H1 & H2) ->].
    exists h, (w1 ++ [61%N] ++ w2), c; repeat split; [apply sem_lits; auto|].
    exists w1, ([61%N] ++ w2), c; repeat split; [rewrite all_ws; auto|].
    exists [61%N], w2, c; repeat split; [exists 61%N; auto|].
    exists w2, [], c; rewrite app_nil_r; repeat split; auto.
    rewrite all_ws; auto.
Qed.

Lemma sem_theme (file w : jsstring) (c c' : captures) :
  sem true (theme_tree file) w c c' <-> theme_text file w /\ c' = c.
Proof.
  unfold theme_tree, theme_text, theme_value. rewrite sem_seqs_app. split.
  - intros (Pq & r & c1 & -> & HP & H).
    apply sem_attr_eq in HP; destruct HP as [HP ->].
    destruct H as (q & r1 & c2 & -> & Hq & H).
    apply sem_atom_char in Hq; [|reflexivity]. destruct Hq as [-> ->].
    apply (sem_seqs_app true scheme) in H; destruct H as (sch & r2 & c3 & -> & Hs & H).
    apply sem_scheme in Hs; destruct Hs as [Hs ->].
    destruct H as (V' & r3 & c4 & -> & [HV ->] & H).
    apply (sem_seqs_app true (lits file)) in H; destruct H as (f & r4 & c5 & -> & Hf & H).
    apply sem_lits in Hf; destruct Hf as [Hf ->].
    apply sem_seqs_one, sem_atom_char in H; [|reflexivity]. destruct H as [-> ->].
    rewrite all_notq in HV.
    split; auto. exists Pq, (sch ++ V' ++ f); repeat split; auto.
    + rewrite <- !app_assoc; reflexivity.
    + exists sch, V', f; auto.
  - intros [(Pq & V & -> & HP & (sch & V' & f & -> & Hs & HV & Hf)) ->].
    exists Pq, ([34%N] ++ (sch ++ V' ++ f) ++ [34%N]), c; repeat split.
    + apply sem_attr_eq; auto.
    + exists [34%N], ((sch ++ V' ++ f) ++ [34%N]), c; repeat split;
        [exists 34%N; auto|].
      apply (sem_seqs_app true scheme).
      exists sch, (V' ++ f ++ [34%N]), c; repeat split.
      * rewrite <- !app_assoc; reflexivity.
      * apply sem_scheme; auto.
      * exists V', (f ++ [34%N]), c; repeat split; [rewrite all_notq; auto|].
        apply (sem_seqs_app true (lits file)). exists f, [34%N], c; repeat split.
        -- apply sem_lits; auto.
        -- apply sem_seqs_one, sem_atom_char; auto.
Qed.

Lemma last_cases (l : jsstring) : l = [] \/ exists l' z, l = l' ++ [z].
Proof.
  destruct l as [|x l] using rev_ind; [left; reflexivity|].
  right; eauto.
Qed.

(** A code unit [x] that occurs left of a text [K] without [x]. *)
Lemma hit_in_prefix (x : N) (a K p t : jsstring) :
  a ++ K = p ++ x :: t -> none (is_char x) K = true ->
  exists l, a = p ++ x :: l /\ t = l ++ K.
Proof.
  intros H HK. apply app_eq_app in H. destruct H as (l & [[E1 E2] | [E1 E2]]).
  - destruct l as [|y l]; simpl in E2.
    + exfalso. subst K. simpl in HK. unfold is_char in HK.
      rewrite N.eqb_refl in HK; discriminate.
    + inversion E2; subst. exists l; auto.
  - exfalso. subst K. rewrite none_app in HK.
    apply andb_prop in HK; destruct HK as [_ HK]. simpl in HK.
    unfold is_char in HK. rewrite N.eqb_refl in HK; discriminate.
Qed.

Lemma is_char_refl (x : N) : is_char x x = true.
Proof. apply N.eqb_refl. Qed.

Lemma ends_with_p_snoc (p : N -> bool) (a : jsstring) (z : N) :
  ends_with_p p (a ++ [z]) = p z.
Proof. unfold ends_with_p. rewrite rev_app_distr; reflexivity. Qed.

Lemma all_snoc_inv (p : N -> bool) (a : jsstring) (z : N) :
  all p (a ++ [z]) = true -> p z = true.
Proof.
  rewrite all_app; intros H; apply andb_prop in H; destruct H as [_ H].
  simpl in H; rewrite andb_true_r in H; exact H.
Qed.

Lemma same_snoc_inv (ic : bool) (p w : jsstring) (z : N) :
  same ic p (w ++ [z]) = true ->
  exists p' y, p = p' ++ [y] /\ cieq ic y z = true.
Proof.
  revert w; induction p as [|a p IH]; intros w H.
  - destruct w; discriminate.
  - destruct w as [|x w]; simpl in H.
    + apply andb_prop in H; destruct H as [H1 H2].
      destruct p; [|discriminate]. exists [], a; auto.
    + apply andb_prop in H; destruct H as [H1 H2].
      destruct (IH _ H2) as (p' & y & -> & Hy). exists (a :: p'), y; auto.
Qed.

Section Theme.

Variable file : jsstring.
Hypothesis file_is_ok : file_ok file = true.

Lemma file_no_quote : none (is_char 34) file = true.
Proof.
  unfold file_ok in file_is_ok; apply andb_prop in file_is_ok; tauto.
Qed.

Lemma attr_eq_no_quote (attr w : jsstring) :
  none (is_char 34) attr = true -> attr_eq attr w ->
  none (is_char 34) w = true.
Proof.
  intros Ha (h & w1 & w2 & -> & Hh & H1 & H2).
  rewrite !none_app.
  rewrite (same_none_char true 34 attr h), (all_ws_none_char 34 w1),
    (all_ws_none_char 34 w2); auto.
Qed.

Lemma is_scheme_no (c : N) (sch : jsstring) :
  is_alpha c = false -> none (is_char c) (codes "https://") = true ->
  is_scheme sch = true -> none (is_char c) sch = true.
Proof.
  intros Hc Hn H.
  assert (Hn' : none (is_char c) (codes "http://") = true).
  { revert Hn.
    change (codes "https://") with (codes "http" ++ [115%N] ++ codes "://").
    change (codes "http://") with (codes "http" ++ codes "://").
    rewrite !none_app. intros Hn.
    apply andb_prop in Hn; destruct Hn as [Hn1 Hn].
    apply andb_prop in Hn; destruct Hn as [_ Hn2].
    rewrite Hn1, Hn2; reflexivity. }
  apply orb_prop in H; destruct H as [H|H].
  - apply (same_none_char true c (codes "http://")); auto.
  - apply (same_none_char true c (codes "https://")); auto.
Qed.

Lemma theme_value_no_quote (V : jsstring) :
  theme_value file V -> none (is_char 34) V = true.
Proof.
  intros (sch & V' & f & -> & Hs & HV & Hf).
  rewrite !none_app, HV.
  rewrite (is_scheme_no 34 sch), (same_none_char true 34 file f);
    auto using file_no_quote.
Qed.

(** At one place of a string the expression has at most one text. *)
Lemma theme_unique (w1 w2 s1 s2 : jsstring) :
  theme_text file w1 -> theme_text file w2 -> w1 ++ s1 = w2 ++ s2 ->
  w1 = w2 /\ s1 = s2.
Proof.
  intros (P1 & V1 & -> & HP1 & HV1) (P2 & V2 & -> & HP2 & HV2) E.
  apply attr_eq_no_quote in HP1, HP2; try reflexivity.
  apply theme_value_no_quote in HV1, HV2.
  rewrite <- !app_assoc in E. simpl in E.
  apply (first_hit (is_char 34)) in E; auto using is_char_refl.
  destruct E as (-> & _ & E).
  apply (first_hit (is_char 34)) in E; auto using is_char_refl.
  destruct E as (-> & _ & ->). auto.
Qed.

(** The last code unit of a text of [attr\s*=\s*] is the equals sign or
    white space. *)
Lemma attr_eq_last (attr w : jsstring) :
  attr_eq attr w ->
  exists w' z, w = w' ++ [z] /\ (isWhiteSpace z || is_char 61 z) = true.
Proof.
  intros (h & w1 & w2 & -> & Hh & H1 & H2).
  destruct (last_cases w2) as [-> | (w2' & z & ->)].
  - exists (h ++ w1), 61%N. rewrite app_nil_r, <- app_assoc. auto.
  - exists (h ++ w1 ++ [61%N] ++ w2'), z. rewrite <- !app_assoc.
    apply all_snoc_inv in H2. rewrite H2. auto.
Qed.

Lemma theme_value_last (V : jsstring) :
  theme_value file V ->
  exists V' z, V = V' ++ [z]
    /\ isWhiteSpace z = false /\ is_char 61 z = false.
Proof.
  intros (sch & V' & f & -> & Hs & HV & Hf).
  unfold file_ok in file_is_ok. apply andb_prop in file_is_ok.
  destruct file_is_ok as [_ Hl].
  destruct (last_cases f) as [-> | (f' & z & ->)].
  - destruct file; [discriminate Hl | discriminate Hf].
  - exists (sch ++ V' ++ f'), z. rewrite <- !app_assoc. split; [reflexivity|].
    apply same_snoc_inv in Hf; destruct Hf as (p' & y & -> & Hy).
    rewrite rev_app_distr in Hl; simpl in Hl.
    apply andb_prop in Hl; destruct Hl as [Hl1 Hl2].
    apply negb_true_iff in Hl1, Hl2.
    destruct (is_alpha y) eqn:Ey.
    + pose proof (cieq_alpha true y z Hy) as Ez. rewrite Ey in Ez.
      split.
      * apply alpha_not_ws; exact Ez.
      * unfold is_char. apply N.eqb_neq; intros ->. discriminate Ez.
    + apply cieq_nonalpha in Hy; auto; subst z. split; auto.
      unfold is_char. apply N.eqb_neq; intros ->.
      rewrite cieq_refl in Hl2; discriminate.
Qed.

End Theme.

(** * Replacing in a prefix and in the rest *)

Section Local.

Variable R : RegExp.
Variable tmpl : jsstring.
Variable rest : jsstring.
Hypothesis no_empty_match : exec_at R [] = None.

Lemma replace_local_skip :
  forall pre,
    (forall a b, pre = a ++ b -> b <> [] ->
       exec_at R (b ++ rest) = lift_rest rest (exec_at R b)) ->
    forall skip, skip <= List.length pre ->
      replace_from R tmpl skip (pre ++ rest)
      = replace_from R tmpl skip pre ++ replace_from R tmpl 0 rest.
Proof.
  induction pre as [|x pre IH]; intros Hl skip Hs.
  - simpl in Hs. assert (skip = 0) by lia; subst skip.
    simpl app at 1. cbn [replace_from]. rewrite no_empty_match. reflexivity.
  - assert (Hl' : forall a b, pre = a ++ b -> b <> [] ->
              exec_at R (b ++ rest) = lift_rest rest (exec_at R b)).
    { intros a b -> Hb. apply (Hl (x :: a) b); auto. }
    destruct skip as [|n].
    + change ((x :: pre) ++ rest) with (x :: (pre ++ rest)).
      cbn [replace_from].
      change (x :: (pre ++ rest)) with ((x :: pre) ++ rest).
      rewrite (Hl [] (x :: pre)) by (auto; discriminate).
      remember (exec_at R (x :: pre)) as o eqn:E; symmetry in E.
      destruct o as [[s' c]|]; cbn [lift_rest].
      * pose proof E as E'. apply exec_at_sound in E'.
        destruct E' as (w & Ew & _).
        assert (Hlen : List.length (x :: pre) = List.length w + List.length s')
          by (rewrite Ew, length_app; reflexivity).
        rewrite !length_app.
        replace (List.length (x :: pre) + List.length rest
                 - (List.length s' + List.length rest))
          with (List.length (x :: pre) - List.length s') by lia.
        rewrite firstn_app.
        replace (List.length (x :: pre) - List.length s' - List.length (x :: pre))
          with 0 by lia.
        rewrite firstn_O, app_nil_r.
        destruct (List.length (x :: pre) - List.length s') as [|n'] eqn:En.
        -- change ((x :: pre) ++ rest) with (x :: (pre ++ rest)). cbv iota.
           rewrite IH by (auto; lia). rewrite <- app_assoc. reflexivity.
        -- change ((x :: pre) ++ rest) with (x :: (pre ++ rest)). cbv iota.
           rewrite IH; [rewrite <- app_assoc; reflexivity | auto |].
           cbn [List.length] in En, Hlen. lia.
      * change ((x :: pre) ++ rest) with (x :: (pre ++ rest)). cbv iota.
        rewrite IH by (auto; lia). reflexivity.
    + change ((x :: pre) ++ rest) with (x :: (pre ++ rest)).
      cbn [replace_from]. apply IH; auto. simpl in Hs; lia.
Qed.

(** When every match that starts in [pre] is the one [pre] alone has
    there, the replace loop treats [pre] and the rest separately. *)
Lemma replace_local (pre : jsstring) :
  (forall a b, pre = a ++ b -> b <> [] ->
     exec_at R (b ++ rest) = lift_rest rest (exec_at R b)) ->
  replace_from R tmpl 0 (pre ++ rest)
  = replace_from R tmpl 0 pre ++ replace_from R tmpl 0 rest.
Proof. intros H. apply replace_local_skip; auto. lia. Qed.

End Local.

(** A match found inside a prefix is found in the whole string, when the
    texts of the expression are unique at each place and none runs from
    the prefix into the rest. *)
Lemma exec_at_local (R : RegExp) (b rest : jsstring) :
  (forall w1 w2 s1 s2 c1 c2,
      sem (re_ignoreCase R) (re_tree R) w1 [] c1 ->
      sem (re_ignoreCase R) (re_tree R) w2 [] c2 ->
      w1 ++ s1 = w2 ++ s2 -> s1 = s2 /\ c1 = c2) ->
  (forall w s c, sem (re_ignoreCase R) (re_tree R) w [] c ->
      b ++ rest = w ++ s -> exists t, b = w ++ t) ->
  exec_at R (b ++ rest) = lift_rest rest (exec_at R b).
Proof.
  intros Hu Hx.
  remember (exec_at R b) as o eqn:E; symmetry in E.
  destruct o as [[s' c]|]; cbn [lift_rest].
  - apply exec_at_sound in E; destruct E as (w & -> & Hw).
    unfold exec_at.
    rewrite (matcher_unique (re_ignoreCase R) (re_tree R) _ _ (s' ++ rest) [] c);
      auto.
    + intros w' s'' c' E' Hw'. rewrite <- app_assoc in E'.
      destruct (Hu _ _ _ _ _ _ Hw Hw' E') as [-> ->]; auto.
    + exists w; rewrite app_assoc; auto.
  - unfold exec_at. apply matcher_none.
    intros w s c' E' Hw.
    destruct (Hx _ _ _ Hw E') as (t & ->).
    apply (exec_at_complete R w t c') in Hw. congruence.
Qed.

(** A template without the dollar sign is emitted as it is. *)
Lemma substitute_plain (tmpl m : jsstring) (c : captures) :
  none (is_char 36) tmpl = true -> substitute tmpl m c = tmpl.
Proof.
  induction tmpl as [|d t IH]; intros H; [reflexivity|].
  simpl in H. apply andb_prop in H; destruct H as [Hd Ht].
  unfold is_char in Hd. apply negb_true_iff in Hd.
  cbn [substitute]. rewrite Hd, IH; auto.
Qed.

Section ThemeSpans.

Variable file : jsstring.
Hypothesis file_is_ok : file_ok file = true.

Let R : RegExp := mkRegExp (theme_tree file) true.
Let K : jsstring := codes "href=".

Lemma theme_sem_text (w : jsstring) (c c' : captures) :
  sem (re_ignoreCase R) (re_tree R) w c c' <-> theme_text file w /\ c' = c.
Proof. apply sem_theme. Qed.

Lemma attr_eq_href_exact (b : jsstring) :
  attr_eq (codes "href") (b ++ K) -> b = [].
Proof.
  intros (h & w1 & w2 & E & Hh & H1 & H2).
  destruct (last_cases w2) as [-> | (w2' & z & ->)].
  - change K with (codes "href" ++ [61%N]) in E.
    rewrite app_nil_r, !app_assoc in E.
    apply app_inj_tail in E; destruct E as [E _].
    destruct (last_cases w1) as [-> | (w1' & z & ->)].
    + rewrite app_nil_r in E. apply same_length in Hh.
      apply (f_equal (@List.length N)) in E. rewrite length_app, Hh in E.
      simpl in E. destruct b; [reflexivity | simpl in E; lia].
    + apply all_snoc_inv in H1.
      change (codes "href") with (codes "hre" ++ [102%N]) in E.
      rewrite !app_assoc in E. apply app_inj_tail in E; destruct E as [_ <-].
      discriminate H1.
  - apply all_snoc_inv in H2.
    change K with (codes "href" ++ [61%N]) in E.
    rewrite !app_assoc in E. apply app_inj_tail in E; destruct E as [_ <-].
    discriminate H2.
Qed.

(** No text of the expression runs from a prefix that is not empty into an
    [href=] and its opening quote. *)
Lemma theme_no_cross (b rest w s : jsstring) :
  theme_text file w -> b <> [] ->
  b ++ K ++ [34%N] ++ rest = w ++ s -> exists t, b = w ++ t.
Proof.
  intros (Pq & V & -> & HP & HV) Hb E.
  pose proof (attr_eq_no_quote (codes "href") Pq eq_refl HP) as HPq.
  pose proof (theme_value_no_quote file file_is_ok V HV) as HVq.
  assert (E' : (b ++ K) ++ 34%N :: rest = Pq ++ 34%N :: (V ++ 34%N :: s)).
  { rewrite <- !app_assoc in E. rewrite <- !app_assoc. exact E. }
  clear E. apply cut_trichotomy in E'.
  destruct E' as [(E & _) | [(t & E & E2) | (t & E & E2)]].
  - subst Pq. apply attr_eq_href_exact in HP. contradiction.
  - subst Pq. exfalso. eapply (none_hit (is_char 34)); eauto using is_char_refl.
  - apply (hit_in_prefix 34) in E; [|reflexivity].
    destruct E as (l & -> & ->).
    symmetry in E2. apply cut_trichotomy in E2.
    destruct E2 as [(E & _) | [(t & E & E2) | (t & E & E2)]].
    + exfalso. destruct (theme_value_last file file_is_ok V HV)
        as (V' & z & -> & Hz1 & Hz2).
      change K with (codes "href" ++ [61%N]) in E.
      rewrite !app_assoc in E. apply app_inj_tail in E; destruct E as [_ <-].
      discriminate Hz2.
    + subst V. exfalso.
      eapply (none_hit (is_char 34)); eauto using is_char_refl.
    + apply (hit_in_prefix 34) in E; [|reflexivity].
      destruct E as (l2 & -> & _).
      exists l2. rewrite <- !app_assoc. reflexivity.
Qed.

End ThemeSpans.

Section ThemeReplace.

Variable file : jsstring.
Hypothesis file_is_ok : file_ok file = true.

Let R : RegExp := mkRegExp (theme_tree file) true.
Let K : jsstring := codes "href=".

(** The span [href=], quote, value, quote. *)
Let span (V : jsstring) : jsstring := K ++ [34%N] ++ V ++ [34%N].

Lemma theme_text_not_nil : ~ theme_text file [].
Proof.
  intros (Pq & V & E & _). destruct Pq; discriminate E.
Qed.

Lemma theme_no_empty_match : exec_at R [] = None.
Proof.
  unfold exec_at. apply matcher_none. intros w s c E H.
  apply theme_sem_text in H; destruct H as [H _].
  destruct w; [|discriminate E]. apply theme_text_not_nil in H; exact H.
Qed.

Lemma theme_unique_sem (w1 w2 s1 s2 : jsstring) (c1 c2 : captures) :
  sem (re_ignoreCase R) (re_tree R) w1 [] c1 ->
  sem (re_ignoreCase R) (re_tree R) w2 [] c2 ->
  w1 ++ s1 = w2 ++ s2 -> s1 = s2 /\ c1 = c2.
Proof.
  intros H1 H2 E.
  apply theme_sem_text in H1, H2. destruct H1 as [H1 ->], H2 as [H2 ->].
  destruct (theme_unique file file_is_ok _ _ _ _ H1 H2 E); auto.
Qed.

Lemma attr_eq_href_K : attr_eq (codes "href") K.
Proof. exists (codes "href"), [], []; repeat split. Qed.

(** At the start of a span whose value fits, the expression matches the
    span. *)
Lemma theme_at_span_hit (V post : jsstring) :
  theme_value file V -> exec_at R (span V ++ post) = Some (post, []).
Proof.
  intros HV. unfold exec_at.
  assert (Ht : theme_text file (span V)).
  { exists K, V; repeat split; auto using attr_eq_href_K. }
  rewrite (matcher_unique true (theme_tree file) _ _ post [] []); auto.
  - intros w s c E H. apply sem_theme in H; destruct H as [H ->].
    destruct (theme_unique file file_is_ok _ _ _ _ Ht H E); auto.
  - exists (span V); split; auto. apply sem_theme; auto.
Qed.

(** At the start of a span whose value does not fit, it does not. *)
Lemma theme_at_span_miss (V post : jsstring) :
  ~ theme_value file V -> none (is_char 34) V = true ->
  exec_at R (span V ++ post) = None.
Proof.
  intros HV Hq. unfold exec_at. apply matcher_none. intros w s c E H.
  apply sem_theme in H; destruct H as [(Pq & V' & -> & HP & HV') _].
  apply HV.
  pose proof (attr_eq_no_quote (codes "href") Pq eq_refl HP) as HPq.
  pose proof (theme_value_no_quote file file_is_ok V' HV') as HVq.
  unfold span in E. rewrite <- !app_assoc in E.
  apply (first_hit (is_char 34)) in E; auto using is_char_refl.
  destruct E as (_ & _ & E).
  apply (first_hit (is_char 34)) in E; auto using is_char_refl.
  destruct E as (-> & _ & _). exact HV'.
Qed.

(** Nor does it match from a place inside a span whose value does not end
    in white space or an equals sign. *)
Lemma theme_in_span (V post a b : jsstring) :
  none (is_char 34) V = true -> value_end_ok V = true ->
  span V = a ++ b -> a <> [] -> b <> [] ->
  exec_at R (b ++ post) = None.
Proof.
  intros Hq Hend E Ha Hb. unfold exec_at. apply matcher_none.
  intros w s c Ew H.
  apply sem_theme in H; destruct H as [(Pq & V' & -> & HP & HV') _].
  pose proof (attr_eq_no_quote (codes "href") Pq eq_refl HP) as HPq.
  unfold span in E. apply app_eq_app in E.
  destruct E as (l & [[E1 E2] | [E1 E2]]).
  - (* the place is inside [href=] *)
    destruct HP as (h & w1 & w2 & -> & Hh & _).
    subst b. rewrite <- !app_assoc in Ew.
    apply same_cons_inv in Hh; destruct Hh as (x & h' & -> & Hx & _).
    assert (Hx' : cieq true 104 x = false);
      [|change (cieq true 104 x = true) in Hx; congruence].
    clear - E1 Ha Ew. unfold K in E1.
    change (codes "href=") with [104%N; 114%N; 101%N; 102%N; 61%N] in E1.
    destruct a as [|a0 a]; [contradiction|]. clear Ha.
    injection E1 as _ E1.
    do 4 (destruct a as [|? a];
          [cbn [app] in E1; subst l; injection Ew as <- _; reflexivity
          | injection E1 as _ E1]).
    destruct a; [|discriminate E1]. cbn [app] in E1; subst l.
    injection Ew as <- _; reflexivity.
  - (* the place is at the opening quote or after it *)
    subst a. destruct l as [|q l]; simpl in E2.
    + subst b. destruct HP as (h & w1 & w2 & -> & Hh & _).
      apply same_cons_inv in Hh; destruct Hh as (x & h' & -> & Hx & _).
      simpl in Ew. inversion Ew; subst. discriminate Hx.
    + inversion E2; subst q. clear E2.
      destruct (last_cases b) as [-> | (b' & z & ->)]; [contradiction|].
      rewrite app_assoc in H1. apply app_inj_tail in H1.
      destruct H1 as [-> <-].
      rewrite none_app in Hq. apply andb_prop in Hq; destruct Hq as [_ Hq].
      rewrite <- !app_assoc in Ew.
      apply (first_hit (is_char 34)) in Ew; auto using is_char_refl.
      destruct Ew as (-> & _ & _).
      destruct (attr_eq_last _ _ HP) as (P' & z & -> & Hz).
      unfold value_end_ok in Hend. rewrite app_assoc, ends_with_p_snoc in Hend.
      unfold is_char in Hend, Hz. rewrite Hz in Hend. discriminate Hend.
Qed.

End ThemeReplace.

Section ThemeSpanReplace.

Variable file : jsstring.
Hypothesis file_is_ok : file_ok file = true.
Variable tmpl : jsstring.

Let R : RegExp := mkRegExp (theme_tree file) true.

Lemma theme_local (pre V post : jsstring) :
  replace_from R tmpl 0 (pre ++ href_span V ++ post)
  = replace_from R tmpl 0 pre ++ replace_from R tmpl 0 (href_span V ++ post).
Proof.
  apply replace_local; [apply theme_no_empty_match|].
  intros a b -> Hb. apply exec_at_local.
  - apply theme_unique_sem; exact file_is_ok.
  - intros w s c H E. apply (sem_theme file) in H; destruct H as [H _].
    eapply (theme_no_cross file file_is_ok b (V ++ [34%N] ++ post)); eauto.
    rewrite <- E. unfold href_span, Q. rewrite <- !app_assoc. reflexivity.
Qed.

(** A span whose value fits is replaced; what is left and right of it is
    rewritten on its own. *)
Lemma theme_span_hit (pre V post : jsstring) :
  theme_value file V ->
  replace_from R tmpl 0 (pre ++ href_span V ++ post)
  = replace_from R tmpl 0 pre ++ substitute tmpl (href_span V) []
    ++ replace_from R tmpl 0 post.
Proof.
  intros HV. rewrite theme_local. f_equal.
  apply replace_step_match; [discriminate|].
  apply (theme_at_span_hit file file_is_ok V post HV).
Qed.

(** A span whose value does not fit stays. *)
Lemma theme_span_miss (pre V post : jsstring) :
  ~ theme_value file V -> none (is_char 34) V = true ->
  value_end_ok V = true ->
  replace_from R tmpl 0 (pre ++ href_span V ++ post)
  = replace_from R tmpl 0 pre ++ href_span V ++ replace_from R tmpl 0 post.
Proof.
  intros HV Hq He. rewrite theme_local. f_equal.
  apply replace_prefix_none. intros a b E Hb.
  destruct a as [|a0 a].
  - simpl in E; subst b.
    apply (theme_at_span_miss file file_is_ok V post HV Hq).
  - apply (theme_in_span file V post (a0 :: a) b Hq He); auto. discriminate.
Qed.

End ThemeSpanReplace.

(** * The loop over the theme entries *)

Lemma themeLoop_rule (html : jsstring) :
  themeLoop themeCssMap html = Some (themeRule html).
Proof.
  unfold themeRule, themeCssMap.
  cbn [themeLoop fold_left]. unfold themeStep.
  repeat match goal with
  | |- context [re_theme (fst ?e)] =>
      let H := fresh in
      destruct (re_theme_tree e) as [H _];
      [unfold themeCssMap; simpl; tauto | rewrite H; clear H; cbn [replace bind]]
  end.
  reflexivity.
Qed.

Lemma same_rev (ic : bool) (p w : jsstring) :
  same ic p w = true -> same ic (rev p) (rev w) = true.
Proof.
  revert w; induction p as [|a p IH]; intros [|x w] H; simpl in *;
    try discriminate; auto.
  apply andb_prop in H; destruct H as [H1 H2].
  apply same_app; auto. simpl; rewrite H1; reflexivity.
Qed.

Lemma same_firstn (ic : bool) (k : nat) (p w : jsstring) :
  same ic p w = true -> same ic (firstn k p) (firstn k w) = true.
Proof.
  revert p w; induction k as [|k IH]; intros [|a p] [|x w] H; simpl in *;
    try discriminate; auto.
  apply andb_prop in H; destruct H as [-> H2]; simpl; auto.
Qed.

(** A URL that ends in one file name does not end in another. *)
Lemma theme_value_clash (f g X : jsstring) :
  clash f g = true -> ~ theme_value f (X ++ g).
Proof.
  unfold clash. intros Hc (sch & V' & f' & E & _ & _ & Hf).
  apply negb_true_iff in Hc.
  pose proof (same_length _ _ _ Hf) as Hl.
  set (k := Nat.min (List.length f) (List.length g)) in *.
  assert (Hk1 : k <= List.length f') by (rewrite Hl; apply Nat.le_min_l).
  assert (Hk2 : k <= List.length g) by apply Nat.le_min_r.
  apply (f_equal (@rev N)) in E. rewrite app_assoc, !rev_app_distr in E.
  apply (f_equal (firstn k)) in E.
  rewrite !firstn_app, !length_rev in E.
  replace (k - List.length g) with 0 in E by lia.
  replace (k - List.length f') with 0 in E by lia.
  rewrite !firstn_O, !app_nil_r in E.
  apply same_rev, (same_firstn true k) in Hf.
  rewrite <- E in Hf. congruence.
Qed.

(** A value that does not begin with an [h] is not an absolute URL. *)
Lemma theme_value_scheme (f V : jsstring) :
  starts_with true (codes "h") V = false -> ~ theme_value f V.
Proof.
  intros Hs (sch & V' & f' & -> & Hsch & _).
  assert (H : starts_with true (codes "h") sch = true).
  { apply orb_prop in Hsch; destruct Hsch as [H|H];
      apply same_cons_inv in H; destruct H as (x & w' & -> & Hx & _);
      simpl; rewrite andb_true_r; exact Hx. }
  rewrite (starts_with_app true _ _ _ H) in Hs. discriminate.
Qed.

Lemma ends_with_p_app (p : N -> bool) (a b : jsstring) :
  b <> [] -> ends_with_p p (a ++ b) = ends_with_p p b.
Proof.
  intros Hb. destruct (last_cases b) as [-> | (b' & z & ->)]; [contradiction|].
  rewrite app_assoc, !ends_with_p_snoc. reflexivity.
Qed.

Lemma file_ok_value (f X : jsstring) :
  file_ok f = true -> none (is_char 34) X = true ->
  none (is_char 34) (X ++ f) = true /\ value_end_ok (X ++ f) = true.
Proof.
  unfold file_ok, value_end_ok. intros H HX.
  apply andb_prop in H; destruct H as [Hq Hl].
  rewrite none_app, HX, Hq. split; [reflexivity|].
  destruct (last_cases f) as [-> | (f' & z & ->)]; [discriminate Hl|].
  rewrite app_assoc, ends_with_p_snoc.
  rewrite rev_app_distr in Hl; simpl in Hl.
  apply andb_prop in Hl; destruct Hl as [Hl1 Hl2].
  apply negb_true_iff in Hl1, Hl2. rewrite Hl1. simpl.
  apply negb_true_iff. unfold is_char. apply N.eqb_neq; intros ->.
  discriminate Hl2.
Qed.

(** The rewrite of one [href] whose URL ends in the file of an entry, in
    any context. *)
Lemma themeRule_span (entry : jsstring * jsstring) (pre sch P post : jsstring) :
  In entry themeCssMap -> is_scheme sch = true ->
  none (is_char 34) P = true ->
  themeRule (pre ++ href_span ((sch ++ P) ++ fst entry) ++ post)
  = themeRule pre ++ href_span (snd entry) ++ themeRule post.
Proof.
  intros Hin Hs HP.
  assert (HX : none (is_char 34) (sch ++ P) = true).
  { rewrite none_app, HP, (is_scheme_no 34 sch); auto. }
  assert (Hv : theme_value (fst entry) ((sch ++ P) ++ fst entry)).
  { exists sch, P, (fst entry). rewrite <- app_assoc.
    repeat split; auto using same_refl. }
  unfold themeRule, themeCssMap in *. simpl in Hin.
  destruct Hin as [<- | [<- | [<- | [<- | []]]]]; cbn [fold_left fst snd] in *;
    repeat first
      [ rewrite theme_span_hit by
          (lazymatch goal with
           | |- theme_value ?f ((_ ++ _) ++ ?f) => exact Hv
           | |- file_ok _ = true => reflexivity
           end);
        rewrite substitute_plain by reflexivity;
        match goal with
        | |- context [?a ++ theme_tmpl ?l ++ ?b] =>
            change (a ++ theme_tmpl l ++ b) with (a ++ href_span l ++ b)
        end
      | rewrite theme_span_miss;
        [ | reflexivity | .. ];
        [ | lazymatch goal with
            | |- ~ theme_value _ ((_ ++ _) ++ _) =>
                apply theme_value_clash; reflexivity
            | |- ~ theme_value _ _ => apply theme_value_scheme; reflexivity
            | |- none _ ((_ ++ _) ++ _) = true =>
                refine (proj1 (file_ok_value _ _ _ HX)); reflexivity
            | |- value_end_ok ((_ ++ _) ++ _) = true =>
                refine (proj2 (file_ok_value _ _ _ HX)); reflexivity
            | |- _ => reflexivity
            end .. ] ];
    reflexivity.
Qed.

(** * Occurrences and delimiters *)

Section Delimiter.

Variable ic : bool.
Variable c : N.
Variable m : jsstring.
Hypothesis m_without_c : forallb (fun x => negb (cieq ic x c)) m = true.

Lemma starts_with_delimiter (A B : jsstring) :
  starts_with ic m (A ++ c :: B) = starts_with ic m A.
Proof.
  revert A m_without_c. induction m as [|x m' IH]; intros A Hm; [reflexivity|].
  simpl in Hm. apply andb_prop in Hm; destruct Hm as [Hx Hm].
  apply negb_true_iff in Hx.
  destruct A as [|a A]; simpl.
  - rewrite Hx; reflexivity.
  - rewrite IH by exact Hm. reflexivity.
Qed.

(** A text without the delimiter occurs left or right of it. *)
Lemma occurs_delimiter (A B : jsstring) :
  m <> [] ->
  occurs ic m (A ++ c :: B) = occurs ic m A || occurs ic m B.
Proof.
  intros Hne. induction A as [|a A IH].
  - simpl app. cbn [occurs].
    destruct m as [|x m']; [contradiction|].
    simpl in m_without_c. apply andb_prop in m_without_c.
    destruct m_without_c as [Hx _]. apply negb_true_iff in Hx.
    simpl. rewrite Hx. reflexivity.
  - change ((a :: A) ++ c :: B) with ((a :: A) ++ c :: B).
    cbn [occurs app].
    change (a :: A ++ c :: B) with ((a :: A) ++ c :: B).
    rewrite starts_with_delimiter, IH, orb_assoc. reflexivity.
Qed.

End Delimiter.

(** Exchanging the value of a quoted attribute does not bring in a text
    without quotes that was absent before and is absent from the new
    value. *)
Lemma occurs_span_swap (ic : bool) (m A V V' B : jsstring) :
  m <> [] -> forallb (fun x => negb (cieq ic x 34)) m = true ->
  occurs ic m (A ++ href_span V ++ B) = false ->
  occurs ic m V' = false ->
  occurs ic m (A ++ href_span V' ++ B) = false.
Proof.
  intros Hne Hm H HV'. unfold href_span, Q in *.
  assert (E : forall W, A ++ (codes "href=" ++ [34%N] ++ W ++ [34%N]) ++ B
                        = (A ++ codes "href=") ++ 34%N :: (W ++ 34%N :: B)).
  { intros W. rewrite <- !app_assoc. reflexivity. }
  rewrite E in H |- *.
  rewrite (occurs_delimiter ic 34 m Hm) in H |- * by exact Hne.
  rewrite (occurs_delimiter ic 34 m Hm) in H |- * by exact Hne.
  apply orb_false_iff in H; destruct H as [H1 H].
  apply orb_false_iff in H; destruct H as [_ H3].
  rewrite H1, HV', H3. reflexivity.
Qed.

Lemma themeRule_absent (s : jsstring) :
  no_theme_file s = true -> themeRule s = s.
Proof.
  unfold no_theme_file, themeRule, themeCssMap. intros H.
  repeat match goal with
  | H : forallb _ (_ :: _) = true |- _ =>
      apply forallb_cons_true in H;
      let H1 := fresh "M" in destruct H as [H1 H];
      apply negb_true_iff in H1
  end.
  cbn [fold_left fst snd] in *.
  repeat match goal with
  | M : occurs true ?m s = false
    |- context [replace_from (mkRegExp (theme_tree ?m) true) ?t 0 s] =>
      rewrite (replace_none (mkRegExp (theme_tree m) true) t s)
        by (apply (exec_at_absent _ m); [reflexivity | exact M])
  end.
  reflexivity.
Qed.

(** * The pipeline around the theme loop *)

Lemma transformIndexHtml_steps (p html : jsstring) :
  transformIndexHtml (Some p) html
  = (result <- replace re_tailwind [] html ;;
     result <- themeLoop themeCssMap result ;;
     afterTheme result).
Proof. reflexivity. Qed.

Ltac split_forallb :=
  repeat match goal with
  | H : forallb _ (_ :: _) = true |- _ =>
      apply forallb_cons_true in H;
      let H1 := fresh "M" in destruct H as [H1 H];
      apply negb_true_iff in H1
  end.

Lemma afterTheme_absent (html : jsstring) :
  no_other_marker html = true -> afterTheme html = Some html.
Proof.
  unfold no_other_marker, other_markers, comment_markers; intros H.
  apply andb_prop in H; destruct H as [Hm Hc]. split_forallb.
  unfold afterTheme.
  rewrite (@replace_absent true (codes "font-awesome")); auto. cbn [bind].
  rewrite (@replace_absent true (codes "katex")); auto. cbn [bind].
  rewrite (@replace_absent true (codes "esm.sh/react-pdf")); auto. cbn [bind].
  rewrite (@replace_absent true (codes "viz.js")); auto. cbn [bind].
  rewrite (@replace_absent true (codes "full.render.js")); auto. cbn [bind].
  rewrite (@replace_absent true (codes "html2pdf")); auto. cbn [bind].
  rewrite (@replace_absent true (codes "importmap")); auto. cbn [bind].
  rewrite (@replace_absent false (codes "<!-- React PDF Styles -->")); auto. cbn [bind].
  rewrite (@replace_absent false (codes "<!-- Graphviz scripts -->")); auto. cbn [bind].
  rewrite (@replace_absent false (codes "<!-- HTML2PDF -->")); auto.
Qed.

Lemma tailwind_absent (html : jsstring) :
  no_other_marker html = true -> replace re_tailwind [] html = Some html.
Proof.
  unfold no_other_marker, other_markers; intros H.
  apply andb_prop in H; destruct H as [Hm _]. split_forallb.
  apply (@replace_absent true (codes "cdn.tailwindcss.com")); auto.
Qed.

Lemma no_other_marker_swap (A V V' B : jsstring) :
  no_other_marker (A ++ href_span V ++ B) = true ->
  no_other_marker V' = true ->
  no_other_marker (A ++ href_span V' ++ B) = true.
Proof.
  unfold no_other_marker, other_markers, comment_markers; intros H H'.
  apply andb_prop in H; destruct H as [Hm Hc].
  apply andb_prop in H'; destruct H' as [Hm' Hc'].
  split_forallb.
  cbn [forallb].
  repeat match goal with
  | M : occurs ?ic ?m (A ++ href_span V ++ B) = false,
    M' : occurs ?ic ?m V' = false |- _ =>
      rewrite (occurs_span_swap ic m A V V' B) by
        (first [discriminate | reflexivity | assumption]);
      clear M
  end.
  reflexivity.
Qed.


Definition theme_example_pre : jsstring :=
  codes "<link rel=" ++ Q ++ codes "stylesheet" ++ Q ++ codes " ".

Definition theme_example_post : jsstring :=
  codes " id=" ++ Q ++ codes "hljs-dark" ++ Q ++ codes " disabled>".

(** * The trees of the expressions *)


Lemma re_html2pdf_tree :
  re_html2pdf
  = Some (mkRegExp (delete_tree (script_core (url_contains (codes "html2pdf")))) true).
Proof. vm_compute; reflexivity. Qed.




Lemma re_viz_tree :
  re_viz = Some (mkRegExp (redirect_tree (url_ends (codes "/viz.js"))) true).
Proof. vm_compute; reflexivity. Qed.

Lemma re_fullrender_tree :
  re_fullrender
  = Some (mkRegExp (redirect_tree (url_ends (codes "/full.render.js"))) true).
Proof. vm_compute; reflexivity. Qed.


(** * The texts of the tag expressions *)

Lemma sem_attr_open (tag attr w : jsstring) (c c' : captures) :
  sem true (seqs (attr_open tag attr)) w c c' <-> open_text tag attr w /\ c' = c.
Proof.
  unfold attr_open, open_text. rewrite sem_seqs_app. split.
  - intros (o & r & c1 & -> & Ho & H).
    apply sem_lits in Ho; destruct Ho as [Ho ->].
    destruct H as (wx & r1 & c2 & -> & [(x & -> & Hx) ->] & H).
    destruct H as (X & r2 & c3 & -> & [HX ->] & H).
    apply (sem_seqs_app true (attr_eq_re attr)) in H.
    destruct H as (Pq & r3 & c4 & -> & HP & H).
    apply sem_attr_eq in HP; destruct HP as [HP ->].
    apply sem_seqs_one, sem_atom_char in H; [|reflexivity]. destruct H as [-> ->].
    rewrite atom_match_ws in Hx. rewrite all_notgt in HX.
    split; auto. exists o, x, X, Pq; auto.
  - intros [(o & x & X & Pq & -> & Ho & Hx & HX & HP) ->].
    exists o, ([x] ++ X ++ Pq ++ [34%N]), c; repeat split; [apply sem_lits; auto|].
    exists [x], (X ++ Pq ++ [34%N]), c; repeat split.
    { exists x; split; auto. rewrite atom_match_ws; auto. }
    exists X, (Pq ++ [34%N]), c; repeat split; [rewrite all_notgt; auto|].
    apply (sem_seqs_app true (attr_eq_re attr)).
    exists Pq, [34%N], c; repeat split; [apply sem_attr_eq; auto|].
    apply sem_seqs_one, sem_atom_char; auto.
Qed.

Lemma sem_script_close (w : jsstring) (c c' : captures) :
  sem true (seqs script_close) w c c' <-> close_text w /\ c' = c.
Proof.
  unfold script_close, close_text. split.
  - intros (q & r & c1 & -> & Hq & H).
    apply sem_atom_char in Hq; [|reflexivity]. destruct Hq as [-> ->].
    destruct H as (Y & cl & c2 & -> & [HY ->] & H).
    apply sem_lits in H; destruct H as [H ->].
    rewrite all_notgt in HY. split; auto. exists Y, cl; auto.
  - intros [(Y & cl & -> & HY & Hcl) ->].
    exists [34%N], (Y ++ cl), c; repeat split; [exists 34%N; auto|].
    exists Y, cl, c; repeat split; [rewrite all_notgt; auto|].
    apply sem_lits; auto.
Qed.

Lemma sem_star_notq (l : list regex) (w : jsstring) (c c' : captures) :
  sem true (seqs (Star notq :: l)) w c c'
  <-> exists V r, w = V ++ r /\ none (is_char 34) V = true
        /\ sem true (seqs l) r c c'.
Proof.
  split.
  - intros (V & r & c1 & -> & [HV ->] & H). rewrite all_notq in HV. eauto.
  - intros (V & r & -> & HV & H). exists V, r, c; repeat split; auto.
    rewrite all_notq; auto.
Qed.


Lemma url_contains_ok (m : jsstring) :
  none (is_char 34) m = true -> url_ok (url_contains m).
Proof.
  intros Hq. split.
  { unfold url_contains, scheme, lits. rewrite !forallb_app. simpl.
    rewrite !andb_true_r. rewrite forallb_forall. intros x Hx.
    apply in_map_iff in Hx. destruct Hx as (y & <- & _). reflexivity. }
  unfold url_contains. intros u c c' H.
  apply (sem_seqs_app true scheme) in H. destruct H as (sch & r & c1 & -> & Hs & H).
  apply sem_scheme in Hs; destruct Hs as [Hs ->].
  apply sem_star_notq in H. destruct H as (V & r2 & -> & HV & H).
  apply (sem_seqs_app true (lits m)) in H.
  destruct H as (m' & r3 & c2 & -> & Hm & H).
  apply sem_lits in Hm; destruct Hm as [Hm ->].
  apply (proj1 (sem_seqs_one _ _ _ _ _)) in H.
  destruct H as [HV2 ->]. rewrite all_notq in HV2.
  split; [|exists sch, (V ++ m' ++ r3); auto].
  rewrite !none_app, HV, HV2, (is_scheme_no 34 sch),
    (same_none_char true 34 m m'); auto.
Qed.

Lemma url_ends_ok (m : jsstring) :
  none (is_char 34) m = true -> url_ok (url_ends m).
Proof.
  intros Hq. split.
  { unfold url_ends, scheme, lits. rewrite !forallb_app. simpl.
    rewrite forallb_forall. intros x Hx.
    apply in_map_iff in Hx. destruct Hx as (y & <- & _). reflexivity. }
  unfold url_ends. intros u c c' H.
  apply (sem_seqs_app true scheme) in H. destruct H as (sch & r & c1 & -> & Hs & H).
  apply sem_scheme in Hs; destruct Hs as [Hs ->].
  apply sem_star_notq in H. destruct H as (V & r2 & -> & HV & H).
  apply sem_lits in H; destruct H as [Hm ->].
  split; [|exists sch, (V ++ r2); auto].
  rewrite !none_app, HV, (is_scheme_no 34 sch),
    (same_none_char true 34 m r2); auto.
Qed.

(** * Aligning a text of a tag expression with a tag *)

Lemma same_nonalpha (ic : bool) (p w : jsstring) :
  forallb (fun x => negb (is_alpha x)) p = true -> same ic p w = true -> w = p.
Proof.
  revert w; induction p as [|a p IH]; intros [|x w] Hp H; simpl in *;
    try discriminate; auto.
  apply andb_prop in Hp; destruct Hp as [Ha Hp].
  apply andb_prop in H; destruct H as [H1 H2].
  apply negb_true_iff in Ha. apply cieq_nonalpha in H1; auto.
  subst; f_equal; auto.
Qed.

Lemma is_scheme_sep (sch : jsstring) :
  is_scheme sch = true -> exists s0, sch = s0 ++ codes "://".
Proof.
  intros H. apply orb_prop in H; destruct H as [H|H].
  - change (codes "http://") with (codes "http" ++ codes "://") in H.
    apply same_app_inv in H; destruct H as (w1 & w2 & -> & _ & H2).
    apply same_nonalpha in H2; [|reflexivity]. subst; eauto.
  - change (codes "https://") with (codes "https" ++ codes "://") in H.
    apply same_app_inv in H; destruct H as (w1 & w2 & -> & _ & H2).
    apply same_nonalpha in H2; [|reflexivity]. subst; eauto.
Qed.

(** A string that contains a text of a URL expression contains [://]. *)
Lemma url_start_sep (A u B : jsstring) :
  url_start u -> has_scheme_sep (A ++ u ++ B) = true.
Proof.
  intros (sch & u' & -> & Hs).
  destruct (is_scheme_sep sch Hs) as (s0 & ->).
  unfold has_scheme_sep.
  replace (A ++ ((s0 ++ codes "://") ++ u') ++ B)
    with ((A ++ s0) ++ codes "://" ++ (u' ++ B))
    by (rewrite <- !app_assoc; reflexivity).
  apply occurs_intro. reflexivity.
Qed.

Lemma url_start_no_gt (u : jsstring) :
  url_start u -> exists sch u', u = sch ++ u' /\ none (is_char 62) sch = true
                               /\ has_scheme_sep sch = true.
Proof.
  intros (sch & u' & -> & Hs). exists sch, u'; repeat split.
  - apply is_scheme_no; auto.
  - rewrite <- (app_nil_r sch). change (sch ++ []) with ([] ++ sch ++ []).
    apply url_start_sep. exists sch, []; rewrite app_nil_r; auto.
Qed.

(** A text without [>] that contains [://] is not a prefix of attribute
    text followed by [>]. *)
Lemma no_sep_before_gt (A e z sch r : jsstring) :
  A ++ 62%N :: e = z ++ sch ++ r ->
  none (is_char 62) z = true -> none (is_char 62) sch = true ->
  has_scheme_sep sch = true -> has_scheme_sep A = false -> False.
Proof.
  intros E Hz Hs Hsep HA.
  rewrite app_assoc in E.
  apply (prefix_before_hit (is_char 62)) in E;
    [| rewrite none_app, Hz, Hs; reflexivity | apply is_char_refl].
  destruct E as (t & -> & _).
  unfold has_scheme_sep in *.
  rewrite <- app_assoc in HA.
  rewrite (occurs_app_l false) in HA; [discriminate|].
  apply occurs_app_r; exact Hsep.
Qed.

(** The alignment: the part before the quoted URL, the URL, and the part
    up to the closing [>] of a text are those of the tag. *)
Lemma tag_align (L u Y e M U A2 e0 : jsstring) :
  L ++ 34%N :: u ++ 34%N :: Y ++ 62%N :: e
  = M ++ 34%N :: U ++ 34%N :: A2 ++ 62%N :: e0 ->
  none (is_char 62) L = true -> none (is_char 34) u = true -> url_start u ->
  none (is_char 62) Y = true ->
  has_scheme_sep M = false -> attrs_ok A2 = true ->
  none (is_char 34) U = true ->
  L = M /\ u = U /\ Y = A2 /\ e = e0.
Proof.
  intros E HL Hu Hstart HY HM HA2 HU.
  unfold attrs_ok in HA2. apply andb_prop in HA2; destruct HA2 as [HA2g HA2s].
  apply negb_true_iff in HA2s.
  destruct (url_start_no_gt u Hstart) as (sch & u' & Eu & Hsg & Hss).
  apply cut_trichotomy in E.
  destruct E as [(-> & _ & E) | [(t & -> & E) | (t & -> & E)]].
  - (* the quotes that open the URL coincide *)
    apply (first_hit (is_char 34)) in E; auto using is_char_refl.
    destruct E as (-> & _ & E).
    apply (first_hit (is_char 62)) in E; auto using is_char_refl.
    destruct E as (-> & _ & ->). auto.
  - (* the text opens its URL left of the tag's *)
    exfalso.
    assert (Ht : exists t', t = u ++ t').
    { apply cut_trichotomy in E.
      destruct E as [(-> & _) | [(t' & -> & _) | (t' & -> & _)]].
      - exists []; rewrite app_nil_r; reflexivity.
      - eauto.
      - exfalso. eapply (none_hit (is_char 34)); eauto using is_char_refl. }
    destruct Ht as (t' & ->).
    replace (L ++ 34%N :: u ++ t') with ((L ++ [34%N]) ++ u ++ t') in HM
      by (rewrite <- app_assoc; reflexivity).
    rewrite url_start_sep in HM; auto; discriminate.
  - (* the text opens its URL right of the tag's *)
    exfalso.
    rewrite none_app, none_cons in HL.
    apply andb_prop in HL; destruct HL as [_ HL].
    apply andb_prop in HL; destruct HL as [_ Ht].
    symmetry in E. apply cut_trichotomy in E.
    destruct E as [(-> & _ & E) | [(t' & -> & E) | (t' & -> & E)]].
    + subst u. symmetry in E. rewrite <- app_assoc in E.
      apply (no_sep_before_gt A2 e0 [] sch _ E); auto.
    + eapply (none_hit (is_char 34)); eauto using is_char_refl.
    + subst u. rewrite none_app, none_cons in Ht.
      apply andb_prop in Ht; destruct Ht as [_ Ht].
      apply andb_prop in Ht; destruct Ht as [_ Ht].
      replace (t' ++ 34%N :: (sch ++ u') ++ 34%N :: Y ++ 62%N :: e)
        with ((t' ++ [34%N]) ++ sch ++ (u' ++ 34%N :: Y ++ 62%N :: e)) in E
        by (rewrite <- !app_assoc; reflexivity).
      apply (no_sep_before_gt A2 e0 _ sch _ E); auto.
      rewrite none_app, Ht; reflexivity.
Qed.

Lemma app_eq_length (a b c d : jsstring) :
  a ++ b = c ++ d -> List.length a = List.length c -> a = c /\ b = d.
Proof.
  revert c; induction a as [|x a IH]; intros [|y c] E Hl; simpl in *;
    try discriminate; auto.
  injection E as -> E. destruct (IH c E) as [-> ->]; auto.
Qed.

Section OccursTail.

Variable ic : bool.
Variables (m' : jsstring) (z : N).

Lemma starts_with_nonempty_nil (p : jsstring) :
  p <> [] -> starts_with ic p [] = false.
Proof. destruct p; [contradiction | reflexivity]. Qed.

Lemma starts_with_snoc (k : N) :
  cieq ic z k = false ->
  forall A, starts_with ic (m' ++ [z]) (A ++ [k]) = starts_with ic (m' ++ [z]) A.
Proof.
  intros Hk. induction m' as [|x m'' IH]; intros A.
  - destruct A as [|a A]; simpl; [rewrite Hk|]; reflexivity.
  - destruct A as [|a A]; simpl.
    + rewrite starts_with_nonempty_nil, andb_false_r; [reflexivity|].
      destruct m''; discriminate.
    + rewrite IH; reflexivity.
Qed.

Lemma occurs_snoc_other (k : N) :
  cieq ic z k = false ->
  forall A, occurs ic (m' ++ [z]) (A ++ [k]) = occurs ic (m' ++ [z]) A.
Proof.
  intros Hk. induction A as [|a A IH].
  - pose proof (starts_with_snoc k Hk []) as H0.
    change ([] ++ [k]) with [k] in *. cbn [occurs].
    rewrite H0.
    rewrite starts_with_nonempty_nil by (destruct m'; discriminate).
    reflexivity.
  - change ((a :: A) ++ [k]) with (a :: (A ++ [k])). cbn [occurs].
    change (a :: (A ++ [k])) with ((a :: A) ++ [k]).
    rewrite (starts_with_snoc k Hk), IH. reflexivity.
Qed.

(** A text that ends in [z] does not end inside a text without [z]. *)
Lemma occurs_app_other (K : jsstring) :
  forallb (fun k => negb (cieq ic z k)) K = true ->
  forall A, occurs ic (m' ++ [z]) (A ++ K) = occurs ic (m' ++ [z]) A.
Proof.
  induction K as [|k K IH]; intros HK A; [rewrite app_nil_r; reflexivity|].
  simpl in HK. apply andb_prop in HK; destruct HK as [Hk HK].
  apply negb_true_iff in Hk.
  change (A ++ k :: K) with (A ++ [k] ++ K). rewrite app_assoc.
  rewrite IH by exact HK. apply occurs_snoc_other; exact Hk.
Qed.

End OccursTail.

Lemma has_scheme_sep_app (A K : jsstring) :
  forallb (fun k => negb (cieq false 47 k)) K = true ->
  has_scheme_sep (A ++ K) = has_scheme_sep A.
Proof.
  intros HK. unfold has_scheme_sep.
  change (codes "://") with (codes ":/" ++ [47%N]).
  apply occurs_app_other; exact HK.
Qed.

Lemma attr_eq_no (c : N) (attr w : jsstring) :
  is_alpha c = false -> isWhiteSpace c = false -> is_char c 61 = false ->
  none (is_char c) attr = true -> attr_eq attr w ->
  none (is_char c) w = true.
Proof.
  intros Hc Hw He Ha (h & w1 & w2 & -> & Hh & H1 & H2).
  assert (H61 : none (is_char c) [61%N] = true)
    by (unfold none; cbn [forallb]; rewrite He; reflexivity).
  rewrite !none_app, H61.
  rewrite (same_none_char true c attr h), (all_ws_none_char c w1),
    (all_ws_none_char c w2); auto.
Qed.

Lemma attr_eq_exact (attr : jsstring) : attr_eq attr (attr ++ [61%N]).
Proof.
  exists attr, [], []; repeat split; auto using same_refl.
Qed.

Section ScriptCore.

Variable url : list regex.
Hypothesis url_is_ok : url_ok url.

Variables A1 U A2 : jsstring.
Hypothesis A1_ok : attrs_after_name A1 = true.
Hypothesis A2_ok : attrs_ok A2 = true.

Lemma A1_parts :
  exists x A1', A1 = x :: A1' /\ isWhiteSpace x = true
    /\ none (is_char 62) A1' = true /\ none (is_char 62) A1 = true
    /\ has_scheme_sep (A1 ++ codes "src=") = false.
Proof.
  unfold attrs_after_name, attrs_ok in A1_ok.
  apply andb_prop in A1_ok; destruct A1_ok as [Hs H].
  apply andb_prop in H; destruct H as [Hg Hp].
  apply negb_true_iff in Hp.
  destruct A1 as [|x A1']; [discriminate Hs|].
  exists x, A1'; repeat split; auto.
  - simpl in Hg. apply andb_prop in Hg; tauto.
  - rewrite has_scheme_sep_app; auto.
Qed.



End ScriptCore.

(** * The text before a tag *)

Ltac norm_app := repeat (progress (rewrite <- ?app_assoc; cbn [app])).

Lemma none_existsb (p : N -> bool) (s : jsstring) :
  none p s = true -> existsb p s = false.
Proof.
  induction s as [|x s IH]; simpl; intros H; [reflexivity|].
  apply andb_prop in H; destruct H as [Hx H].
  apply negb_true_iff in Hx. rewrite Hx, IH; auto.
Qed.

Lemma existsb_hit (p : N -> bool) (A B : jsstring) (x : N) :
  p x = true -> existsb p (A ++ x :: B) = true.
Proof.
  intros Hx. rewrite existsb_app. simpl. rewrite Hx. apply orb_true_r.
Qed.

Lemma after_last_quote_cut (A B : jsstring) :
  none (is_char 34) B = true -> after_last_quote (A ++ 34%N :: B) = B.
Proof.
  intros HB. induction A as [|a A IH].
  - change ([] ++ 34%N :: B) with (34%N :: B). cbn [after_last_quote].
    rewrite (none_existsb is_quote B HB). reflexivity.
  - change ((a :: A) ++ 34%N :: B) with (a :: (A ++ 34%N :: B)).
    cbn [after_last_quote].
    rewrite (existsb_hit is_quote A B 34) by reflexivity. exact IH.
Qed.

Lemma in_tag_step (B : jsstring) :
  fold_left (fun acc x => if is_lt x then true else if is_gt x then false else acc)
    B true = false ->
  exists b3 b4, B = b3 ++ 62%N :: b4 /\ none (is_char 62) b3 = true.
Proof.
  induction B as [|x B IH]; simpl; intros H; [discriminate|].
  destruct (is_gt x) eqn:Eg.
  - unfold is_gt, is_char in Eg. apply N.eqb_eq in Eg; subst x.
    exists [], B; auto.
  - assert (H' : fold_left
             (fun acc x => if is_lt x then true else if is_gt x then false else acc)
             B true = false).
    { destruct (is_lt x); exact H. }
    destruct (IH H') as (b3 & b4 & -> & Hb3).
    exists (x :: b3), b4; split; [reflexivity|].
    rewrite none_cons. unfold is_gt in Eg. rewrite Eg, Hb3. reflexivity.
Qed.

(** After a [<] of a string that does not end inside a tag comes a [>]. *)
Lemma in_tag_open (A B : jsstring) :
  in_tag (A ++ 60%N :: B) = false ->
  exists b3 b4, B = b3 ++ 62%N :: b4 /\ none (is_char 62) b3 = true.
Proof.
  unfold in_tag. rewrite fold_left_app. simpl. apply in_tag_step.
Qed.

Lemma all_none_negb (p : N -> bool) (s : jsstring) :
  all p s = none (fun x => negb (p x)) s.
Proof.
  unfold all, none. apply forallb_ext. intros x. symmetry; apply negb_involutive.
Qed.

Lemma all_ends (p : N -> bool) (s : jsstring) :
  s <> [] -> all p s = true -> ends_with_p p s = true.
Proof.
  intros Hs H. destruct (last_cases s) as [-> | (s' & z & ->)]; [contradiction|].
  rewrite ends_with_p_snoc. eapply all_snoc_inv; eauto.
Qed.

Lemma open_text_head (tag attr wo : jsstring) :
  open_text (60%N :: tag) attr wo ->
  none (is_char 62) tag = true -> none (is_char 62) attr = true ->
  exists G, wo = 60%N :: G ++ [34%N] /\ none (is_char 62) G = true.
Proof.
  intros (o & x & X & Pq & -> & Ho & Hx & HX & HP) Ht Ha.
  apply same_cons_inv in Ho; destruct Ho as (g & o' & -> & Hg & Ho).
  apply cieq_nonalpha in Hg; [|reflexivity]; subst g.
  exists (o' ++ [x] ++ X ++ Pq). split.
  - rewrite <- !app_assoc. reflexivity.
  - rewrite !none_app, HX.
    rewrite (same_none_char true 62 tag o'), (attr_eq_no 62 attr Pq); auto.
    simpl. rewrite andb_true_r.
    replace (is_char 62 x) with false; [reflexivity|].
    symmetry. unfold is_char. apply N.eqb_neq; intros ->. discriminate Hx.
Qed.

(** No text of a rule on tags starts in a text that is fit to stand
    before a tag. *)
Lemma no_start_before (tag attr marker pre rest a b w s : jsstring) :
  before_ok marker pre = true ->
  none (is_char 62) tag = true -> none (is_char 62) attr = true ->
  pre = a ++ b -> b <> [] ->
  tagged_text (60%N :: tag) attr marker w ->
  b ++ rest = w ++ s -> False.
Proof.
  intros Hok Htag Hattr -> Hb (bl & wo & u & w3 & -> & Hbl & Hwo & Hu & Hus & Hm) E.
  unfold before_ok in Hok.
  apply andb_prop in Hok; destruct Hok as [Hok P4].
  apply andb_prop in Hok; destruct Hok as [Hok P3].
  apply andb_prop in Hok; destruct Hok as [P1 P2].
  apply negb_true_iff in P1, P2, P3, P4.
  rewrite ends_with_p_app in P1 by exact Hb.
  destruct (open_text_head _ _ _ Hwo Htag Hattr) as (G & -> & HG).
  destruct (url_start_no_gt u Hus) as (sch & u' & -> & Hsg & Hss).
  (* the opening bracket lies in [b] *)
  assert (Hb2 : exists b2, b = bl ++ 60%N :: b2
                /\ b2 ++ rest = G ++ [34%N] ++ (sch ++ u') ++ 34%N :: w3 ++ s).
  { rewrite <- !app_assoc in E. simpl in E.
    apply app_eq_app in E. destruct E as (l & [[E1 E2] | [E1 E2]]).
    - destruct l as [|y l].
      + exfalso. rewrite app_nil_r in E1; subst b.
        rewrite all_ends in P1; auto; discriminate.
      + simpl in E2. injection E2 as <- E2. exists l; split; auto.
        rewrite <- E2, <- !app_assoc. reflexivity.
    - exfalso. subst bl. rewrite all_app in Hbl.
      apply andb_prop in Hbl; destruct Hbl as [Hbl _].
      rewrite all_ends in P1; auto; discriminate. }
  destruct Hb2 as (b2 & -> & E2). clear E.
  (* a closing bracket follows in the text before the tag *)
  rewrite app_assoc in P2. apply in_tag_open in P2.
  destruct P2 as (b3 & b4 & -> & Hb3).
  (* the part up to the scheme lies left of this bracket *)
  rewrite <- !app_assoc in E2.
  replace (G ++ [34%N] ++ sch ++ u' ++ 34%N :: w3 ++ s)
    with ((G ++ [34%N] ++ sch) ++ u' ++ 34%N :: w3 ++ s) in E2
    by (rewrite <- !app_assoc; reflexivity).
  simpl in E2.
  apply (prefix_before_hit (is_char 62)) in E2; [| | apply is_char_refl].
  2:{ rewrite none_app, none_cons, HG, Hsg. reflexivity. }
  destruct E2 as (t & -> & E3).
  (* where the URL ends *)
  assert (E3' : u' ++ 34%N :: (w3 ++ s) = (t ++ 62%N :: b4) ++ rest)
    by (rewrite <- app_assoc; exact E3).
  clear E3. apply app_eq_app in E3'.
  rewrite none_app in Hu. apply andb_prop in Hu; destruct Hu as [Hu1 Hu2].
  destruct E3' as (l & [[E4 E5] | [E4 E5]]).
  - (* beyond the text before the tag, which then ends in an open URL *)
    assert (HP3 : has_scheme_sep
              (after_last_quote
                 (a ++ bl ++ 60%N :: ((G ++ 34%N :: sch) ++ t) ++ 62%N :: b4))
            = true); [|congruence].
    replace (a ++ bl ++ 60%N :: ((G ++ 34%N :: sch) ++ t) ++ 62%N :: b4)
      with ((a ++ bl ++ 60%N :: G) ++ 34%N :: (sch ++ t ++ 62%N :: b4))
      by (norm_app; reflexivity).
    rewrite after_last_quote_cut.
    + unfold has_scheme_sep in *. apply occurs_app_r. exact Hss.
    + rewrite none_app, Hu1. simpl.
      rewrite E4 in Hu2. rewrite none_app in Hu2.
      apply andb_prop in Hu2; destruct Hu2 as [Hu2 _]. exact Hu2.
  - (* inside the text before the tag, which then contains the marker *)
    assert (Hocc : occurs true marker
              (a ++ bl ++ 60%N :: ((G ++ 34%N :: sch) ++ t) ++ 62%N :: b4)
            = true); [|congruence].
    replace (a ++ bl ++ 60%N :: ((G ++ 34%N :: sch) ++ t) ++ 62%N :: b4)
      with ((a ++ bl ++ 60%N :: G ++ [34%N]) ++ (sch ++ u') ++ l).
    + apply occurs_app_l, occurs_app_r. exact Hm.
    + norm_app. rewrite <- E4. reflexivity.
Qed.

(** * Rules that delete a tag *)

Section Trail.

Variable ic : bool.

Lemma not_ws_not_nl (x : N) :
  isWhiteSpace x = false -> atom_match ic (Chr 10) x = false.
Proof.
  intros Hx. rewrite atom_match_chr.
  destruct (cieq ic 10 x) eqn:E; [|reflexivity].
  apply cieq_nonalpha in E; [|reflexivity]. subst x. discriminate Hx.
Qed.

(** The trailing part [\s*\n?] takes all the white space there is. *)
Lemma trail_matcher (s : jsstring) (c : captures) :
  matcher ic (seqs trail) (fun st => Some st) (s, c) = Some (lstrip s, c).
Proof.
  unfold trail, seqs. cbn [fold_right matcher fst snd].
  induction s as [|x s IH]; [reflexivity|].
  cbn [star_greedy lstrip]. rewrite atom_match_ws.
  destruct (isWhiteSpace x) eqn:Hx.
  - rewrite IH. reflexivity.
  - rewrite (not_ws_not_nl x Hx). reflexivity.
Qed.

Lemma lstrip_app (tr post : jsstring) :
  all isWhiteSpace tr = true -> starts_with_p isWhiteSpace post = false ->
  lstrip (tr ++ post) = post.
Proof.
  intros Ht Hp. induction tr as [|x tr IH].
  - destruct post as [|y post]; [reflexivity|].
    simpl in *. rewrite Hp. reflexivity.
  - simpl in Ht. apply andb_prop in Ht; destruct Ht as [Hx Ht].
    simpl. rewrite Hx. auto.
Qed.

End Trail.

Lemma starts_with_p_inv (p : N -> bool) (s : jsstring) :
  starts_with_p p s = true -> exists x s', s = x :: s' /\ p x = true.
Proof. destruct s as [|x s']; [discriminate|]. simpl; eauto. Qed.

Section DeleteRule.

Variable ic : bool.
Variable core : list regex.
Variable T : jsstring.

Hypothesis core_tag : forall c, sem ic (seqs core) T c c.
Hypothesis core_unique :
  forall rest w s c c', sem ic (seqs core) w c c' -> w ++ s = T ++ rest ->
    w = T /\ s = rest /\ c' = c.
Hypothesis core_head :
  forall w c c', sem ic (seqs core) w c c' ->
    starts_with_p (fun x => negb (is_blank x)) w = true.

Variables ind tr post : jsstring.
Hypothesis ind_blank : all is_blank ind = true.
Hypothesis tr_ws : all isWhiteSpace tr = true.
Hypothesis post_start : starts_with_p isWhiteSpace post = false.

(** At the indentation of the tag the expression matches up to the end of
    the white space after the tag. *)
Lemma delete_exec_tag :
  exec_at (mkRegExp (delete_tree core) ic) (ind ++ T ++ tr ++ post)
  = Some (post, []).
Proof.
  unfold exec_at, delete_tree. cbn [re_tree re_ignoreCase].
  rewrite app_assoc, matcher_seqs_app.
  rewrite (matcher_unique ic (seqs ([Star blank] ++ core)) _ _ (tr ++ post) [] []).
  - rewrite trail_matcher, lstrip_app; auto.
  - intros w s' c' E H.
    apply (sem_seqs_app ic [Star blank]) in H.
    destruct H as (bl & wc & c1 & -> & Hbl & Hc).
    apply (proj1 (sem_seqs_one _ _ _ _ _)) in Hbl. destruct Hbl as [Hbl ->].
    rewrite all_blank in Hbl.
    destruct (starts_with_p_inv _ _ (core_head _ _ _ (core_tag [])))
      as (x & T' & ET & Hx).
    destruct (starts_with_p_inv _ _ (core_head _ _ _ Hc)) as (y & wc' & Ew & Hy).
    rewrite <- !app_assoc in E. pose proof E as E'.
    rewrite ET, Ew in E'. cbn [app] in E'.
    apply (first_hit (fun x => negb (is_blank x))) in E';
      try (rewrite <- all_none_negb); auto.
    destruct E' as (<- & <- & E').
    destruct (core_unique (tr ++ post) wc s' [] c' Hc) as (_ & -> & ->); auto.
    rewrite Ew, ET. simpl. f_equal. symmetry; exact E'.
  - exists (ind ++ T). split; [rewrite <- !app_assoc; reflexivity|].
    apply (sem_seqs_app ic [Star blank]).
    exists ind, T, []. repeat split; auto.
    apply sem_seqs_one. split; auto. rewrite all_blank; auto.
Qed.

End DeleteRule.

(** * The texts of the rules on tags start like a tag *)

Lemma url_has_requires (m : jsstring) (url : list regex) :
  requires m (seqs url) = true -> url_has m url.
Proof. intros H u c c' Hu. eapply requires_sem; eauto. Qed.

Lemma tagged_core (tag attr m : jsstring) (url cl : list regex)
  (w : jsstring) (c c' : captures) :
  url_ok url -> url_has m url ->
  (forall x d d', sem true (seqs cl) x d d' -> exists w3, x = 34%N :: w3) ->
  sem true (seqs (attr_open tag attr ++ url ++ cl)) w c c' ->
  tagged_text tag attr m w.
Proof.
  intros [Hg Hurl] Hm Hcl H.
  apply (sem_seqs_app true (attr_open tag attr)) in H.
  destruct H as (wo & r & c1 & -> & Ho & H).
  apply sem_attr_open in Ho; destruct Ho as [Ho ->].
  apply (sem_seqs_app true url) in H.
  destruct H as (u & wc & c2 & -> & Hu & Hc).
  destruct (Hurl _ _ _ Hu) as [Huq Hus].
  destruct (Hcl _ _ _ Hc) as (w3 & ->).
  exists [], wo, u, w3. repeat split; eauto.
Qed.

Lemma tagged_blank (tag attr m bl w r : jsstring) :
  all is_blank bl = true -> tagged_text tag attr m w ->
  tagged_text tag attr m (bl ++ w ++ r).
Proof.
  intros Hbl (bl' & wo & u & w3 & -> & Hbl' & Ho & Hu & Hus & Hm).
  exists (bl ++ bl'), wo, u, (w3 ++ r). repeat split; auto.
  - rewrite <- !app_assoc. reflexivity.
  - rewrite all_app, Hbl, Hbl'. reflexivity.
Qed.

Lemma tagged_delete (tag attr m : jsstring) (core : list regex)
  (w : jsstring) (c c' : captures) :
  (forall x d d', sem true (seqs core) x d d' -> tagged_text tag attr m x) ->
  sem true (delete_tree core) w c c' -> tagged_text tag attr m w.
Proof.
  intros Hcore H. unfold delete_tree in H.
  apply (sem_seqs_app true [Star blank]) in H.
  destruct H as (bl & r & c1 & -> & Hbl & H).
  apply (proj1 (sem_seqs_one _ _ _ _ _)) in Hbl. destruct Hbl as [Hbl ->].
  rewrite all_blank in Hbl.
  apply (sem_seqs_app true core) in H.
  destruct H as (wc & wt & c2 & -> & Hc & _).
  apply tagged_blank; eauto.
Qed.

Lemma script_close_quote (x : jsstring) (d d' : captures) :
  sem true (seqs script_close) x d d' -> exists w3, x = 34%N :: w3.
Proof.
  intros H. apply sem_script_close in H.
  destruct H as [(Y & cl & -> & _) _]. exists (Y ++ cl); reflexivity.
Qed.

Lemma tagged_script (m : jsstring) (url : list regex)
  (w : jsstring) (c c' : captures) :
  url_ok url -> url_has m url ->
  sem true (delete_tree (script_core url)) w c c' ->
  tagged_text (codes "<script") (codes "src") m w.
Proof.
  intros Hok Hm. apply tagged_delete. intros x d d'.
  apply tagged_core; auto. apply script_close_quote.
Qed.

(** No match of a rule on tags starts in a text fit to stand before a
    tag. *)
Lemma no_match_before (R : RegExp) (tag attr m pre rest : jsstring) :
  (forall w c, sem (re_ignoreCase R) (re_tree R) w [] c ->
     tagged_text (60%N :: tag) attr m w) ->
  before_ok m pre = true ->
  none (is_char 62) tag = true -> none (is_char 62) attr = true ->
  forall a b, pre = a ++ b -> b <> [] -> exec_at R (b ++ rest) = None.
Proof.
  intros HR Hpre Htag Hattr a b E Hb.
  destruct (exec_at R (b ++ rest)) as [[s' c]|] eqn:Ex; [|reflexivity].
  exfalso. apply exec_at_sound in Ex. destruct Ex as (w & Ew & Hw).
  eapply (no_start_before tag attr m pre rest a b w s'); eauto.
Qed.

Section TagRule.

Variable R : RegExp.
Variable tmpl : jsstring.
Variables tag attr m : jsstring.

Hypothesis R_tagged :
  forall w c, sem (re_ignoreCase R) (re_tree R) w [] c ->
    tagged_text (60%N :: tag) attr m w.
Hypothesis tag_ok : none (is_char 62) tag = true.
Hypothesis attr_ok : none (is_char 62) attr = true.


(** Without the match: the text before is copied all the same. *)
Lemma replace_tag_before (pre post : jsstring) :
  before_ok m pre = true ->
  replace_from R tmpl 0 (pre ++ post) = pre ++ replace_from R tmpl 0 post.
Proof.
  intros Hpre. rewrite replace_prefix_none; [reflexivity|].
  eapply no_match_before; eauto.
Qed.

End TagRule.

(** * The rules that delete a script *)


Section ScriptDelete.

Variable url : list regex.
Variable m : jsstring.
Hypothesis url_is_ok : url_ok url.
Hypothesis url_m : url_has m url.

Variable tmpl : jsstring.
Hypothesis tmpl_plain : none (is_char 36) tmpl = true.

Variables pre ind A1 U A2 tr post : jsstring.
Hypothesis pre_ok : before_ok m pre = true.
Hypothesis ind_blank : all is_blank ind = true.
Hypothesis A1_ok : attrs_after_name A1 = true.
Hypothesis A2_ok : attrs_ok A2 = true.
Hypothesis U_noq : none (is_char 34) U = true.
Hypothesis U_url : forall c, sem true (seqs url) U c c.
Hypothesis tr_ws : all isWhiteSpace tr = true.
Hypothesis post_start : starts_with_p isWhiteSpace post = false.



End ScriptDelete.

(** * The pipeline as a list of calls *)

Lemma transformIndexHtml_run (p html : jsstring) :
  transformIndexHtml (Some p) html = run steps html.
Proof. reflexivity. Qed.

Lemma run_app (l1 l2 : list (option RegExp * jsstring)) (s : jsstring) :
  run (l1 ++ l2) s = (s' <- run l1 s ;; run l2 s').
Proof.
  revert s; induction l1 as [|[R t] l1 IH]; intros s; [reflexivity|].
  simpl. destruct (replace R t s) as [s'|]; simpl; auto.
Qed.

(** Calls whose markers are absent leave the string as it is. *)
Lemma run_quiet (l : list (option RegExp * jsstring))
  (ms : list (bool * jsstring)) (s : jsstring) :
  Forall2 (fun st mk => requires_in (fst mk) (snd mk) (fst st) = true) l ms ->
  quiet ms s = true -> run l s = Some s.
Proof.
  intros H; induction H as [|[R t] [ic m] l ms Hr H IH]; intros Hq;
    [reflexivity|].
  simpl in Hq. apply andb_prop in Hq; destruct Hq as [Hm Hq].
  apply negb_true_iff in Hm. simpl in Hr. simpl.
  rewrite (replace_absent ic m R t s Hr Hm). simpl. auto.
Qed.

Lemma steps_markers :
  Forall2 (fun st mk => requires_in (fst mk) (snd mk) (fst st) = true)
    steps step_markers.
Proof. repeat constructor. Qed.

Lemma Forall2_firstn (A B : Type) (P : A -> B -> Prop) (k : nat) :
  forall l l', Forall2 P l l' -> Forall2 P (firstn k l) (firstn k l').
Proof.
  induction k as [|k IH]; intros l l' H; [constructor|].
  destruct H; simpl; constructor; auto.
Qed.

Lemma Forall2_skipn (A B : Type) (P : A -> B -> Prop) (k : nat) :
  forall l l', Forall2 P l l' -> Forall2 P (skipn k l) (skipn k l').
Proof.
  induction k as [|k IH]; intros l l' H; [exact H|].
  destruct H; simpl; [constructor | auto].
Qed.

Lemma nth_error_cut (A : Type) (k : nat) :
  forall (l : list A) (x : A), nth_error l k = Some x ->
    l = firstn k l ++ x :: skipn (S k) l.
Proof.
  induction k as [|k IH]; intros [|y l] x H; simpl in *; try discriminate.
  - injection H as ->; reflexivity.
  - f_equal; auto.
Qed.

(** One call does its work, the calls before it find no marker in the
    document, and the calls after it none in its result. *)
Lemma run_at (k : nat) (R : option RegExp) (tmpl doc out : jsstring) :
  nth_error steps k = Some (R, tmpl) ->
  quiet (markers_before k) doc = true ->
  replace R tmpl doc = Some out ->
  quiet (markers_after k) out = true ->
  run steps doc = Some out.
Proof.
  intros Hk Hb Hr Ha.
  rewrite (nth_error_cut _ k steps _ Hk), run_app.
  rewrite (run_quiet _ (markers_before k) doc);
    [| apply Forall2_firstn, steps_markers | exact Hb].
  cbn [bind run]. rewrite Hr. cbn [bind].
  apply (run_quiet _ (markers_after k));
    [apply (Forall2_skipn _ _ _ (S k)), steps_markers | exact Ha].
Qed.

(** * The Tailwind script *)







(** The limits of the rule: a Tailwind script tag with its URL in single
    quotes is kept, and deleting a tag can bring the parts of another one
    together. *)
Lemma tailwind_kept :
  transformIndexHtml (Some (codes "linux")) tailwind_single_quoted
  = Some tailwind_single_quoted
  /\ transformIndexHtml (Some (codes "linux")) tailwind_nested
     = Some tailwind_plain.
Proof. split; vm_compute; reflexivity. Qed.


(** * The script of the PDF library *)


Lemma url_html2pdf_has : url_has (codes "html2pdf") (url_contains (codes "html2pdf")).
Proof. apply url_has_requires. reflexivity. Qed.

Lemma url_html2pdf_ok : url_ok (url_contains (codes "html2pdf")).
Proof. apply url_contains_ok. reflexivity. Qed.



(** The attributes are not arbitrary: a [>] in one of
    them keeps the tag from being replaced. *)
Lemma html2pdf_kept :
  transformIndexHtml (Some (codes "linux")) html2pdf_gt_in_attr
  = Some html2pdf_gt_in_attr.
Proof. vm_compute; reflexivity. Qed.


(** * The rules that redirect a script *)

Lemma sem_redirect (url : list regex) (w : jsstring) (c c' : captures) :
  forallb groupless url = true ->
  (sem true (redirect_tree url) w c c'
   <-> exists wo u wc, w = wo ++ u ++ wc
         /\ open_text (codes "<script") (codes "src") wo
         /\ sem true (seqs url) u c c /\ close_text wc
         /\ c' = (2, wc) :: (1, wo) :: c).
Proof.
  intros Hg. unfold redirect_tree. rewrite sem_seqs_cons. split.
  - intros (wo & r & c1 & -> & (c0 & Ho & ->) & H).
    apply sem_attr_open in Ho; destruct Ho as [Ho ->].
    apply (sem_seqs_app true url) in H.
    destruct H as (u & wc & c2 & -> & Hu & Hc).
    destruct (sem_groupless true (seqs url) (groupless_seqs url Hg) _ _ _ Hu)
      as [-> Hu'].
    apply (proj1 (sem_seqs_one _ _ _ _ _)) in Hc.
    destruct Hc as (c3 & Hc & ->).
    apply sem_script_close in Hc; destruct Hc as [Hc ->].
    exists wo, u, wc. repeat split; auto.
  - intros (wo & u & wc & -> & Ho & Hu & Hc & ->).
    exists wo, (u ++ wc), ((1, wo) :: c). repeat split.
    + exists c. split; auto. apply sem_attr_open; auto.
    + apply (sem_seqs_app true url).
      exists u, wc, ((1, wo) :: c). repeat split.
      * apply (sem_groupless true (seqs url) (groupless_seqs url Hg) _ _ _ Hu).
      * apply sem_seqs_one. exists ((1, wo) :: c). split; auto.
        apply sem_script_close; auto.
Qed.

(** The parts of a text of a script expression that starts where a tag
    starts are the parts of the tag. *)
Lemma script_parts (A1 U A2 rest wo u wc s : jsstring) :
  attrs_after_name A1 = true -> attrs_ok A2 = true ->
  none (is_char 34) U = true ->
  open_text (codes "<script") (codes "src") wo ->
  none (is_char 34) u = true -> url_start u -> close_text wc ->
  wo ++ u ++ wc ++ s = script_tag A1 U A2 ++ rest ->
  wo = codes "<script" ++ A1 ++ codes "src=" ++ Q /\ u = U
  /\ wc = Q ++ A2 ++ codes "></script>" /\ s = rest.
Proof.
  intros HA1 HA2 HU (o & x & X & Pq & -> & Ho & Hx & HX & HP) Huq Hus
    (Y & cl & -> & HY & Hcl) E.
  destruct (A1_parts A1 HA1) as (x0 & A1' & EA1 & Hx0 & HA1' & HA1g & HA1s).
  pose proof (same_length _ _ _ Hcl) as Hlen.
  apply same_cons_inv in Hcl; destruct Hcl as (g & cl' & -> & Hg' & Hcl).
  apply cieq_nonalpha in Hg'; [|reflexivity]; subst g.
  unfold script_tag, Q in E. rewrite <- !app_assoc in E.
  apply app_eq_length in E; [|apply (same_length _ _ _ Ho)].
  destruct E as [-> E].
  assert (E2 : ([x] ++ X ++ Pq) ++ 34%N :: u ++ 34%N :: Y ++ 62%N :: (cl' ++ s)
               = (A1 ++ codes "src=") ++ 34%N :: U ++ 34%N :: A2
                 ++ 62%N :: (codes "</script>" ++ rest)).
  { rewrite <- !app_assoc. exact E. }
  apply tag_align in E2; auto.
  - destruct E2 as (EL & -> & -> & Ee).
    apply app_eq_length in Ee; [|simpl in Hlen; injection Hlen as Hlen; exact Hlen].
    destruct Ee as [-> ->].
    repeat split; auto.
    unfold Q. rewrite (app_assoc [x]), (app_assoc ([x] ++ X)).
    rewrite <- (app_assoc [x]), EL, <- !app_assoc. reflexivity.
  - change ([x] ++ X ++ Pq) with (x :: X ++ Pq).
    rewrite none_cons, none_app, HX.
    rewrite (attr_eq_no 62 (codes "src") Pq); auto.
    rewrite andb_true_r. apply negb_true_iff. unfold is_char.
    apply N.eqb_neq; intros ->. discriminate Hx.
Qed.

Lemma script_tag_open (A1 : jsstring) :
  attrs_after_name A1 = true ->
  open_text (codes "<script") (codes "src")
    (codes "<script" ++ A1 ++ codes "src=" ++ Q).
Proof.
  intros HA1.
  destruct (A1_parts A1 HA1) as (x & A1' & E & Hx & HA1' & _ & _).
  exists (codes "<script"), x, A1', (codes "src=").
  rewrite E. repeat split; auto.
  apply (attr_eq_exact (codes "src")).
Qed.

Lemma script_tag_close (A2 : jsstring) :
  attrs_ok A2 = true -> close_text (Q ++ A2 ++ codes "></script>").
Proof.
  intros HA2. unfold attrs_ok in HA2.
  apply andb_prop in HA2; destruct HA2 as [HA2 _].
  exists A2, (codes "></script>"); repeat split; auto.
Qed.

Section ScriptRedirect.

Variable url : list regex.
Variable m : jsstring.
Hypothesis url_is_ok : url_ok url.
Hypothesis url_m : url_has m url.

Variables A1 U A2 : jsstring.
Hypothesis A1_ok : attrs_after_name A1 = true.
Hypothesis A2_ok : attrs_ok A2 = true.
Hypothesis U_noq : none (is_char 34) U = true.
Hypothesis U_url : forall c, sem true (seqs url) U c c.

(** At the start of the tag the expression matches the tag, with the text
    up to the opening quote and the text from the closing quote on as its
    two groups. *)
Lemma redirect_exec (post : jsstring) :
  exec_at (mkRegExp (redirect_tree url) true) (script_tag A1 U A2 ++ post)
  = Some (post, [ (2, Q ++ A2 ++ codes "></script>");
                  (1, codes "<script" ++ A1 ++ codes "src=" ++ Q) ]).
Proof.
  destruct url_is_ok as [Hg Hurl].
  unfold exec_at. cbn [re_tree re_ignoreCase].
  apply (matcher_unique true (redirect_tree url) (fun st => Some st)).
  - intros w s' c' E H.
    apply sem_redirect in H; [|exact Hg].
    destruct H as (wo & u & wc & -> & Ho & Hu & Hc & ->).
    destruct (Hurl _ _ _ Hu) as [Huq Hus].
    destruct (script_parts A1 U A2 post wo u wc s') as (-> & -> & -> & ->); auto.
    rewrite E, <- !app_assoc. reflexivity.
  - exists (script_tag A1 U A2). split; [reflexivity|].
    apply sem_redirect; [exact Hg|].
    exists (codes "<script" ++ A1 ++ codes "src=" ++ Q), U,
      (Q ++ A2 ++ codes "></script>").
    repeat split; auto using script_tag_open, script_tag_close.
    unfold script_tag. rewrite <- !app_assoc. reflexivity.
Qed.

Lemma tagged_redirect (w : jsstring) (c c' : captures) :
  sem true (redirect_tree url) w c c' ->
  tagged_text (codes "<script") (codes "src") m w.
Proof.
  destruct url_is_ok as [Hg Hurl]. intros H.
  apply sem_redirect in H; [|exact Hg].
  destruct H as (wo & u & wc & -> & Ho & Hu & (Y & cl & -> & _) & _).
  destruct (Hurl _ _ _ Hu) as [Huq Hus].
  exists [], wo, u, (Y ++ cl). repeat split; eauto.
Qed.

(** No match starts at a space or tab. *)
Lemma redirect_not_at_blank (ind rest : jsstring) :
  all is_blank ind = true ->
  forall a b, ind = a ++ b -> b <> [] ->
    exec_at (mkRegExp (redirect_tree url) true) (b ++ rest) = None.
Proof.
  destruct url_is_ok as [Hg Hurl].
  intros Hind a b -> Hb.
  rewrite all_app in Hind. apply andb_prop in Hind; destruct Hind as [_ Hbl].
  destruct b as [|y b]; [contradiction|].
  simpl in Hbl. apply andb_prop in Hbl; destruct Hbl as [Hy _].
  destruct (exec_at _ _) as [[s' c]|] eqn:Ex; [|reflexivity].
  exfalso. apply exec_at_sound in Ex. destruct Ex as (w & Ew & Hw).
  cbn [re_tree re_ignoreCase] in Hw.
  apply sem_redirect in Hw; [|exact Hg].
  destruct Hw as (wo & u & wc & -> & (o & x & X & Pq & -> & Ho & _) & _).
  apply same_cons_inv in Ho; destruct Ho as (g & o' & -> & Hg' & _).
  apply cieq_nonalpha in Hg'; [|reflexivity]; subst g.
  simpl in Ew. injection Ew as -> _. discriminate Hy.
Qed.

Lemma redirect_rule (tmpl pre ind post : jsstring) :
  before_ok m pre = true -> all is_blank ind = true ->
  replace_from (mkRegExp (redirect_tree url) true) tmpl 0
    (pre ++ ind ++ script_tag A1 U A2 ++ post)
  = pre ++ ind
    ++ substitute tmpl (script_tag A1 U A2)
         [ (2, Q ++ A2 ++ codes "></script>");
           (1, codes "<script" ++ A1 ++ codes "src=" ++ Q) ]
    ++ replace_from (mkRegExp (redirect_tree url) true) tmpl 0 post.
Proof.
  intros Hpre Hind.
  rewrite (replace_tag_before _ tmpl (codes "script") (codes "src") m); auto.
  - f_equal. rewrite replace_prefix_none by (apply redirect_not_at_blank; exact Hind).
    f_equal. apply replace_step_match.
    + unfold script_tag. discriminate.
    + apply redirect_exec.
  - intros w c. cbn [re_ignoreCase re_tree]. apply tagged_redirect.
Qed.

End ScriptRedirect.

Lemma url_ends_text (file sch P : jsstring) (c : captures) :
  is_scheme sch = true -> none (is_char 34) P = true ->
  sem true (seqs (url_ends file)) (sch ++ P ++ file) c c.
Proof.
  intros Hs HP. unfold url_ends.
  apply (sem_seqs_app true scheme).
  exists sch, (P ++ file), c. repeat split.
  - apply sem_scheme; auto.
  - apply sem_star_notq. exists P, file. repeat split; auto.
    apply sem_lits; split; auto using same_refl.
Qed.

Lemma redirect_generic (file loc tmpl : jsstring) (Ro : option RegExp)
  (pre ind A1 sch P A2 post : jsstring) :
  Ro = Some (mkRegExp (redirect_tree (url_ends file)) true) ->
  none (is_char 34) file = true -> url_has file (url_ends file) ->
  (forall M g1 g2, substitute tmpl M [(2, g2); (1, g1)] = g1 ++ loc ++ g2) ->
  before_ok file pre = true -> all is_blank ind = true ->
  attrs_after_name A1 = true -> attrs_ok A2 = true ->
  is_scheme sch = true -> none (is_char 34) P = true ->
  replace Ro tmpl (pre ++ ind ++ script_tag A1 (sch ++ P ++ file) A2 ++ post)
  = (post' <- replace Ro tmpl post ;;
     Some (pre ++ ind ++ script_tag A1 loc A2 ++ post')).
Proof.
  intros -> Hf Hhas Hsub Hpre Hind HA1 HA2 Hs HP.
  cbn [replace bind]. f_equal.
  rewrite (redirect_rule (url_ends file) file (url_ends_ok file Hf) Hhas
             A1 (sch ++ P ++ file) A2 HA1 HA2); auto.
  - rewrite Hsub. unfold script_tag. rewrite <- !app_assoc. reflexivity.
  - rewrite !none_app, HP, Hf, (is_scheme_no 34 sch); auto.
  - intros c. apply url_ends_text; auto.
Qed.

(** X3.  A script tag written as [script_tag] has it, whose double-quoted
    absolute URL ends in [/viz.js] or [/full.render.js] and whose attribute
    text is free of [>] and [://], standing after spaces and tabs [ind] and
    a text [pre] that does not end in a space or tab, inside a tag or after
    a quote that opens a URL, and does not hold the file name: the rule of
    the file exchanges the URL for the local path, leaves every other code
    unit of the tag, [ind] and [pre] as they are, and rewrites what follows
    the tag on its own.  When the calls before the rule find no marker in
    the document, the file name does not come again, and the calls after
    the rule find no marker in the result, this is the result of the whole
    function. *)
Theorem script_redirect (k : nat) (file loc : jsstring) (R : option RegExp)
  (tmpl pre ind A1 sch P A2 post p : jsstring) :
  In (k, file, loc) script_redirects ->
  nth_error steps k = Some (R, tmpl) ->
  before_ok file pre = true -> all is_blank ind = true ->
  attrs_after_name A1 = true -> attrs_ok A2 = true ->
  is_scheme sch = true -> none (is_char 34) P = true ->
  replace R tmpl (pre ++ ind ++ script_tag A1 (sch ++ P ++ file) A2 ++ post)
  = (post' <- replace R tmpl post ;;
     Some (pre ++ ind ++ script_tag A1 loc A2 ++ post'))
  /\ (quiet (markers_before k)
        (pre ++ ind ++ script_tag A1 (sch ++ P ++ file) A2 ++ post) = true ->
      occurs true file post = false ->
      quiet (markers_after k) (pre ++ ind ++ script_tag A1 loc A2 ++ post) = true ->
      transformIndexHtml (Some p)
        (pre ++ ind ++ script_tag A1 (sch ++ P ++ file) A2 ++ post)
      = Some (pre ++ ind ++ script_tag A1 loc A2 ++ post)).
Proof.
  intros Hin Hk Hpre Hind HA1 HA2 Hs HP.
  assert (E : replace R tmpl
                (pre ++ ind ++ script_tag A1 (sch ++ P ++ file) A2 ++ post)
              = (post' <- replace R tmpl post ;;
                 Some (pre ++ ind ++ script_tag A1 loc A2 ++ post'))
              /\ requires_in true file R = true).
  { destruct Hin as [Hin | [Hin | []]]; injection Hin as <- <- <-.
    - change (nth_error steps at_viz)
        with (Some (re_viz, codes "$1./vendor/js/viz.js$2")) in Hk.
      injection Hk as <- <-. split; [|reflexivity].
      apply redirect_generic;
        [ apply re_viz_tree | reflexivity | apply url_has_requires; reflexivity
        | intros M g1 g2; cbv - [app]; rewrite app_nil_r; reflexivity
        | assumption .. ].
    - change (nth_error steps at_fullrender)
        with (Some (re_fullrender, codes "$1./vendor/js/full.render.js$2")) in Hk.
      injection Hk as <- <-. split; [|reflexivity].
      apply redirect_generic;
        [ apply re_fullrender_tree | reflexivity | apply url_has_requires; reflexivity
        | intros M g1 g2; cbv - [app]; rewrite app_nil_r; reflexivity
        | assumption .. ]. }
  destruct E as [E Hreq]. split; [exact E|].
  intros Hb Hp Ha. rewrite transformIndexHtml_run.
  apply (run_at k R tmpl); auto.
  rewrite E, (replace_absent true file); auto.
Qed.

(** The limit of the rule: with a second URL in a later attribute of the
    tag, the rule rewrites that attribute and leaves [src] as it was. *)
Lemma script_redirect_other_attribute :
  transformIndexHtml (Some (codes "linux")) viz_two_urls = Some viz_two_urls_out.
Proof. vm_compute; reflexivity. Qed.

Lemma script_redirect_witness :
  transformIndexHtml (Some (codes "linux"))
    ((codes "<body>" ++ NL) ++ codes "  "
     ++ script_tag (codes " defer ")
          (codes "https://" ++ codes "cdn.example/npm/viz.js@2.1.2" ++ codes "/viz.js")
          (codes " crossorigin")
     ++ NL ++ codes "</body>")
  = Some ((codes "<body>" ++ NL) ++ codes "  "
          ++ script_tag (codes " defer ") (codes "./vendor/js/viz.js")
               (codes " crossorigin")
          ++ NL ++ codes "</body>").
Proof.
  apply (script_redirect at_viz (codes "/viz.js") (codes "./vendor/js/viz.js")
           re_viz (codes "$1./vendor/js/viz.js$2")
           (codes "<body>" ++ NL) (codes "  ") (codes " defer ")
           (codes "https://") (codes "cdn.example/npm/viz.js@2.1.2")
           (codes " crossorigin") (NL ++ codes "</body>") (codes "linux"));
    try (vm_compute; reflexivity).
  left; reflexivity.
Defined.

(** * The import map *)











Section ImportMap.

Variables ind body tr post : jsstring.
Hypothesis ind_blank : all is_blank ind = true.
Hypothesis body_open : occurs true (codes "</script>") body = false.
Hypothesis tr_ws : all isWhiteSpace tr = true.
Hypothesis post_start : starts_with_p isWhiteSpace post = false.


End ImportMap.

Lemma all_blank_none (c : N) (bl : jsstring) :
  is_blank c = false -> all is_blank bl = true -> none (is_char c) bl = true.
Proof.
  intros Hc. induction bl as [|y bl IH]; intros H; [reflexivity|].
  simpl in H. apply andb_prop in H; destruct H as [Hy H].
  rewrite none_cons, IH by exact H. rewrite andb_true_r.
  apply negb_true_iff. unfold is_char. apply N.eqb_neq; intros ->.
  congruence.
Qed.


Lemma blank_not_lt (bl t r : jsstring) :
  all is_blank (bl ++ 60%N :: t) = true -> False.
Proof.
  rewrite all_app. intros H. apply andb_prop in H; destruct H as [_ H].
  simpl in H. discriminate H.
Qed.





(** A mention of the import map after the block is no part of it and
    stays. *)
Lemma importmap_named_later_kept :
  transformIndexHtml (Some (codes "linux")) importmap_named_later
  = Some (codes "<!-- importmap removed -->").
Proof. vm_compute; reflexivity. Qed.

(** * The marker comments *)

Lemma re_comment_tree (k : nat) (text : string) :
  In (k, text) comment_steps ->
  re_comment text = Some (mkRegExp (comment_tree text) false)
  /\ nth_error steps k = Some (re_comment text, []).
Proof.
  unfold comment_steps; simpl.
  intros [E | [E | [E | []]]]; injection E as <- <-; split;
    vm_compute; reflexivity.
Qed.

(** Without the [i] flag a text is matched by itself only. *)
Lemma same_false_eq (p w : jsstring) : same false p w = true -> w = p.
Proof.
  revert w; induction p as [|a p IH]; intros [|x w] H; simpl in *;
    try discriminate; auto.
  apply andb_prop in H; destruct H as [H1 H2].
  unfold cieq, canonicalize in H1. simpl in H1.
  apply N.eqb_eq in H1. subst. f_equal; auto.
Qed.

Section Comment.

(** A text that begins with [<], has no other [<], and does not end in a
    space or tab. *)
Variable C' : jsstring.
Hypothesis C'_no_lt : none (is_char 60) C' = true.
Hypothesis C'_end : ends_with_p is_blank C' = false.

Let cm : jsstring := 60%N :: C'.
Let R : RegExp := mkRegExp (delete_tree (lits cm)) false.

Lemma comment_sem (w : jsstring) (c c' : captures) :
  sem false (delete_tree (lits cm)) w c c' ->
  exists bl wt, w = bl ++ cm ++ wt /\ all is_blank bl = true.
Proof.
  intros H. unfold delete_tree in H.
  apply (sem_seqs_app false [Star blank]) in H.
  destruct H as (bl & r & c1 & -> & Hbl & H).
  apply (proj1 (sem_seqs_one _ _ _ _ _)) in Hbl. destruct Hbl as [Hbl ->].
  rewrite all_blank in Hbl.
  apply (sem_seqs_app false (lits cm)) in H.
  destruct H as (wc & wt & c2 & -> & Hc & _).
  apply sem_lits in Hc. destruct Hc as [Hc _].
  apply same_false_eq in Hc. subst wc. eauto.
Qed.

Lemma comment_not_before (pre ind rest : jsstring) :
  ends_with_p is_blank pre = false ->
  occurs false cm pre = false ->
  all is_blank ind = true ->
  forall a b, pre = a ++ b -> b <> [] ->
    exec_at R (b ++ ind ++ cm ++ rest) = None.
Proof.
  intros Hend Hocc Hind a b -> Hb.
  destruct (exec_at _ _) as [[s' c]|] eqn:Ex; [|reflexivity].
  exfalso. apply exec_at_sound in Ex. destruct Ex as (w & Ew & Hw).
  cbn [re_tree re_ignoreCase R] in Hw.
  apply comment_sem in Hw. destruct Hw as (bl & wt & -> & Hbl).
  rewrite ends_with_p_app in Hend by exact Hb.
  assert (E : (b ++ ind) ++ 60%N :: (C' ++ rest)
              = bl ++ 60%N :: (C' ++ wt ++ s')).
  { revert Ew. unfold cm. norm_app. intros Ew; exact Ew. }
  clear Ew. apply cut_trichotomy in E.
  destruct E as [(E & _ & _) | [(t & E & E2) | (t & E & E2)]].
  - rewrite <- E, all_app in Hbl. apply andb_prop in Hbl; destruct Hbl as [Hb' _].
    rewrite all_ends in Hend; auto; discriminate.
  - rewrite E, <- app_assoc in Hbl.
    rewrite all_app in Hbl. apply andb_prop in Hbl; destruct Hbl as [_ Hbl].
    eapply blank_not_lt; eauto.
  - apply hit_in_prefix in E; [|apply all_blank_none; auto].
    destruct E as (l & -> & ->).
    symmetry in E2. apply (prefix_before_hit (is_char 60)) in E2;
      [|exact C'_no_lt | apply is_char_refl].
    destruct E2 as (t2 & E2 & _).
    assert (Hin : exists l0, l = C' ++ l0).
    { apply app_eq_app in E2. destruct E2 as (l0 & [[E1 E3] | [E1 E3]]).
      - eauto.
      - destruct l0 as [|y l0]; [exists []; rewrite E1, !app_nil_r; reflexivity|].
        exfalso. rewrite E1, ends_with_p_app in C'_end by discriminate.
        rewrite all_ends in C'_end; [discriminate | discriminate |].
        rewrite E3, all_app in Hind. apply andb_prop in Hind; tauto. }
    destruct Hin as (l0 & ->).
    rewrite occurs_app_l in Hocc; [discriminate|].
    replace (bl ++ 60%N :: C' ++ l0) with (bl ++ cm ++ l0) by reflexivity.
    apply occurs_intro. apply same_refl.
Qed.

Lemma comment_exec (ind tr post : jsstring) :
  all is_blank ind = true -> all isWhiteSpace tr = true ->
  starts_with_p isWhiteSpace post = false ->
  exec_at R (ind ++ cm ++ tr ++ post) = Some (post, []).
Proof.
  intros Hind Htr Hpost. apply delete_exec_tag; auto.
  - intros c. apply sem_lits; auto using same_refl.
  - intros rest w s c c' H E. apply sem_lits in H; destruct H as [H ->].
    apply same_false_eq in H. subst w. apply app_inv_head in E. auto.
  - intros w c c' H. apply sem_lits in H; destruct H as [H _].
    apply same_false_eq in H. subst w. reflexivity.
Qed.

Lemma comment_rule (pre ind tr post : jsstring) :
  ends_with_p is_blank pre = false ->
  occurs false cm pre = false ->
  all is_blank ind = true -> all isWhiteSpace tr = true ->
  starts_with_p isWhiteSpace post = false ->
  replace_from R [] 0 (pre ++ ind ++ cm ++ tr ++ post)
  = pre ++ replace_from R [] 0 post.
Proof.
  intros Hend Hocc Hind Htr Hpost.
  rewrite replace_prefix_none by (apply comment_not_before; auto).
  f_equal.
  replace (ind ++ cm ++ tr ++ post) with ((ind ++ cm ++ tr) ++ post)
    by (norm_app; reflexivity).
  rewrite (replace_step_match _ [] _ post []).
  - reflexivity.
  - unfold cm. destruct ind; discriminate.
  - rewrite <- !app_assoc. apply comment_exec; auto.
Qed.

End Comment.

(** Calls whose markers are absent are idle. *)
Lemma quiet_idle_before (k : nat) (s : jsstring) :
  quiet (markers_before k) s = true -> idle_before k s.
Proof.
  intros H. apply (run_quiet _ (markers_before k)); auto.
  apply Forall2_firstn, steps_markers.
Qed.

(** One call does its work, the calls before it are idle, and the calls
    after it find no marker in its result. *)
Lemma run_at_idle (k : nat) (R : option RegExp) (tmpl doc out : jsstring) :
  nth_error steps k = Some (R, tmpl) ->
  idle_before k doc ->
  replace R tmpl doc = Some out ->
  quiet (markers_after k) out = true ->
  run steps doc = Some out.
Proof.
  intros Hk Hb Hr Ha.
  rewrite (nth_error_cut _ k steps _ Hk), run_app.
  rewrite Hb. cbn [bind run]. rewrite Hr. cbn [bind].
  apply (run_quiet _ (markers_after k));
    [apply (Forall2_skipn _ _ _ (S k)), steps_markers | exact Ha].
Qed.

(** X6. Each of the three marker comments, written exactly as in the
    expression and standing after a text that neither ends in a space or
    tab nor holds the comment: the rule deletes the spaces and tabs before
    the comment, the comment and all the white space after it, copies what
    comes before and treats what comes after on its own.  When the calls
    before the rule leave the document as it is, the comment does not come
    again and the calls after the rule find no marker, the whole function
    returns the document without the comment.  The comment is matched with
    its case: a document that does not hold it letter for letter is
    returned by the rule as it is. *)
Theorem comment_delete (k : nat) (text : string)
  (pre ind tr post p : jsstring) :
  In (k, text) comment_steps ->
  ends_with_p is_blank pre = false ->
  occurs false (comment_of text) pre = false ->
  all is_blank ind = true -> all isWhiteSpace tr = true ->
  starts_with_p isWhiteSpace post = false ->
  replace (re_comment text) [] (pre ++ ind ++ comment_of text ++ tr ++ post)
  = (post' <- replace (re_comment text) [] post ;; Some (pre ++ post'))
  /\ (idle_before k (pre ++ ind ++ comment_of text ++ tr ++ post) ->
      occurs false (comment_of text) post = false ->
      quiet (markers_after k) (pre ++ post) = true ->
      transformIndexHtml (Some p) (pre ++ ind ++ comment_of text ++ tr ++ post)
      = Some (pre ++ post))
  /\ (forall s, occurs false (comment_of text) s = false ->
      replace (re_comment text) [] s = Some s).
Proof.
  intros Hin Hend Hocc Hind Htr Hpost.
  destruct (re_comment_tree k text Hin) as [Etree Ek].
  assert (E : replace (re_comment text) []
                (pre ++ ind ++ comment_of text ++ tr ++ post)
              = (post' <- replace (re_comment text) [] post ;; Some (pre ++ post'))
              /\ requires_in false (comment_of text) (re_comment text) = true).
  { rewrite Etree. cbn [replace bind requires_in re_tree re_ignoreCase].
    unfold comment_tree.
    unfold comment_steps in Hin; simpl in Hin.
    destruct Hin as [Hin | [Hin | [Hin | []]]]; injection Hin as <- <-;
      (split; [|reflexivity]); f_equal;
      match goal with
      | |- context [comment_of ?t] =>
          change (comment_of t) with (60%N :: tl (comment_of t)) in *
      end;
      apply comment_rule; auto. }
  destruct E as [E Hreq]. split; [exact E|]. split.
  - intros Hb Hp Ha. rewrite transformIndexHtml_run.
    apply (run_at_idle k (re_comment text) []); auto.
    rewrite E, (replace_absent false (comment_of text)); auto.
  - intros s Hs. apply (replace_absent false (comment_of text)); auto.
Qed.

Lemma comment_delete_witness :
  transformIndexHtml (Some (codes "linux"))
    ((codes "<body>" ++ NL) ++ codes "    "
     ++ comment_of "HTML2PDF" ++ NL
     ++ codes "<script src=" ++ Q ++ codes "./vendor/js/html2pdf.bundle.min.js"
     ++ Q ++ codes "></script>")
  = Some ((codes "<body>" ++ NL)
          ++ codes "<script src=" ++ Q
          ++ codes "./vendor/js/html2pdf.bundle.min.js" ++ Q
          ++ codes "></script>").
Proof.
  apply (comment_delete 14 "HTML2PDF" (codes "<body>" ++ NL)
           (codes "    ") NL
           (codes "<script src=" ++ Q
            ++ codes "./vendor/js/html2pdf.bundle.min.js" ++ Q
            ++ codes "></script>")
           (codes "linux"));
    try (vm_compute; reflexivity).
  right; right; left; reflexivity.
Defined.

(** * The rules that delete a link *)

Lemma sem_link_close (w : jsstring) (c c' : captures) :
  sem true (seqs link_close) w c c' <-> link_close_text w /\ c' = c.
Proof.
  unfold link_close, link_close_text. split.
  - intros (q & r & c1 & -> & Hq & H).
    apply sem_atom_char in Hq; [|reflexivity]. destruct Hq as [-> ->].
    destruct H as (Y & r2 & c2 & -> & [HY ->] & H).
    destruct H as (sl & r3 & c3 & -> & [Hsl ->] & H).
    apply (proj1 (sem_seqs_one _ _ _ _ _)) in H.
    apply sem_atom_char in H; [|reflexivity]. destruct H as [-> ->].
    rewrite all_notgt in HY. split; auto. exists Y, sl. repeat split; auto.
    destruct Hsl as [-> | (x & -> & Hx)]; auto.
    rewrite atom_match_chr in Hx. apply cieq_nonalpha in Hx; [|reflexivity].
    subst; auto.
  - intros [(Y & sl & -> & HY & Hsl) ->].
    exists [34%N], (Y ++ sl ++ [62%N]), c; repeat split; [exists 34%N; auto|].
    exists Y, (sl ++ [62%N]), c; repeat split; [rewrite all_notgt; auto|].
    exists sl, [62%N], c; repeat split.
    + destruct Hsl as [-> | ->]; [left; auto | right; exists 47%N; auto].
    + apply sem_seqs_one, sem_atom_char; auto.
Qed.



Section LinkCore.

Variable url : list regex.
Hypothesis url_is_ok : url_ok url.

Variables A1 U A2 : jsstring.
Hypothesis A1_ok : attrs_after_name A1 = true.
Hypothesis A2_ok : attrs_ok A2 = true.
Hypothesis U_noq : none (is_char 34) U = true.
Hypothesis U_url : forall c, sem true (seqs url) U c c.





Variable m : jsstring.
Hypothesis url_m : url_has m url.

Variables pre ind tr post : jsstring.
Hypothesis pre_ok : before_ok m pre = true.
Hypothesis ind_blank : all is_blank ind = true.
Hypothesis tr_ws : all isWhiteSpace tr = true.
Hypothesis post_start : starts_with_p isWhiteSpace post = false.


End LinkCore.

Lemma link_url_ok (m : jsstring) (free : bool) (e : jsstring) :
  none (is_char 34) m = true -> none (is_char 34) e = true ->
  url_ok (link_url_re m free e).
Proof.
  intros Hm He. split.
  { unfold link_url_re, scheme, lits. rewrite !forallb_app.
    assert (Hl : forall s, forallb groupless (map (fun c => Atom (Chr c)) s) = true).
    { intros s. rewrite forallb_forall. intros x Hx.
      apply in_map_iff in Hx. destruct Hx as (y & <- & _). reflexivity. }
    rewrite !Hl. destruct free; reflexivity. }
  unfold link_url_re. intros u c c' H.
  apply (sem_seqs_app true scheme) in H. destruct H as (sch & r & c1 & -> & Hs & H).
  apply sem_scheme in Hs; destruct Hs as [Hs ->].
  assert (Hr : none (is_char 34) r = true).
  { assert (Hrest : forall r c1 c', sem true (seqs (lits m ++ [Star notq] ++ lits e)) r c1 c' ->
                      none (is_char 34) r = true).
    { clear - Hm He. intros r c1 c' H.
      apply (sem_seqs_app true (lits m)) in H.
      destruct H as (m' & r2 & c2 & -> & Hm' & H).
      apply sem_lits in Hm'; destruct Hm' as [Hm' ->].
      apply sem_star_notq in H. destruct H as (W & r3 & -> & HW & H).
      apply sem_lits in H; destruct H as [He' _].
      rewrite !none_app, HW, (same_none_char true 34 m m'),
        (same_none_char true 34 e r3); auto. }
    destruct free.
    - apply sem_star_notq in H. destruct H as (V & r2 & -> & HV & H).
      rewrite none_app, HV. simpl. eapply Hrest; eauto.
    - eapply Hrest; eauto. }
  split; [|exists sch, r; auto].
  rewrite none_app, Hr, (is_scheme_no 34 sch); auto.
Qed.


Lemma link_rules_trees (k : nat) (m : jsstring) (free : bool) (e : jsstring)
  (R : option RegExp) :
  In (k, m, free, e) link_rules -> nth_error steps k = Some (R, []) ->
  R = Some (mkRegExp (delete_tree (link_core (link_url_re m free e))) true)
  /\ none (is_char 34) m = true /\ none (is_char 34) e = true
  /\ url_has m (link_url_re m free e).
Proof.
  unfold link_rules; simpl.
  intros [E | [E | [E | []]]] Hk; injection E as <- <- <- <-.
  - change (nth_error steps 5) with (Some (re_fontawesome, @nil N)) in Hk.
    injection Hk as <-. repeat split; try reflexivity.
    apply url_has_requires; reflexivity.
  - change (nth_error steps 6) with (Some (re_katex, @nil N)) in Hk.
    injection Hk as <-. repeat split; try reflexivity.
    apply url_has_requires; reflexivity.
  - change (nth_error steps 7) with (Some (re_reactpdf, @nil N)) in Hk.
    injection Hk as <-. repeat split; try reflexivity.
    apply url_has_requires; reflexivity.
Qed.



(** * The entries of the theme map among each other *)

Lemma themeStep_tree (entry : jsstring * jsstring) (s : jsstring) :
  In entry themeCssMap ->
  themeStep s entry
  = Some (replace_from (mkRegExp (theme_tree (fst entry)) true)
            (theme_tmpl (snd entry)) 0 s).
Proof.
  intros Hin. unfold themeStep.
  destruct (re_theme_tree entry Hin) as [-> _]. reflexivity.
Qed.

Lemma themeCssMap_clash (e1 e2 : jsstring * jsstring) :
  In e1 themeCssMap -> In e2 themeCssMap -> fst e1 <> fst e2 ->
  clash (fst e1) (fst e2) = true.
Proof.
  unfold themeCssMap; simpl.
  intros [<- | [<- | [<- | [<- | []]]]] [<- | [<- | [<- | [<- | []]]]] Hne;
    try reflexivity; exfalso; apply Hne; reflexivity.
Qed.

(** X8. The rule of one entry of the theme map leaves an [href] whose URL
    ends in the file of another entry as it is, whatever stands before the
    file name; in particular the rule for [github-markdown.min.css] does
    not rewrite a URL that ends in [github-markdown-dark.min.css].  What is
    left and right of the attribute is rewritten on its own. *)
Theorem theme_other_entry (e1 e2 : jsstring * jsstring)
  (pre sch P post : jsstring) :
  In e1 themeCssMap -> In e2 themeCssMap -> fst e1 <> fst e2 ->
  is_scheme sch = true -> none (is_char 34) P = true ->
  themeStep (pre ++ href_span (sch ++ P ++ fst e2) ++ post) e1
  = (pre' <- themeStep pre e1 ;;
     post' <- themeStep post e1 ;;
     Some (pre' ++ href_span (sch ++ P ++ fst e2) ++ post')).
Proof.
  intros H1 H2 Hne Hs HP.
  rewrite !themeStep_tree by exact H1. cbn [bind]. f_equal.
  assert (HX : none (is_char 34) (sch ++ P) = true).
  { rewrite none_app, HP, (is_scheme_no 34 sch); auto. }
  destruct (re_theme_tree e1 H1) as [_ Hok1].
  destruct (re_theme_tree e2 H2) as [_ Hok2].
  rewrite (app_assoc sch P).
  apply theme_span_miss; auto.
  - apply theme_value_clash. apply themeCssMap_clash; auto.
  - apply (file_ok_value _ _ Hok2 HX).
  - apply (file_ok_value _ _ Hok2 HX).
Qed.

Lemma theme_other_entry_witness :
  themeStep
    (codes "<link " ++ href_span (codes "https://" ++ codes "cdn.example/"
                                   ++ codes "github-markdown-dark.min.css")
     ++ codes ">")
    (codes "github-markdown.min.css", codes "./vendor/css/github-markdown.min.css")
  = Some (codes "<link " ++ href_span (codes "https://" ++ codes "cdn.example/"
                                        ++ codes "github-markdown-dark.min.css")
          ++ codes ">").
Proof.
  etransitivity.
  - apply (theme_other_entry
             (codes "github-markdown.min.css", codes "./vendor/css/github-markdown.min.css")
             (codes "github-markdown-dark.min.css",
              codes "./vendor/css/github-markdown-dark.min.css")
             (codes "<link ") (codes "https://") (codes "cdn.example/") (codes ">"));
      [simpl; tauto | simpl; tauto | discriminate | reflexivity | reflexivity].
  - vm_compute. reflexivity.
Defined.

(** * What the theme loop has written stays *)

Lemma themeRule_keeps (V pre post : jsstring) :
  starts_with true (codes "h") V = false ->
  none (is_char 34) V = true -> value_end_ok V = true ->
  themeRule (pre ++ href_span V ++ post)
  = themeRule pre ++ href_span V ++ themeRule post.
Proof.
  intros Hh Hq He. unfold themeRule, themeCssMap. cbn [fold_left fst snd].
  repeat (rewrite theme_span_miss;
          [ | reflexivity | apply theme_value_scheme; exact Hh
            | exact Hq | exact He ]).
  reflexivity.
Qed.

Lemma themeCssMap_local (entry : jsstring * jsstring) :
  In entry themeCssMap ->
  starts_with true (codes "h") (snd entry) = false
  /\ none (is_char 34) (snd entry) = true /\ value_end_ok (snd entry) = true
  /\ no_other_marker (snd entry) = true.
Proof.
  unfold themeCssMap; simpl.
  intros [<- | [<- | [<- | [<- | []]]]]; repeat split; vm_compute; reflexivity.
Qed.

(** X9. A document with one theme link and no other marker: the function
    rewrites the URL, and its result is a fixed point of the function, so
    a second run returns the same document; the theme loop does not match
    the local path it has written. *)
Theorem theme_redirect_stable (entry : jsstring * jsstring)
  (pre sch P post p : jsstring) :
  In entry themeCssMap -> is_scheme sch = true ->
  none (is_char 34) P = true ->
  no_theme_file pre = true -> no_theme_file post = true ->
  no_other_marker (pre ++ href_span (sch ++ P ++ fst entry) ++ post) = true ->
  themeLoop themeCssMap (pre ++ href_span (snd entry) ++ post)
  = Some (pre ++ href_span (snd entry) ++ post)
  /\ (out <- transformIndexHtml (Some p)
               (pre ++ href_span (sch ++ P ++ fst entry) ++ post) ;;
      transformIndexHtml (Some p) out)
     = transformIndexHtml (Some p)
         (pre ++ href_span (sch ++ P ++ fst entry) ++ post).
Proof.
  intros Hin Hs HP Hpre Hpost Hno.
  destruct (themeCssMap_local entry Hin) as (Hh & Hq & He & Hm).
  assert (Hno' : no_other_marker (pre ++ href_span (snd entry) ++ post) = true)
    by (apply (no_other_marker_swap _ _ _ _ Hno Hm)).
  assert (E1 : themeLoop themeCssMap (pre ++ href_span (snd entry) ++ post)
               = Some (pre ++ href_span (snd entry) ++ post)).
  { rewrite themeLoop_rule, themeRule_keeps by assumption.
    rewrite !themeRule_absent by assumption. reflexivity. }
  assert (E2 : transformIndexHtml (Some p)
                 (pre ++ href_span (sch ++ P ++ fst entry) ++ post)
               = Some (pre ++ href_span (snd entry) ++ post)).
  { rewrite transformIndexHtml_steps, tailwind_absent by exact Hno.
    cbn [bind]. rewrite themeLoop_rule, (app_assoc sch P), themeRule_span by assumption.
    cbn [bind]. rewrite !themeRule_absent by assumption.
    apply afterTheme_absent. exact Hno'. }
  split; [exact E1|].
  rewrite E2. cbn [bind].
  rewrite transformIndexHtml_steps, tailwind_absent by exact Hno'.
  cbn [bind]. rewrite E1. cbn [bind].
  apply afterTheme_absent. exact Hno'.
Qed.

Lemma theme_redirect_stable_witness :
  (out <- transformIndexHtml (Some (codes "linux"))
            (theme_example_pre
             ++ href_span (codes "https://" ++ codes "some.cdn/path/"
                           ++ codes "a11y-dark.min.css")
             ++ theme_example_post) ;;
   transformIndexHtml (Some (codes "linux")) out)
  = transformIndexHtml (Some (codes "linux"))
      (theme_example_pre
       ++ href_span (codes "https://" ++ codes "some.cdn/path/"
                     ++ codes "a11y-dark.min.css")
       ++ theme_example_post).
Proof.
  apply (theme_redirect_stable
           (codes "a11y-dark.min.css", codes "./vendor/css/a11y-dark.min.css")
           theme_example_pre (codes "https://") (codes "some.cdn/path/")
           theme_example_post (codes "linux"));
    try (vm_compute; reflexivity).
  simpl; tauto.
Defined.

(** * The local tags are not matched again *)

(** A string whose only place for the marker is a quoted value that is no
    absolute URL holds no text of a rule on tags. *)
Lemma no_tagged_in (tag attr m X u0 Y a w z : jsstring) :
  occurs true m X = false -> occurs true m Y = false ->
  none (is_char 34) u0 = true -> ~ url_start u0 ->
  tagged_text tag attr m w ->
  X ++ 34%N :: u0 ++ 34%N :: Y = a ++ w ++ z -> False.
Proof.
  intros HX HY Hu0 Hns (bl & wo & u & w3 & -> & _ & Ho & Hu & Hus & Hm) E.
  destruct Ho as (o & x & X' & Pq & -> & _).
  assert (E' : X ++ 34%N :: (u0 ++ 34%N :: Y)
               = (a ++ bl ++ o ++ [x] ++ X' ++ Pq)
                 ++ 34%N :: (u ++ 34%N :: (w3 ++ z))).
  { rewrite E. norm_app. reflexivity. }
  clear E. apply cut_trichotomy in E'.
  destruct E' as [(_ & _ & E) | [(t & _ & E) | (t & E1 & E)]].
  - apply (first_hit (is_char 34)) in E; auto using is_char_refl.
    destruct E as (-> & _). contradiction.
  - apply cut_trichotomy in E.
    destruct E as [(_ & _ & E) | [(t' & _ & E) | (t' & E & _)]].
    + rewrite E in HY. rewrite occurs_app_r in HY; [discriminate | exact Hm].
    + rewrite E in HY.
      change (t' ++ 34%N :: u ++ 34%N :: w3 ++ z)
        with (t' ++ [34%N] ++ u ++ 34%N :: w3 ++ z) in HY.
      rewrite app_assoc in HY.
      rewrite occurs_app_l in HY; [discriminate|].
      apply occurs_app_r. exact Hm.
    + rewrite E in Hu0. eapply (none_hit (is_char 34)); eauto using is_char_refl.
  - apply cut_trichotomy in E.
    destruct E as [(E & _ & _) | [(t' & E & _) | (t' & E & _)]].
    + rewrite E1, <- E in HX.
      rewrite occurs_app_l in HX; [discriminate|].
      change (34%N :: u) with ([34%N] ++ u).
      apply occurs_app_l. exact Hm.
    + rewrite E1, E in HX.
      rewrite occurs_app_l in HX; [discriminate|].
      change (34%N :: u ++ 34%N :: t') with ([34%N] ++ u ++ 34%N :: t').
      apply occurs_app_l, occurs_app_r. exact Hm.
    + rewrite E in Hu. eapply (none_hit (is_char 34)); eauto using is_char_refl.
Qed.

Lemma tag_rule_quiet (R : RegExp) (tmpl tag attr m X u0 Y : jsstring) :
  (forall w c, sem (re_ignoreCase R) (re_tree R) w [] c ->
     tagged_text tag attr m w) ->
  occurs true m X = false -> occurs true m Y = false ->
  none (is_char 34) u0 = true -> ~ url_start u0 ->
  replace_from R tmpl 0 (X ++ 34%N :: u0 ++ 34%N :: Y)
  = X ++ 34%N :: u0 ++ 34%N :: Y.
Proof.
  intros HR HX HY Hu0 Hns. apply replace_none. intros a b E.
  destruct (exec_at R b) as [[s' c]|] eqn:Ex; [|reflexivity].
  exfalso. apply exec_at_sound in Ex. destruct Ex as (w & -> & Hw).
  eapply (no_tagged_in tag attr m X u0 Y a w s'); eauto.
Qed.

(** A value that begins with a dot is no absolute URL. *)
Lemma dot_not_url (u : jsstring) :
  starts_with true (codes "h") u = false -> ~ url_start u.
Proof.
  intros Hs (sch & u' & -> & Hsch).
  assert (H : starts_with true (codes "h") sch = true).
  { apply orb_prop in Hsch; destruct Hsch as [H|H];
      apply same_cons_inv in H; destruct H as (x & w' & -> & Hx & _);
      simpl; rewrite andb_true_r; exact Hx. }
  rewrite (starts_with_app true _ _ _ H) in Hs. discriminate.
Qed.

(** X10. The tag that a script redirect has written is not matched again:
    where the end of the URL of the rule occurs in the document only
    inside the quoted local path, the rule returns the document as it is,
    and so does the whole function when no other rule finds its marker. *)
Theorem script_redirect_stable (k : nat) (file loc : jsstring)
  (R : option RegExp) (tmpl pre A1 A2 post p : jsstring) :
  In (k, file, loc) script_redirects ->
  nth_error steps k = Some (R, tmpl) ->
  occurs true file (pre ++ codes "<script" ++ A1 ++ codes "src=") = false ->
  occurs true file (A2 ++ codes "></script>" ++ post) = false ->
  replace R tmpl (pre ++ script_tag A1 loc A2 ++ post)
  = Some (pre ++ script_tag A1 loc A2 ++ post)
  /\ (quiet (markers_before k) (pre ++ script_tag A1 loc A2 ++ post) = true ->
      quiet (markers_after k) (pre ++ script_tag A1 loc A2 ++ post) = true ->
      transformIndexHtml (Some p) (pre ++ script_tag A1 loc A2 ++ post)
      = Some (pre ++ script_tag A1 loc A2 ++ post)).
Proof.
  intros Hin Hk HX HY.
  assert (E : replace R tmpl (pre ++ script_tag A1 loc A2 ++ post)
              = Some (pre ++ script_tag A1 loc A2 ++ post)).
  { assert (Hs : pre ++ script_tag A1 loc A2 ++ post
                 = (pre ++ codes "<script" ++ A1 ++ codes "src=")
                   ++ 34%N :: loc ++ 34%N :: (A2 ++ codes "></script>" ++ post)).
    { unfold script_tag, Q. norm_app. reflexivity. }
    rewrite Hs.
    destruct Hin as [Hin | [Hin | []]]; injection Hin as <- <- <-.
    - change (nth_error steps at_viz)
        with (Some (re_viz, codes "$1./vendor/js/viz.js$2")) in Hk.
      injection Hk as <- <-. rewrite re_viz_tree. cbn [replace]. f_equal.
      apply (tag_rule_quiet _ _ (codes "<script") (codes "src") (codes "/viz.js"));
        auto.
      + intros w c. cbn [re_ignoreCase re_tree].
        apply tagged_redirect;
          [apply url_ends_ok; reflexivity | apply url_has_requires; reflexivity].
      + apply dot_not_url; reflexivity.
    - change (nth_error steps at_fullrender)
        with (Some (re_fullrender, codes "$1./vendor/js/full.render.js$2")) in Hk.
      injection Hk as <- <-. rewrite re_fullrender_tree. cbn [replace]. f_equal.
      apply (tag_rule_quiet _ _ (codes "<script") (codes "src")
               (codes "/full.render.js")); auto.
      + intros w c. cbn [re_ignoreCase re_tree].
        apply tagged_redirect;
          [apply url_ends_ok; reflexivity | apply url_has_requires; reflexivity].
      + apply dot_not_url; reflexivity. }
  split; [exact E|].
  intros Hb Ha. rewrite transformIndexHtml_run.
  apply (run_at k R tmpl); auto.
Qed.

Lemma script_redirect_stable_witness :
  transformIndexHtml (Some (codes "linux"))
    ((codes "<body>" ++ NL ++ codes "  ")
     ++ script_tag (codes " defer ") (codes "./vendor/js/viz.js")
          (codes " crossorigin")
     ++ NL ++ codes "</body>")
  = Some ((codes "<body>" ++ NL ++ codes "  ")
          ++ script_tag (codes " defer ") (codes "./vendor/js/viz.js")
               (codes " crossorigin")
          ++ NL ++ codes "</body>").
Proof.
  apply (script_redirect_stable at_viz (codes "/viz.js") (codes "./vendor/js/viz.js")
           re_viz (codes "$1./vendor/js/viz.js$2")
           (codes "<body>" ++ NL ++ codes "  ") (codes " defer ")
           (codes " crossorigin") (NL ++ codes "</body>") (codes "linux"));
    try (vm_compute; reflexivity).
  left; reflexivity.
Defined.

Lemma html2pdf_local_cut (pre post : jsstring) :
  pre ++ html2pdf_local ++ post
  = (pre ++ codes "  <script src=")
    ++ 34%N :: codes "./vendor/js/html2pdf.bundle.min.js"
    ++ 34%N :: (codes "></script>" ++ NL ++ post).
Proof. unfold html2pdf_local, Q. norm_app. reflexivity. Qed.

(** X11. The tag that the rule for the PDF library writes is not matched
    again: where [html2pdf] occurs neither before nor after it, the rule
    returns the document with the local tag as it is, and so does the
    whole function when no other rule finds its marker. *)
Theorem html2pdf_stable (pre post p : jsstring) :
  occurs true (codes "html2pdf") pre = false ->
  occurs true (codes "html2pdf") post = false ->
  replace re_html2pdf html2pdf_local (pre ++ html2pdf_local ++ post)
  = Some (pre ++ html2pdf_local ++ post)
  /\ (quiet (markers_before at_html2pdf) (pre ++ html2pdf_local ++ post) = true ->
      quiet (markers_after at_html2pdf) (pre ++ html2pdf_local ++ post) = true ->
      transformIndexHtml (Some p) (pre ++ html2pdf_local ++ post)
      = Some (pre ++ html2pdf_local ++ post)).
Proof.
  intros Hpre Hpost.
  assert (E : replace re_html2pdf html2pdf_local (pre ++ html2pdf_local ++ post)
              = Some (pre ++ html2pdf_local ++ post)).
  { rewrite html2pdf_local_cut, re_html2pdf_tree. cbn [replace]. f_equal.
    apply (tag_rule_quiet _ _ (codes "<script") (codes "src") (codes "html2pdf")).
    - intros w c. cbn [re_ignoreCase re_tree].
      apply tagged_script; [apply url_html2pdf_ok | apply url_html2pdf_has].
    - change (codes "html2pdf") with (codes "html2pd" ++ [102%N]).
      rewrite occurs_app_other by reflexivity. exact Hpre.
    - change (codes "></script>" ++ NL ++ post)
        with ([] ++ 62%N :: (codes "</script" ++ 62%N :: ([] ++ 10%N :: post))).
      rewrite !(occurs_delimiter true 62 (codes "html2pdf") eq_refl) by discriminate.
      rewrite (occurs_delimiter true 10 (codes "html2pdf") eq_refl) by discriminate.
      rewrite Hpost. reflexivity.
    - reflexivity.
    - apply dot_not_url; reflexivity. }
  split; [exact E|].
  intros Hb Ha. rewrite transformIndexHtml_run.
  apply (run_at at_html2pdf re_html2pdf html2pdf_local); auto.
Qed.

Lemma html2pdf_stable_witness :
  transformIndexHtml (Some (codes "linux"))
    ((codes "<body>" ++ NL) ++ html2pdf_local ++ codes "</body>")
  = Some ((codes "<body>" ++ NL) ++ html2pdf_local ++ codes "</body>").
Proof.
  apply (html2pdf_stable (codes "<body>" ++ NL) (codes "</body>") (codes "linux"));
    vm_compute; reflexivity.
Defined.

(** * What a call of replace changes *)

Lemma rewritten_weaken (P Q : jsstring -> jsstring -> Prop) (s out : jsstring) :
  (forall m r, P m r -> Q m r) -> rewritten P s out -> rewritten Q s out.
Proof.
  intros HPQ H. induction H; constructor; auto.
Qed.

Section Rewritten.

Variable R : RegExp.
Variable tmpl : jsstring.
Hypothesis no_empty_text :
  forall w c, sem (re_ignoreCase R) (re_tree R) w [] c -> w <> [].

Lemma replace_from_rewritten_len (n : nat) :
  forall s, List.length s <= n ->
    rewritten (fun m r => exists c, sem (re_ignoreCase R) (re_tree R) m [] c
                                    /\ r = substitute tmpl m c)
      s (replace_from R tmpl 0 s).
Proof.
  induction n as [|n IH]; intros s Hn.
  - destruct s as [|x s]; [|simpl in Hn; lia].
    cbn [replace_from].
    destruct (exec_at R []) as [[rest caps]|] eqn:Ex; [|constructor].
    exfalso. apply exec_at_sound in Ex. destruct Ex as (w & Ew & Hw).
    apply (no_empty_text _ _ Hw). destruct w; [reflexivity | discriminate Ew].
  - destruct s as [|x s].
    + cbn [replace_from].
      destruct (exec_at R []) as [[rest caps]|] eqn:Ex; [|constructor].
      exfalso. apply exec_at_sound in Ex. destruct Ex as (w & Ew & Hw).
      apply (no_empty_text _ _ Hw). destruct w; [reflexivity | discriminate Ew].
    + destruct (exec_at R (x :: s)) as [[rest caps]|] eqn:Ex.
      * pose proof Ex as Ex'. apply exec_at_sound in Ex'.
        destruct Ex' as (w & Ew & Hw).
        pose proof (no_empty_text _ _ Hw) as Hne.
        rewrite Ew in Ex |- *.
        rewrite (replace_step_match R tmpl w rest caps Hne Ex).
        apply rewritten_span; eauto.
        apply IH. apply (f_equal (@List.length N)) in Ew.
        rewrite length_app in Ew. simpl in Ew, Hn.
        destruct w; [contradiction | simpl in Ew; lia].
      * rewrite (replace_step_none R tmpl x s Ex).
        apply rewritten_keep. apply IH. simpl in Hn; lia.
Qed.

Lemma replace_from_rewritten (s : jsstring) :
  rewritten (fun m r => exists c, sem (re_ignoreCase R) (re_tree R) m [] c
                                  /\ r = substitute tmpl m c)
    s (replace_from R tmpl 0 s).
Proof. apply (replace_from_rewritten_len (List.length s)). lia. Qed.

End Rewritten.

Lemma occurs_not_nil (ic : bool) (m w : jsstring) :
  m <> [] -> occurs ic m w = true -> w <> [].
Proof.
  intros Hm H ->. destruct m; [contradiction | discriminate H].
Qed.

Lemma Forall2_nth_error (A B : Type) (P : A -> B -> Prop) (k : nat) :
  forall l l' x y, Forall2 P l l' -> nth_error l k = Some x ->
    nth_error l' k = Some y -> P x y.
Proof.
  induction k as [|k IH]; intros l l' x y H Hx Hy; destruct H; simpl in *;
    try discriminate.
  - injection Hx as <-. injection Hy as <-. assumption.
  - eauto.
Qed.

Lemma step_markers_not_nil (k : nat) (ic : bool) (m : jsstring) :
  nth_error step_markers k = Some (ic, m) -> m <> [].
Proof.
  intros H. apply nth_error_In in H.
  assert (Hall : forallb (fun mk => negb (Nat.eqb (List.length (snd mk)) 0))
                   step_markers = true) by reflexivity.
  rewrite forallb_forall in Hall. specialize (Hall _ H). simpl in Hall.
  intros ->. discriminate Hall.
Qed.

(** * What a call of replace changes, place by place *)

Lemma replaced_weaken (K K' : jsstring -> Prop)
  (P P' : jsstring -> jsstring -> jsstring -> Prop) (s out : jsstring) :
  (forall t, K t -> K' t) -> (forall m rest r, P m rest r -> P' m rest r) ->
  replaced K P s out -> replaced K' P' s out.
Proof.
  intros HK HP H. induction H; constructor; auto.
Qed.

Section Replaced.

Variable R : RegExp.
Variable tmpl : jsstring.
Hypothesis no_empty_text :
  forall w c, sem (re_ignoreCase R) (re_tree R) w [] c -> w <> [].

Lemma replace_from_replaced_len (n : nat) :
  forall s, List.length s <= n ->
    replaced (fun t => exec_at R t = None)
      (fun m rest r => exists c, exec_at R (m ++ rest) = Some (rest, c)
                                 /\ r = substitute tmpl m c)
      s (replace_from R tmpl 0 s).
Proof.
  assert (Hnil : replaced (fun t => exec_at R t = None)
      (fun m rest r => exists c, exec_at R (m ++ rest) = Some (rest, c)
                                 /\ r = substitute tmpl m c)
      [] (replace_from R tmpl 0 [])).
  { cbn [replace_from].
    destruct (exec_at R []) as [[rest caps]|] eqn:Ex; [|constructor].
    exfalso. apply exec_at_sound in Ex. destruct Ex as (w & Ew & Hw).
    apply (no_empty_text _ _ Hw). destruct w; [reflexivity | discriminate Ew]. }
  induction n as [|n IH]; intros s Hn.
  - destruct s as [|x s]; [exact Hnil | simpl in Hn; lia].
  - destruct s as [|x s]; [exact Hnil|].
    destruct (exec_at R (x :: s)) as [[rest caps]|] eqn:Ex.
    + pose proof Ex as Ex'. apply exec_at_sound in Ex'.
      destruct Ex' as (w & Ew & Hw).
      pose proof (no_empty_text _ _ Hw) as Hne.
      rewrite Ew in Ex |- *.
      rewrite (replace_step_match R tmpl w rest caps Hne Ex).
      apply replaced_span; eauto.
      apply IH. apply (f_equal (@List.length N)) in Ew.
      rewrite length_app in Ew. simpl in Ew, Hn.
      destruct w; [contradiction | simpl in Ew; lia].
    + rewrite (replace_step_none R tmpl x s Ex).
      apply replaced_keep; [exact Ex|]. apply IH. simpl in Hn; lia.
Qed.

Lemma replace_from_replaced (s : jsstring) :
  replaced (fun t => exec_at R t = None)
    (fun m rest r => exists c, exec_at R (m ++ rest) = Some (rest, c)
                               /\ r = substitute tmpl m c)
    s (replace_from R tmpl 0 s).
Proof. apply (replace_from_replaced_len (List.length s)). lia. Qed.

End Replaced.

(** X12. Every call of replace in the function returns, and its result is
    the document read from left to right in this way: where the expression
    of the call has no match the code unit is kept; where it has one, the
    matched span is not empty, contains the marker of the call (up to case
    where the expression has the [i] flag) and is replaced by the template
    of the call, filled in with the groups of this very match; the reading
    goes on after the span. *)
Theorem step_frame (k : nat) (R : option RegExp) (tmpl : jsstring)
  (ic : bool) (m s : jsstring) :
  nth_error steps k = Some (R, tmpl) ->
  nth_error step_markers k = Some (ic, m) ->
  exists R' out, R = Some R' /\ replace R tmpl s = Some out
    /\ replaced (fun t => exec_at R' t = None)
         (fun w rest r =>
            occurs ic m w = true
            /\ exists c, exec_at R' (w ++ rest) = Some (rest, c)
                         /\ r = substitute tmpl w c)
         s out.
Proof.
  intros Hk Hm.
  pose proof (Forall2_nth_error _ _ _ k _ _ _ _ steps_markers Hk Hm) as Hreq.
  cbn [fst snd] in Hreq.
  destruct R as [R'|]; [|discriminate Hreq].
  cbn [requires_in] in Hreq. apply andb_prop in Hreq; destruct Hreq as [Hr Hi].
  apply Bool.eqb_prop in Hi.
  exists R', (replace_from R' tmpl 0 s). split; [reflexivity|].
  split; [reflexivity|].
  assert (Hocc : forall w c, sem (re_ignoreCase R') (re_tree R') w [] c ->
                   occurs ic m w = true).
  { intros w c Hw. rewrite <- Hi. eapply requires_sem; eauto. }
  eapply replaced_weaken; [| |apply replace_from_replaced].
  - auto.
  - intros w rest r (c & Hw & ->). split; eauto.
    apply exec_at_sound in Hw. destruct Hw as (w' & Ew & Hw).
    apply app_inv_tail in Ew. subst w'. eauto.
  - intros w c Hw. apply (occurs_not_nil ic m); eauto.
    eapply step_markers_not_nil; eauto.
Qed.

Lemma step_frame_witness :
  exists R' out,
    re_viz = Some R'
    /\ replace re_viz (codes "$1./vendor/js/viz.js$2")
         (codes "<p>"
          ++ script_tag (codes " defer ") (codes "https://cdn.example/viz.js") []
          ++ codes "</p>") = Some out
    /\ replaced (fun t => exec_at R' t = None)
         (fun w rest r =>
            occurs true (codes "viz.js") w = true
            /\ exists c, exec_at R' (w ++ rest) = Some (rest, c)
                         /\ r = substitute (codes "$1./vendor/js/viz.js$2") w c)
         (codes "<p>"
          ++ script_tag (codes " defer ") (codes "https://cdn.example/viz.js") []
          ++ codes "</p>") out.
Proof.
  apply (step_frame at_viz re_viz (codes "$1./vendor/js/viz.js$2") true
           (codes "viz.js")); reflexivity.
Defined.

(** * The spans the link rules delete *)

Lemma sem_trail_ws (w : jsstring) (c c' : captures) :
  sem true (seqs trail) w c c' -> all isWhiteSpace w = true.
Proof.
  unfold trail. intros (w1 & r & c1 & -> & [H1 _] & H).
  apply (proj1 (sem_seqs_one _ _ _ _ _)) in H. destruct H as [H _].
  rewrite all_ws in H1. rewrite all_app, H1. simpl.
  destruct H as [-> | (x & -> & Hx)]; [reflexivity|].
  rewrite atom_match_chr in Hx. apply cieq_nonalpha in Hx; [|reflexivity].
  subst x. reflexivity.
Qed.

Lemma sem_link_span (m : jsstring) (url : list regex)
  (w : jsstring) (c c' : captures) :
  url_ok url -> url_has m url ->
  sem true (delete_tree (link_core url)) w c c' -> link_span m w.
Proof.
  intros [Hg Hurl] Hm H. unfold delete_tree in H.
  apply (sem_seqs_app true [Star blank]) in H.
  destruct H as (bl & r & c1 & -> & Hbl & H).
  apply (proj1 (sem_seqs_one _ _ _ _ _)) in Hbl. destruct Hbl as [Hbl ->].
  rewrite all_blank in Hbl.
  apply (sem_seqs_app true (link_core url)) in H.
  destruct H as (wc & wt & c2 & -> & Hc & Ht).
  apply sem_trail_ws in Ht.
  unfold link_core in Hc.
  apply (sem_seqs_app true (attr_open (codes "<link") (codes "href"))) in Hc.
  destruct Hc as (wo & r2 & c3 & -> & Ho & Hc).
  apply sem_attr_open in Ho.
  destruct Ho as [(o & x & X & Pq & -> & Ho & Hx & HX & HP) ->].
  apply (sem_seqs_app true url) in Hc.
  destruct Hc as (u & wcl & c4 & -> & Hu & Hcl).
  destruct (Hurl _ _ _ Hu) as [Huq Hus].
  pose proof (Hm _ _ _ Hu) as Hocc.
  apply sem_link_close in Hcl. destruct Hcl as [(Y & sl & -> & HY & Hsl) _].
  exists bl, o, x, X, Pq, u, Y, sl, wt.
  repeat split; auto. norm_app. reflexivity.
Qed.

(** X13. Each of the three link rules deletes nothing but spans of one
    shape: spaces and tabs, the tag name with white space after it,
    attribute text without [>], [href] with a double-quoted absolute URL
    that holds the marker of the rule, attribute text without [>], an
    optional slash, the closing [>], and white space.  A [>] inside a span
    other than its closing one stands inside the quoted URL; every code
    unit outside the spans is kept. *)
Theorem link_spans (k : nat) (m : jsstring) (free : bool) (e : jsstring)
  (R : option RegExp) (s : jsstring) :
  In (k, m, free, e) link_rules -> nth_error steps k = Some (R, []) ->
  exists out, replace R [] s = Some out
    /\ rewritten (fun w r => link_span m w /\ r = []) s out.
Proof.
  intros Hin Hk.
  destruct (link_rules_trees k m free e R Hin Hk) as (-> & Hm & He & Hhas).
  eexists. split; [reflexivity|].
  pose proof (link_url_ok m free e Hm He) as Hok.
  eapply rewritten_weaken; [|apply replace_from_rewritten].
  - intros w r (c & Hw & ->). cbn [re_ignoreCase re_tree] in Hw.
    split; [|reflexivity]. eapply sem_link_span; eauto.
  - intros w c Hw. cbn [re_ignoreCase re_tree] in Hw.
    apply (sem_link_span m) in Hw; auto.
    destruct Hw as (bl & o & x & X & Pq & u & Y & sl & tr & -> & _).
    destruct bl; [|discriminate]. destruct o; discriminate.
Qed.

Lemma link_spans_witness :
  exists out, replace re_katex [] (codes "<p>katex</p>") = Some out
    /\ rewritten (fun w r => link_span (codes "katex") w /\ r = [])
         (codes "<p>katex</p>") out.
Proof.
  apply (link_spans 6 (codes "katex") true [] re_katex);
    [right; left; reflexivity | reflexivity].
Defined.

(** * Escaping a file name *)

Lemma escape_tree_ok :
  compile (codes "[.*+?^${}()|[\]\\]") false = Some (mkRegExp escape_tree false).
Proof. vm_compute; reflexivity. Qed.

Lemma escape_exec (x : N) (s : jsstring) :
  exec_at (mkRegExp escape_tree false) (x :: s)
  = if is_special x then Some (s, []) else None.
Proof. reflexivity. Qed.

(** X14. [escapeFile] never throws; it returns the file name with a
    backslash put before each of the fourteen characters
    [. * + ? ^ $ { } ( ) | [ ] \] and every other code unit as it is. *)
Theorem escapeFile_escaped (f : jsstring) :
  escapeFile f = Some (escaped f).
Proof.
  unfold escapeFile. rewrite escape_tree_ok. cbn [replace]. f_equal.
  induction f as [|x f IH]; [reflexivity|].
  cbn [escaped flat_map]. fold (escaped f).
  destruct (is_special x) eqn:Hx.
  - change (x :: f) with ([x] ++ f).
    rewrite (replace_step_match _ _ [x] f []);
      [ | discriminate | cbn [app]; rewrite escape_exec, Hx; reflexivity ].
    rewrite IH. reflexivity.
  - rewrite replace_step_none by (rewrite escape_exec, Hx; reflexivity).
    rewrite IH. reflexivity.
Qed.

(** * The expression built from an escaped file name *)

Lemma parse_seq_mono (fuel : nat) :
  forall ng s res, parse_seq fuel ng s = Some res ->
    forall fuel', fuel <= fuel' -> parse_seq fuel' ng s = Some res.
Proof.
  induction fuel as [|fuel IH]; intros ng s res H fuel' Hle; [discriminate H|].
  destruct fuel' as [|fuel']; [lia|].
  assert (Hle' : fuel <= fuel') by lia.
  cbn [parse_seq] in H |- *.
  destruct s as [|c rest]; [exact H|].
  destruct (c =? 41)%N; [exact H|].
  destruct (c =? 40)%N.
  - destruct (parse_seq fuel (S ng) rest) as [[[body tl] ng']|] eqn:E1;
      [|discriminate H].
    rewrite (IH _ _ _ E1 fuel' Hle').
    destruct tl as [|d tl']; [discriminate H|].
    destruct (d =? 41)%N; [|discriminate H].
    destruct (parse_seq fuel ng' tl') as [[[r tl''] ng'']|] eqn:E2;
      [|discriminate H].
    rewrite (IH _ _ _ E2 fuel' Hle'). exact H.
  - destruct (parse_atom (c :: rest)) as [[a tl]|]; [|discriminate H].
    destruct (parse_quant a tl) as [t tl'].
    destruct (parse_seq fuel ng tl') as [[[r tl''] ng']|] eqn:E; [|discriminate H].
    rewrite (IH _ _ _ E fuel' Hle'). exact H.
Qed.

Lemma parse_quant_none (a : atom) (s : jsstring) :
  starts_with_p is_quant s = false -> parse_quant a s = (Atom a, s).
Proof.
  destruct s as [|c rest]; [reflexivity|]. unfold is_quant; simpl.
  intros H. apply orb_false_iff in H; destruct H as [H H3].
  apply orb_false_iff in H; destruct H as [H1 H2].
  rewrite H1, H2, H3. reflexivity.
Qed.

Lemma special_cases (c : N) :
  is_special c = true -> In c special_chars.
Proof.
  unfold is_special. intros H. apply existsb_exists in H.
  destruct H as (a & Ha & E). apply N.eqb_eq in E. subst; exact Ha.
Qed.

Lemma not_special (c a : N) :
  is_special c = false -> In a special_chars -> (c =? a)%N = false.
Proof.
  intros H Ha. apply N.eqb_neq. intros ->.
  unfold is_special in H.
  assert (Hex : existsb (fun a0 => (a0 =? a)%N) special_chars = true).
  { apply existsb_exists. exists a; split; auto. apply N.eqb_refl. }
  congruence.
Qed.

Lemma escaped_head (f rest : jsstring) :
  starts_with_p is_quant rest = false ->
  starts_with_p is_quant (escaped f ++ rest) = false.
Proof.
  intros Hr. destruct f as [|c f]; [exact Hr|].
  cbn [escaped flat_map]. destruct (is_special c) eqn:Hc; [reflexivity|].
  cbn [app starts_with_p]. unfold is_quant.
  rewrite !(not_special c) by (auto; simpl; tauto). reflexivity.
Qed.

Lemma parse_plain (c : N) (X : jsstring) (fuel ng : nat) :
  is_special c = false -> starts_with_p is_quant X = false ->
  parse_seq (S fuel) ng (c :: X)
  = match parse_seq fuel ng X with
    | Some (r, tl, ng') => Some (Seq (Atom (Chr c)) r, tl, ng')
    | None => None
    end.
Proof.
  intros Hc HX. cbn [parse_seq parse_atom]. unfold is_syntax.
  rewrite !(not_special c) by (auto; simpl; tauto).
  cbn [orb]. rewrite parse_quant_none by exact HX. reflexivity.
Qed.

Lemma parse_escape (c : N) (X : jsstring) (fuel ng : nat) :
  is_special c = true -> starts_with_p is_quant X = false ->
  parse_seq (S fuel) ng (92%N :: c :: X)
  = match parse_seq fuel ng X with
    | Some (r, tl, ng') => Some (Seq (Atom (Chr c)) r, tl, ng')
    | None => None
    end.
Proof.
  intros Hc HX. apply special_cases in Hc. cbn [parse_seq].
  change ((92 =? 41)%N) with false. change ((92 =? 40)%N) with false.
  cbv iota. cbn [parse_atom].
  change ((92 =? 91)%N) with false. change ((92 =? 92)%N) with true.
  cbv iota.
  assert (Ha : atom_escape c = Some (Chr c)).
  { unfold special_chars in Hc. simpl in Hc.
    repeat (destruct Hc as [<- | Hc]; [reflexivity|]). contradiction. }
  rewrite Ha. rewrite parse_quant_none by exact HX. reflexivity.
Qed.

(** The escaped name is read as the run of its characters. *)
Lemma parse_escaped (f rest : jsstring) (fuel ng : nat)
  (r : regex) (tl : jsstring) (ng' : nat) :
  starts_with_p is_quant rest = false ->
  parse_seq fuel ng rest = Some (r, tl, ng') ->
  parse_seq (List.length f + fuel) ng (escaped f ++ rest)
  = Some (fold_right Seq r (lits f), tl, ng').
Proof.
  intros Hr H. induction f as [|c f IH]; [exact H|].
  cbn [escaped flat_map List.length Nat.add lits map fold_right].
  fold (escaped f). fold (lits f).
  destruct (is_special c) eqn:Hc.
  - cbn [app]. rewrite parse_escape by (auto using escaped_head).
    rewrite IH. reflexivity.
  - cbn [app]. rewrite parse_plain by (auto using escaped_head).
    rewrite IH. reflexivity.
Qed.

Lemma parse_ws_star (X : jsstring) (fuel ng : nat) :
  starts_with_p (fun c => c =? 63)%N X = false ->
  parse_seq (S fuel) ng (92%N :: 115%N :: 42%N :: X)
  = match parse_seq fuel ng X with
    | Some (r, tl, ng') => Some (Seq (Star ws) r, tl, ng')
    | None => None
    end.
Proof.
  intros HX. cbn [parse_seq].
  change ((92 =? 41)%N) with false. change ((92 =? 40)%N) with false.
  cbv iota. cbn [parse_atom].
  change ((92 =? 91)%N) with false. change ((92 =? 92)%N) with true.
  cbv iota. change (atom_escape 115) with (Some ws). cbv iota.
  cbn [parse_quant]. change ((42 =? 42)%N) with true. cbv iota.
  destruct X as [|q X]; [reflexivity|].
  simpl in HX. rewrite HX. reflexivity.
Qed.

Lemma parse_opt (c : N) (X : jsstring) (fuel ng : nat) :
  is_special c = false ->
  parse_seq (S fuel) ng (c :: 63%N :: X)
  = match parse_seq fuel ng X with
    | Some (r, tl, ng') => Some (Seq (Opt (Chr c)) r, tl, ng')
    | None => None
    end.
Proof.
  intros Hc. cbn [parse_seq parse_atom]. unfold is_syntax.
  rewrite !(not_special c) by (auto; simpl; tauto).
  cbn [orb]. reflexivity.
Qed.

Lemma parse_notq_star (X : jsstring) (fuel ng : nat) :
  starts_with_p (fun c => c =? 63)%N X = false ->
  parse_seq (S fuel) ng (91%N :: 94%N :: 34%N :: 93%N :: 42%N :: X)
  = match parse_seq fuel ng X with
    | Some (r, tl, ng') => Some (Seq (Star notq) r, tl, ng')
    | None => None
    end.
Proof.
  intros HX. cbn [parse_seq].
  change ((91 =? 41)%N) with false. change ((91 =? 40)%N) with false.
  cbv iota. cbn [parse_atom].
  change ((91 =? 91)%N) with true. cbv iota.
  change ((94 =? 94)%N) with true. cbv iota.
  change (parse_class (34%N :: 93%N :: 42%N :: X))
    with (Some ([CChar 34], 42%N :: X)).
  cbv iota. cbn [parse_quant]. change ((42 =? 42)%N) with true. cbv iota.
  destruct X as [|q X]; [reflexivity|].
  simpl in HX. rewrite HX. reflexivity.
Qed.

Lemma parse_theme_prefix (x0 : N) (X : jsstring) (fuel : nat)
  (r : regex) (tl : jsstring) (ng' : nat) :
  (x0 =? 63)%N = false ->
  parse_seq fuel 0 (x0 :: X) = Some (r, tl, ng') ->
  parse_seq (17 + fuel) 0
    (codes "href\s*=\s*" ++ Q ++ codes "https?://[^" ++ Q ++ codes "]*"
     ++ x0 :: X)
  = Some (fold_right Seq r theme_prefix, tl, ng').
Proof.
  intros Hx H.
  cbn [Nat.add]. unfold Q.
  change (codes "href\s*=\s*" ++ [34%N] ++ codes "https?://[^" ++ [34%N]
          ++ codes "]*" ++ x0 :: X)
    with (104 :: 114 :: 101 :: 102 :: 92 :: 115 :: 42 :: 61 :: 92 :: 115
          :: 42 :: 34 :: 104 :: 116 :: 116 :: 112 :: 115 :: 63 :: 58 :: 47
          :: 47 :: 91 :: 94 :: 34 :: 93 :: 42 :: x0 :: X)%N.
  do 4 (rewrite parse_plain by reflexivity).
  rewrite parse_ws_star by reflexivity.
  rewrite parse_plain by reflexivity.
  rewrite parse_ws_star by reflexivity.
  do 5 (rewrite parse_plain by reflexivity).
  rewrite parse_opt by reflexivity.
  do 3 (rewrite parse_plain by reflexivity).
  rewrite parse_notq_star by exact Hx.
  rewrite H. reflexivity.
Qed.

Lemma escaped_length (f : jsstring) : List.length f <= List.length (escaped f).
Proof.
  induction f as [|c f IH]; [reflexivity|].
  cbn [escaped flat_map]. fold (escaped f).
  destruct (is_special c); simpl; lia.
Qed.

Lemma escaped_not_opt (f : jsstring) :
  exists x0 X, escaped f ++ Q = x0 :: X /\ (x0 =? 63)%N = false.
Proof.
  destruct f as [|c f]; [exists 34%N, []; split; reflexivity|].
  cbn [escaped flat_map]. fold (escaped f).
  destruct (is_special c) eqn:Hc.
  - eexists _, _. split; reflexivity.
  - eexists _, _. split; [reflexivity|]. apply not_special; simpl; tauto.
Qed.

(** X15. For every file name the loop builds an expression, and it is
    the one that reads the name literally: [href], white space around the
    equals sign, the opening quote, [http://] or [https://], any text
    without a quote, the file name character by character, and the closing
    quote.  The escaping keeps every character of the name from being read
    as syntax. *)
Theorem re_theme_literal (f : jsstring) :
  re_theme f = Some (mkRegExp (theme_tree f) true).
Proof.
  unfold re_theme. rewrite escapeFile_escaped. cbn [bind].
  unfold compile, parse_pattern.
  destruct (escaped_not_opt f) as (x0 & X & EX & Hx0).
  assert (Hend : parse_seq (List.length f + 2) 0 (escaped f ++ Q)
                 = Some (fold_right Seq (Seq (Atom (Chr 34)) Eps) (lits f), [], 0)).
  { apply parse_escaped; reflexivity. }
  rewrite EX in Hend.
  pose proof (parse_theme_prefix x0 X _ _ _ _ Hx0 Hend) as Hp.
  rewrite <- EX in Hp.
  rewrite (parse_seq_mono _ _ _ _ Hp).
  - unfold theme_tree, seqs. rewrite !fold_right_app. reflexivity.
  - rewrite !length_app. pose proof (escaped_length f). simpl. lia.
Qed.

(** * The theme loop run twice *)

(** The first match of an expression in a string, if there is one. *)
Lemma first_match (R : RegExp) (x : jsstring) :
  (forall a b, x = a ++ b -> exec_at R b = None)
  \/ exists K m rest c, x = K ++ m ++ rest
       /\ (forall a b, K = a ++ b -> b <> [] -> exec_at R (b ++ m ++ rest) = None)
       /\ exec_at R (m ++ rest) = Some (rest, c).
Proof.
  induction x as [|y x IH].
  - destruct (exec_at R []) as [[rest c]|] eqn:E.
    + right. pose proof E as E'. apply exec_at_sound in E'.
      destruct E' as (w & Ew & _).
      destruct w; [|discriminate Ew]. simpl in Ew; subst rest.
      exists [], [], [], c. repeat split; auto.
      intros a b Eab Hb. destruct a; destruct b; try discriminate; contradiction.
    + left. intros a b Eab. destruct a; destruct b; try discriminate. exact E.
  - destruct (exec_at R (y :: x)) as [[rest c]|] eqn:E.
    + right. pose proof E as E'. apply exec_at_sound in E'.
      destruct E' as (w & Ew & _).
      exists [], w, rest, c. rewrite Ew in E. repeat split; auto.
      intros a b Eab Hb. destruct a; destruct b; try discriminate; contradiction.
    + destruct IH as [IH | (K & m & rest & c & -> & HK & Hm)].
      * left. intros a b Eab. destruct a as [|a0 a].
        -- simpl in Eab; subst b. exact E.
        -- injection Eab as _ Eab. eauto.
      * right. exists (y :: K), m, rest, c. repeat split; auto.
        intros a b Eab Hb. destruct a as [|a0 a].
        -- simpl in Eab; subst b. exact E.
        -- injection Eab as _ Eab. eauto.
Qed.

Lemma theme_text_exec (file w s : jsstring) :
  theme_text file w ->
  exec_at (mkRegExp (theme_tree file) true) (w ++ s) <> None.
Proof.
  intros H. apply (exec_at_complete _ w s []).
  apply sem_theme. auto.
Qed.

Lemma no_theme_text_part (file x a y z : jsstring) :
  no_theme_text file x -> x = a ++ y ++ z -> no_theme_text file y.
Proof.
  intros H -> a' w z' -> Hw.
  apply (H (a ++ a') w (z' ++ z)); auto. rewrite <- !app_assoc. reflexivity.
Qed.

Lemma no_theme_text_exec (file x : jsstring) :
  (forall a b, x = a ++ b ->
     exec_at (mkRegExp (theme_tree file) true) b = None) ->
  no_theme_text file x.
Proof.
  intros H a w z -> Hw.
  apply (theme_text_exec file w z Hw). apply (H a (w ++ z)). reflexivity.
Qed.

Lemma no_theme_text_fixed (file tmpl x : jsstring) :
  no_theme_text file x ->
  replace_from (mkRegExp (theme_tree file) true) tmpl 0 x = x.
Proof.
  intros H. apply replace_none. intros a b ->.
  destruct (exec_at _ b) as [[s' c]|] eqn:E; [|reflexivity].
  exfalso. apply exec_at_sound in E. destruct E as (w & -> & Hw).
  apply sem_theme in Hw. destruct Hw as [Hw _].
  apply (H a w s'); auto.
Qed.

Section ThemeTwice.

Variables f g Lg : jsstring.
Hypothesis f_ok : file_ok f = true.
Hypothesis Lg_f : ~ theme_value f Lg.
Hypothesis Lg_noq : none (is_char 34) Lg = true.
Hypothesis Lg_end : value_end_ok Lg = true.
Hypothesis Lg_plain : none (is_char 36) (theme_tmpl Lg) = true.

Let Rg : RegExp := mkRegExp (theme_tree g) true.

(** The rule of [g] brings no text of the expression of [f] into a
    string, and leaves none of its own. *)
Lemma step_no_text_len (n : nat) :
  forall x, List.length x <= n ->
    f = g \/ no_theme_text f x ->
    no_theme_text f (replace_from Rg (theme_tmpl Lg) 0 x).
Proof.
  induction n as [|n IH]; intros x Hn Hx.
  - destruct x; [|simpl in Hn; lia].
    unfold Rg. cbn [replace_from]. rewrite (theme_no_empty_match g).
    intros a w z E Hw. destruct a; [|discriminate E].
    destruct w; [|discriminate E]. eapply theme_text_not_nil; eauto.
  - destruct (first_match Rg x) as [Hnone | (K & m & rest & c & -> & HK & Hm)].
    + rewrite replace_none by exact Hnone.
      destruct Hx as [-> | Hx]; [|exact Hx].
      apply no_theme_text_exec. exact Hnone.
    + pose proof Hm as Hm'. apply exec_at_sound in Hm'.
      destruct Hm' as (w0 & E0 & Hw0). apply app_inv_tail in E0. subst w0.
      apply sem_theme in Hw0. destruct Hw0 as [Hmt _].
      assert (Hne : m <> []) by (intros ->; eapply theme_text_not_nil; eauto).
      rewrite replace_prefix_none by exact HK.
      rewrite (replace_step_match Rg _ m rest c Hne Hm).
      rewrite substitute_plain by exact Lg_plain.
      assert (Hrest : no_theme_text f (replace_from Rg (theme_tmpl Lg) 0 rest)).
      { apply IH.
        - rewrite !length_app in Hn. destruct m; [contradiction|]. simpl in Hn. lia.
        - destruct Hx as [-> | Hx]; [left; reflexivity | right].
          apply (no_theme_text_part f _ (K ++ m) rest [] Hx).
          rewrite app_nil_r, <- app_assoc. reflexivity. }
      set (o' := replace_from Rg (theme_tmpl Lg) 0 rest) in *.
      intros a w z E Hw.
      apply app_eq_app in E. destruct E as (l & [[E1 E2] | [E1 E2]]).
      * (* the text starts before the match or at it *)
        destruct l as [|l0 l].
        -- simpl in E2. apply (theme_text_exec f w z Hw). rewrite E2.
           apply (theme_at_span_miss f f_ok Lg o' Lg_f Lg_noq).
        -- destruct (theme_no_cross f f_ok (l0 :: l) (Lg ++ [34%N] ++ o') w z Hw)
             as (t & Et); [discriminate | |].
           { rewrite E2. unfold theme_tmpl, Q. rewrite <- !app_assoc. reflexivity. }
           rewrite Et in E1. subst K.
           destruct Hx as [-> | Hx].
           ++ apply (theme_text_exec g w (t ++ m ++ rest) Hw).
              rewrite <- (HK a (w ++ t)); [rewrite <- app_assoc; reflexivity | reflexivity |].
              destruct w; [|discriminate]. exfalso; eapply theme_text_not_nil; eauto.
           ++ apply (Hx a w (t ++ m ++ rest)); auto.
              rewrite <- !app_assoc. reflexivity.
      * (* the text starts inside the replacement or after it *)
        symmetry in E2. apply app_eq_app in E2.
        destruct E2 as (l2 & [[E3 E4] | [E3 E4]]).
        -- apply (Hrest l2 w z); auto.
        -- destruct l as [|l0 l].
           ++ simpl in E3. subst l2.
              apply (theme_text_exec f w z Hw). rewrite E4.
              apply (theme_at_span_miss f f_ok Lg o' Lg_f Lg_noq).
           ++ destruct l2 as [|y l2].
              ** simpl in E4. apply (Hrest [] w z); auto.
              ** apply (theme_text_exec f w z Hw). rewrite E4.
                 apply (theme_in_span f Lg o' (l0 :: l) (y :: l2) Lg_noq Lg_end);
                   [exact E3 | discriminate | discriminate].
Qed.

End ThemeTwice.

Lemma themeRule_fold (x : jsstring) :
  themeRule x = fold_left theme_step themeCssMap x.
Proof. reflexivity. Qed.

Lemma themeCssMap_plain (entry : jsstring * jsstring) :
  In entry themeCssMap -> none (is_char 36) (theme_tmpl (snd entry)) = true.
Proof.
  unfold themeCssMap; simpl.
  intros [<- | [<- | [<- | [<- | []]]]]; vm_compute; reflexivity.
Qed.

Lemma entry_step_no_text (e g : jsstring * jsstring) (x : jsstring) :
  In e themeCssMap -> In g themeCssMap ->
  fst e = fst g \/ no_theme_text (fst e) x ->
  no_theme_text (fst e) (theme_step x g).
Proof.
  intros He Hg Hx.
  destruct (re_theme_tree e He) as [_ Hoke].
  destruct (re_theme_tree g Hg) as [_ Hokg].
  destruct (themeCssMap_local g Hg) as (Hh & Hq & Hend & _).
  apply (step_no_text_len (fst e) (fst g) (snd g) Hoke
           (theme_value_scheme _ _ Hh) Hq Hend (themeCssMap_plain g Hg)
           (List.length x)); auto.
Qed.

Lemma fold_keeps_no_text (e : jsstring * jsstring) (l : list (jsstring * jsstring)) :
  In e themeCssMap -> incl l themeCssMap ->
  forall y, no_theme_text (fst e) y ->
    no_theme_text (fst e) (fold_left theme_step l y).
Proof.
  intros He. induction l as [|g l IH]; intros Hl y Hy; [exact Hy|].
  cbn [fold_left]. apply IH.
  - intros z Hz. apply Hl. right; exact Hz.
  - apply entry_step_no_text; auto. apply Hl. left; reflexivity.
Qed.

Lemma fold_no_text (e : jsstring * jsstring) (l : list (jsstring * jsstring)) :
  In e themeCssMap -> incl l themeCssMap -> In e l ->
  forall x, no_theme_text (fst e) (fold_left theme_step l x).
Proof.
  intros He. induction l as [|g l IH]; intros Hl Hin x; [contradiction|].
  cbn [fold_left].
  assert (Hl' : incl l themeCssMap) by (intros z Hz; apply Hl; right; exact Hz).
  destruct Hin as [-> | Hin].
  - apply fold_keeps_no_text; auto.
    apply entry_step_no_text; auto.
  - apply IH; auto.
Qed.

Lemma fold_fixed (l : list (jsstring * jsstring)) (y : jsstring) :
  (forall e, In e l -> no_theme_text (fst e) y) ->
  fold_left theme_step l y = y.
Proof.
  induction l as [|g l IH]; intros H; [reflexivity|].
  cbn [fold_left]. unfold theme_step at 2.
  rewrite no_theme_text_fixed by (apply H; left; reflexivity).
  apply IH. intros e He. apply H. right; exact He.
Qed.

(** X16. The theme loop is idempotent on every document: run on its own
    result it changes nothing, because no rule of the loop matches the
    local paths written and none brings about a match of another. *)
Theorem themeLoop_idempotent (html : jsstring) :
  (result <- themeLoop themeCssMap html ;; themeLoop themeCssMap result)
  = themeLoop themeCssMap html.
Proof.
  rewrite themeLoop_rule. cbn [bind]. rewrite themeLoop_rule. f_equal.
  rewrite !themeRule_fold. apply fold_fixed.
  intros e He. apply fold_no_text; auto. apply incl_refl.
Qed.

(** * The [i] flag *)

Lemma cieq_ws (x x' : N) :
  cieq true x x' = true -> isWhiteSpace x = isWhiteSpace x'.
Proof.
  intros H. destruct (is_alpha x) eqn:Ex.
  - pose proof (cieq_alpha true x x' H) as Ex'. rewrite Ex in Ex'.
    rewrite (alpha_not_ws x Ex), (alpha_not_ws x' Ex'). reflexivity.
  - apply cieq_nonalpha in H; auto. subst; reflexivity.
Qed.

Lemma atom_match_ci (a : atom) (x x' : N) :
  cieq true x x' = true -> atom_match true a x = atom_match true a x'.
Proof.
  intros H. pose proof H as Hc. unfold cieq in Hc. apply N.eqb_eq in Hc.
  destruct a as [p | neg items]; simpl.
  - rewrite Hc. reflexivity.
  - f_equal. induction items as [|it items IH]; [reflexivity|].
    simpl. rewrite IH. f_equal.
    destruct it; simpl.
    + rewrite Hc. reflexivity.
    + apply cieq_ws; exact H.
    + f_equal. apply cieq_ws; exact H.
Qed.

Lemma same_sym (p w : jsstring) : same true p w = true -> same true w p = true.
Proof.
  revert w; induction p as [|a p IH]; intros [|x w] H; simpl in *;
    try discriminate; auto.
  apply andb_prop in H; destruct H as [H1 H2].
  unfold cieq in *. rewrite N.eqb_sym, H1. simpl. auto.
Qed.

Section CaseBlind.

Variable p : N -> bool.
Hypothesis p_ci : forall x x', cieq true x x' = true -> p x = p x'.

Lemma star_greedy_ci (k k' : jsstring -> option mstate) :
  (forall a b, same true a b = true -> same_result (k a) (k' b)) ->
  forall s s', same true s s' = true ->
    same_result (star_greedy p k s) (star_greedy p k' s').
Proof.
  intros Hk. induction s as [|x s IH]; intros [|x' s'] H; simpl in H;
    try discriminate.
  - simpl. apply Hk. reflexivity.
  - apply andb_prop in H; destruct H as [Hx Hs].
    assert (Hkk : same_result (k (x :: s)) (k' (x' :: s'))).
    { apply Hk. simpl. rewrite Hx, Hs. reflexivity. }
    cbn [star_greedy]. rewrite <- (p_ci x x' Hx).
    destruct (p x); [|exact Hkk].
    specialize (IH s' Hs).
    destruct (star_greedy p k s), (star_greedy p k' s'); simpl in IH;
      try contradiction; auto.
Qed.

Lemma star_lazy_ci (k k' : jsstring -> option mstate) :
  (forall a b, same true a b = true -> same_result (k a) (k' b)) ->
  forall s s', same true s s' = true ->
    same_result (star_lazy p k s) (star_lazy p k' s').
Proof.
  intros Hk. induction s as [|x s IH]; intros [|x' s'] H; simpl in H;
    try discriminate.
  - pose proof (Hk [] [] eq_refl) as H0. cbn [star_lazy].
    destruct (k []), (k' []); simpl in H0; try contradiction; auto.
  - apply andb_prop in H; destruct H as [Hx Hs].
    assert (Hkk : same_result (k (x :: s)) (k' (x' :: s'))).
    { apply Hk. simpl. rewrite Hx, Hs. reflexivity. }
    cbn [star_lazy]. rewrite <- (p_ci x x' Hx).
    destruct (k (x :: s)), (k' (x' :: s')); simpl in Hkk; try contradiction; auto.
    destruct (p x); [apply IH; exact Hs | exact I].
Qed.

End CaseBlind.

Lemma same_caps_refl (c : captures) : same_caps c c.
Proof.
  induction c as [|[n g] c IH]; constructor; auto. split; auto using same_refl.
Qed.

(** The matcher with the [i] flag does not see the case of the input. *)
Lemma matcher_ci (r : regex) :
  forall (k k' : cont) (st st' : mstate),
    (forall a b, same_state a b -> same_result (k a) (k' b)) ->
    same_state st st' ->
    same_result (matcher true r k st) (matcher true r k' st').
Proof.
  induction r as [|a|a|a|a|a|r1 IH1 r2 IH2|n r IH];
    intros k k' [s c] [s' c'] Hk [Hs Hc]; cbn [fst snd] in Hs, Hc.
  - apply Hk. split; auto.
  - cbn [matcher fst snd].
    destruct s as [|x s], s' as [|x' s']; simpl in Hs; try discriminate;
      [exact I|].
    apply andb_prop in Hs; destruct Hs as [Hx Hs].
    rewrite <- (atom_match_ci a x x' Hx).
    destruct (atom_match true a x); [|exact I].
    apply Hk. split; auto.
  - cbn [matcher fst snd].
    apply star_greedy_ci; auto using atom_match_ci.
    intros a0 b0 H0. apply Hk. split; auto.
  - cbn [matcher fst snd].
    apply star_lazy_ci; auto using atom_match_ci.
    intros a0 b0 H0. apply Hk. split; auto.
  - cbn [matcher fst snd].
    destruct s as [|x s], s' as [|x' s']; simpl in Hs; try discriminate;
      [exact I|].
    apply andb_prop in Hs; destruct Hs as [Hx Hs].
    rewrite <- (atom_match_ci a x x' Hx).
    destruct (atom_match true a x); [|exact I].
    apply star_greedy_ci; auto using atom_match_ci.
    intros a0 b0 H0. apply Hk. split; auto.
  - cbn [matcher fst snd].
    assert (Hst : same_result (k (s, c)) (k' (s', c')))
      by (apply Hk; split; auto).
    destruct s as [|x s], s' as [|x' s']; simpl in Hs; try discriminate;
      [exact Hst|].
    apply andb_prop in Hs; destruct Hs as [Hx Hs].
    rewrite <- (atom_match_ci a x x' Hx).
    destruct (atom_match true a x); [|exact Hst].
    assert (H1 : same_result (k (s, c)) (k' (s', c')))
      by (apply Hk; split; auto).
    destruct (k (s, c)), (k' (s', c')); simpl in H1; try contradiction; auto.
  - cbn [matcher]. apply IH1; [|split; auto].
    intros a0 b0 H0. apply IH2; auto.
  - cbn [matcher fst snd]. apply IH; [|split; auto].
    intros [s1 c1] [s1' c1'] [H1 H2]. cbn [fst snd] in *.
    apply Hk. split; cbn [fst snd]; auto.
    constructor; auto. cbn [fst snd]. split; auto.
    rewrite (same_length true _ _ Hs).
    rewrite (same_length true _ _ H1).
    apply same_firstn. exact Hs.
Qed.

Lemma exec_at_ci (R : RegExp) (s s' : jsstring) :
  re_ignoreCase R = true -> same true s s' = true ->
  same_result (exec_at R s) (exec_at R s').
Proof.
  intros Hi Hs. unfold exec_at. rewrite Hi.
  apply matcher_ci.
  - intros a b H. exact H.
  - split; auto. constructor.
Qed.

Lemma lookup_group_ci (n : nat) (c c' : captures) :
  same_caps c c' ->
  match lookup_group n c, lookup_group n c' with
  | None, None => True
  | Some g, Some g' => same true g g' = true
  | _, _ => False
  end.
Proof.
  intros H. induction H as [|[n1 g1] [n2 g2] c c' [Hn Hg] H IH]; [exact I|].
  cbn [fst snd] in Hn, Hg. subst n2. cbn [lookup_group].
  destruct (Nat.eqb n n1); [exact Hg | exact IH].
Qed.

Lemma substitute_ci_len (k : nat) :
  forall tmpl m m' c c', List.length tmpl <= k ->
    same true m m' = true -> same_caps c c' ->
    same true (substitute tmpl m c) (substitute tmpl m' c') = true.
Proof.
  induction k as [|k IH]; intros tmpl m m' c c' Hk Hm Hc.
  - destruct tmpl; [reflexivity | simpl in Hk; lia].
  - destruct tmpl as [|d t]; [reflexivity|].
    simpl in Hk. assert (Ht : List.length t <= k) by lia.
    cbn [substitute].
    assert (Hd : same true (d :: substitute t m c) (d :: substitute t m' c') = true).
    { cbn [same]. rewrite cieq_refl. apply IH; auto. }
    destruct (d =? 36)%N; [|exact Hd].
    destruct t as [|e t']; [exact Hd|].
    simpl in Ht. assert (Ht' : List.length t' <= k) by lia.
    destruct (e =? 36)%N.
    { cbn [same]. rewrite cieq_refl. apply IH; auto. }
    destruct (e =? 38)%N.
    { apply same_app; auto. }
    destruct ((49 <=? e)%N && (e <=? 57)%N); [|exact Hd].
    pose proof (lookup_group_ci (N.to_nat (e - 48)) c c' Hc) as Hl.
    destruct (lookup_group (N.to_nat (e - 48)) c),
      (lookup_group (N.to_nat (e - 48)) c'); try contradiction.
    + apply same_app; auto.
    + exact Hd.
Qed.

Lemma substitute_ci (tmpl m m' : jsstring) (c c' : captures) :
  same true m m' = true -> same_caps c c' ->
  same true (substitute tmpl m c) (substitute tmpl m' c') = true.
Proof. apply (substitute_ci_len (List.length tmpl)). lia. Qed.

(** The replace loop of an expression with the [i] flag, on two strings
    that differ in case only. *)
Lemma replace_from_ci (R : RegExp) (tmpl : jsstring) :
  re_ignoreCase R = true ->
  forall s s' skip, same true s s' = true ->
    same true (replace_from R tmpl skip s) (replace_from R tmpl skip s') = true.
Proof.
  intros Hi. induction s as [|x s IH]; intros [|x' s'] skip H; simpl in H;
    try discriminate.
  - destruct skip; [|reflexivity]. cbn [replace_from].
    pose proof (exec_at_ci R [] [] Hi eq_refl) as He.
    destruct (exec_at R []) as [[rest caps]|]; [|reflexivity].
    simpl in He. destruct He as [_ Hc]. cbn [snd] in Hc.
    apply substitute_ci; auto.
  - apply andb_prop in H; destruct H as [Hx Hs].
    destruct skip as [|n]; [|cbn [replace_from]; apply IH; exact Hs].
    assert (Hxs : same true (x :: s) (x' :: s') = true)
      by (simpl; rewrite Hx, Hs; reflexivity).
    pose proof (exec_at_ci R (x :: s) (x' :: s') Hi Hxs) as He.
    cbn [replace_from].
    destruct (exec_at R (x :: s)) as [[rest caps]|],
      (exec_at R (x' :: s')) as [[rest' caps']|]; simpl in He;
      try contradiction.
    + destruct He as [Hr Hc]. cbn [fst snd] in Hr, Hc.
      rewrite (same_length true _ _ Hr), (same_length true _ _ Hxs).
      assert (Hout : same true
                (substitute tmpl
                   (firstn (List.length (x :: s) - List.length rest) (x :: s)) caps)
                (substitute tmpl
                   (firstn (List.length (x :: s) - List.length rest) (x' :: s')) caps')
              = true).
      { apply substitute_ci; auto. apply same_firstn; exact Hxs. }
      destruct (List.length (x :: s) - List.length rest) as [|n'].
      * apply same_app; auto. simpl. rewrite Hx. simpl. apply IH; exact Hs.
      * apply same_app; auto.
    + simpl. rewrite Hx. simpl. apply IH; exact Hs.
Qed.

Lemma replace_ci (R : option RegExp) (tmpl s s' : jsstring) :
  (forall R', R = Some R' -> re_ignoreCase R' = true) ->
  same true s s' = true ->
  same_output (replace R tmpl s) (replace R tmpl s').
Proof.
  intros Hi Hs. destruct R as [R'|]; [|exact I].
  simpl. apply replace_from_ci; auto.
Qed.

Lemma run_ci (l : list (option RegExp * jsstring)) :
  Forall (fun st => forall R', fst st = Some R' -> re_ignoreCase R' = true) l ->
  forall s s', same true s s' = true -> same_output (run l s) (run l s').
Proof.
  intros H. induction H as [|[R t] l HR H IH]; intros s s' Hs; [exact Hs|].
  cbn [run]. pose proof (replace_ci R t s s' HR Hs) as Hr.
  destruct (replace R t s), (replace R t s'); simpl in Hr; try contradiction;
    cbn [bind]; auto.
Qed.

Lemma steps_i_flag :
  Forall (fun st => forall R', fst st = Some R' -> re_ignoreCase R' = true) steps_i.
Proof.
  unfold steps_i.
  assert (H : Forall2 (fun st mk => requires_in (fst mk) (snd mk) (fst st) = true)
                (firstn 12 steps) (firstn 12 step_markers))
    by (apply Forall2_firstn, steps_markers).
  assert (Hm : Forall (fun mk => fst mk = true) (firstn 12 step_markers))
    by (repeat constructor).
  revert Hm. induction H as [|st mk l ms Hr H IH]; intros Hm; constructor.
  - intros R' E. inversion Hm as [|? ? Hmk _]; subst.
    rewrite E, Hmk in Hr. cbn [requires_in] in Hr.
    apply andb_prop in Hr; destruct Hr as [_ Hr].
    apply Bool.eqb_prop in Hr. exact Hr.
  - apply IH. inversion Hm; assumption.
Qed.

(** X17. The twelve calls whose expressions carry the [i] flag do not see
    the case of ASCII letters: run one after the other on two documents
    that differ in case only, they return results that differ in case
    only.  A tag written in capitals is treated like its lower-case
    form. *)
Theorem steps_i_case_blind (s s' : jsstring) :
  same true s s' = true -> same_output (run steps_i s) (run steps_i s').
Proof. apply run_ci. apply steps_i_flag. Qed.

Lemma steps_i_case_blind_witness :
  same_output
    (run steps_i (codes "<SCRIPT SRC=" ++ Q ++ codes "HTTPS://CDN.TAILWINDCSS.COM"
                  ++ Q ++ codes "></SCRIPT><P>"))
    (run steps_i (codes "<script src=" ++ Q ++ codes "https://cdn.tailwindcss.com"
                  ++ Q ++ codes "></script><p>")).
Proof.
  apply steps_i_case_blind. vm_compute. reflexivity.
Defined.

(** The function is the twelve calls followed by the three on comments. *)
Lemma transformIndexHtml_steps_i (p html : jsstring) :
  transformIndexHtml (Some p) html
  = (result <- run steps_i html ;; run (skipn 12 steps) result).
Proof.
  rewrite transformIndexHtml_run, <- run_app.
  unfold steps_i. rewrite firstn_skipn. reflexivity.
Qed.

(** * Texts that every call copies *)





(** ** The calls on tags *)





(** ** The call on the import map *)




(** ** The calls on comments *)


(** ** The calls on theme style sheets *)

Section ThemeBefore.

Variable file : jsstring.
Hypothesis file_is_ok : file_ok file = true.
Hypothesis file_no_gt : none (is_char 62) file = true.




End ThemeBefore.

(** ** Every call *)







(** ** The text after the last quote *)





(** ** The theme loop *)









